(** * Verification of the interactive-window base of vscode-jupyter

    Three pieces of [interactiveBase.ts] are embedded here:

    - [NotebookUpdater]: the promise chain of [chainWithPendingUpdates] that
      serialises edits of a notebook document, with the module-level
      [pendingCellUpdates] WeakMap and [clearPendingChainedUpdatesForTests];
    - [CellButtons]: the [externalButtons] list managed by
      [createWebviewCellButton] and the disposables it returns;
    - [SubmitCode]: the control flow of [InteractiveBase.submitCode] as a
      tree of host interactions. *)

From stdpp Require Import gmap strings list fin_maps.

(** ** The update chain *)

(** [chainWithPendingUpdates] returns at once; the callback it hands to
    [finally] runs in a later turn of the event loop, and so does whatever
    follows an [await] in it.  The state below holds the module-level map and
    every call made so far with the point its callback has reached; an
    [Action] is one such turn, or a call, or something the host does.  An
    [update] callback is given by what it does to the builder; it does not
    call back into the chain. *)

Module NotebookUpdater.

(** Object identities.  A WeakMap is keyed by object identity, so a notebook
    document is its number and a cell is the number of its notebook (the
    [notebook] property) together with its own number. *)
Inductive DocumentOrCell :=
| NotebookDocument (d : nat)
| NotebookCell (d : nat) (c : nat).

#[global] Instance DocumentOrCell_eq_dec : EqDecision DocumentOrCell.
Proof. solve_decision. Defined.

#[global] Instance DocumentOrCell_countable : Countable DocumentOrCell.
Proof.
  refine (inj_countable'
    (fun k => match k with
              | NotebookDocument d => inl d
              | NotebookCell d c => inr (d, c)
              end)
    (fun x => match x with
              | inl d => NotebookDocument d
              | inr (d, c) => NotebookCell d c
              end) _).
  by intros [].
Defined.

(** ['notebook' in documentOrCell ? documentOrCell.notebook : documentOrCell] *)
Definition notebook (documentOrCell : DocumentOrCell) : DocumentOrCell :=
  match documentOrCell with
  | NotebookCell d _ => NotebookDocument d
  | NotebookDocument d => NotebookDocument d
  end.

Definition documentId (documentOrCell : DocumentOrCell) : nat :=
  match documentOrCell with
  | NotebookCell d _ => d
  | NotebookDocument d => d
  end.

Inductive Error :=
| TypeError            (* calling a method of [undefined] *)
| HostError (n : nat). (* whatever the host or a callback throws *)

(** State of a promise. *)
Inductive PromiseState (A : Type) :=
| Pending
| Fulfilled (a : A)
| Rejected (e : Error).
Arguments Pending {A}.
Arguments Fulfilled {A} a.
Arguments Rejected {A} e.

(** A [WorkspaceEdit] is the batch of edits collected so far; its [size] is
    the number of resources the batch touches. *)
Record EditEntry := { resource : nat; change : nat }.
Definition WorkspaceEdit := list EditEntry.

Definition size (edit : WorkspaceEdit) : nat :=
  length (remove_dups (resource <$> edit)).

(** The [update] callback, seen from the chain: it either returns or returns
    a promise ([isPromise]), and it ends by having filled the builder or by
    throwing (a rejected promise when it returned one). *)
Inductive UpdateOutcome :=
| Contributes (edit : WorkspaceEdit)
| Throws (e : Error).

Record Update := { returnsPromise : bool; outcome : UpdateOutcome }.

(** The promise an operation chains on: [Promise.resolve()] or the
    [aggregatedPromise] of an earlier call. *)
Inductive PromiseRef :=
| PromiseResolve
| aggregatedPromise (i : nat).

(** Progress of the callback given to [finally]. *)
Inductive Phase :=
| Queued                          (* [pendingUpdates] has not settled yet *)
| AwaitingUpdate                  (* suspended in [await result] *)
| Applying (edit : WorkspaceEdit) (* suspended in [await workspace.applyEdit] *)
| Finished.                       (* returned or threw: [aggregatedPromise] settled *)

(** One call that got as far as [createDeferred]. *)
Record Operation := {
  key : DocumentOrCell;
  pendingUpdates : PromiseRef;
  update : Update;
  phase : Phase;
  deferred : PromiseState bool
}.

Inductive ApplyResult :=
| Applied (result : bool)
| Failed (ex : Error).

(** What the document and the callbacks get to see, in the order it
    happens: [update(edit)] is called, [workspace.applyEdit(edit)] is called,
    the promise of [applyEdit] settles. *)
Inductive Event :=
| UpdateInvoked (i : nat)
| ApplyStarted (i : nat)
| ApplyEnded (i : nat) (r : ApplyResult).

#[global] Instance Error_eq_dec : EqDecision Error.
Proof. solve_decision. Defined.
#[global] Instance EditEntry_eq_dec : EqDecision EditEntry.
Proof. solve_decision. Defined.
#[global] Instance Phase_eq_dec : EqDecision Phase.
Proof. solve_decision. Defined.
#[global] Instance ApplyResult_eq_dec : EqDecision ApplyResult.
Proof. solve_decision. Defined.
#[global] Instance Event_eq_dec : EqDecision Event.
Proof. solve_decision. Defined.

Record State := {
  closed : gset nat;                              (* documents with [isClosed] *)
  pendingCellUpdates : gmap DocumentOrCell nat;   (* key to [aggregatedPromise] *)
  operations : list Operation;
  trace : list Event
}.

(** A fresh process: the module has just been loaded. *)
Definition init : State :=
  {| closed := ∅; pendingCellUpdates := ∅; operations := []; trace := [] |}.

Definition isClosed (documentOrCell : DocumentOrCell) (s : State) : bool :=
  bool_decide (documentId documentOrCell ∈ closed s).

Definition has (k : DocumentOrCell) (s : State) : bool :=
  match pendingCellUpdates s !! k with Some _ => true | None => false end.

(** [pendingCellUpdates.get(k)]; [None] is [undefined]. *)
Definition get (k : DocumentOrCell) (s : State) : option PromiseRef :=
  aggregatedPromise <$> pendingCellUpdates s !! k.

(** What the caller holds after the call. *)
Inductive Returned :=
| Immediately (p : PromiseState bool) (* the async function returned or threw *)
| DeferredPromise (i : nat).          (* [deferred.promise] of operation [i] *)

Definition enqueue (documentOrCell : DocumentOrCell) (upd : Update)
    (prev : PromiseRef) (s : State) : State :=
  {| closed := closed s;
     pendingCellUpdates :=
       <[documentOrCell := length (operations s)]> (pendingCellUpdates s);
     operations :=
       operations s ++
       [{| key := documentOrCell; pendingUpdates := prev; update := upd;
           phase := Queued; deferred := Pending |}];
     trace := trace s |}.

(** The synchronous part of [chainWithPendingUpdates]: everything up to
    [return deferred.promise].  The callback handed to [finally] runs later,
    see [step]. *)
Definition chainWithPendingUpdates (documentOrCell : DocumentOrCell)
    (upd : Update) (s : State) : State * Returned :=
  let nb := notebook documentOrCell in
  if isClosed nb s then (s, Immediately (Fulfilled true))
  else
    let pending :=
      if has nb s then get documentOrCell s else Some PromiseResolve in
    match pending with
    | None => (s, Immediately (Rejected TypeError)) (* [undefined.finally] *)
    | Some prev =>
        (enqueue documentOrCell upd prev s,
         DeferredPromise (length (operations s)))
    end.

(** The promise state the caller can observe. *)
Definition observe (r : Returned) (s : State) : PromiseState bool :=
  match r with
  | Immediately p => p
  | DeferredPromise i =>
      match operations s !! i with
      | Some op => deferred op
      | None => Pending
      end
  end.

Definition isFinished (p : Phase) : bool :=
  match p with Finished => true | _ => false end.

Definition isQueued (p : Phase) : bool :=
  match p with Queued => true | _ => false end.

(** An operation is in flight while its callback is suspended. *)
Definition inFlight (p : Phase) : bool :=
  match p with AwaitingUpdate | Applying _ => true | _ => false end.

Definition settled (p : PromiseRef) (s : State) : bool :=
  match p with
  | PromiseResolve => true
  | aggregatedPromise j =>
      match operations s !! j with
      | Some op => isFinished (phase op)
      | None => false
      end
  end.

Definition withPhase (p : Phase) (op : Operation) : Operation :=
  {| key := key op; pendingUpdates := pendingUpdates op; update := update op;
     phase := p; deferred := deferred op |}.

Definition withDeferred (d : PromiseState bool) (op : Operation) : Operation :=
  {| key := key op; pendingUpdates := pendingUpdates op; update := update op;
     phase := phase op; deferred := d |}.

Definition setOperation (i : nat) (op : Operation) (evs : list Event)
    (s : State) : State :=
  {| closed := closed s;
     pendingCellUpdates := pendingCellUpdates s;
     operations := <[i := op]> (operations s);
     trace := trace s ++ evs |}.

(** The callback from the point where [update] has returned and, if it
    returned a promise, that promise has settled. *)
Definition afterUpdate (i : nat) (op : Operation) (evs : list Event)
    (s : State) : State :=
  match outcome (update op) with
  | Throws _ => setOperation i (withPhase Finished op) evs s
  | Contributes edit =>
      if decide (size edit = 0)
      then setOperation i (withPhase Finished op) evs s
      else setOperation i (withPhase (Applying edit) op)
             (evs ++ [ApplyStarted i]) s
  end.

Definition settleDeferred (r : ApplyResult) : PromiseState bool :=
  match r with
  | Applied result => Fulfilled result
  | Failed ex => Rejected ex
  end.

(** [clearPendingChainedUpdatesForTests], given the document of
    [window.activeNotebookEditor] and the numbers of its cells. *)
Definition clearPendingChainedUpdatesForTests
    (editor : option (nat * list nat)) (s : State) : State :=
  match editor with
  | None => s
  | Some (d, cells) =>
      {| closed := closed s;
         pendingCellUpdates :=
           foldl (fun m c => delete (NotebookCell d c) m)
                 (delete (NotebookDocument d) (pendingCellUpdates s)) cells;
         operations := operations s;
         trace := trace s |}
  end.

(** What can happen, one event-loop turn at a time. *)
Inductive Action :=
| Call (documentOrCell : DocumentOrCell) (upd : Update)
| Run (i : nat)                        (* the [finally] callback starts *)
| UpdateSettles (i : nat)              (* the promise of [update] settles *)
| ApplySettles (i : nat) (r : ApplyResult) (* the host ends [applyEdit] *)
| Close (d : nat)                      (* the host closes a document *)
| ClearForTests (editor : option (nat * list nat)).

(** [None]: the action is not possible in this state. *)
Definition step (a : Action) (s : State) : option State :=
  match a with
  | Call documentOrCell upd =>
      Some (fst (chainWithPendingUpdates documentOrCell upd s))
  | Run i =>
      match operations s !! i with
      | Some op =>
          if isQueued (phase op) && settled (pendingUpdates op) s then
            if returnsPromise (update op)
            then Some (setOperation i (withPhase AwaitingUpdate op)
                         [UpdateInvoked i] s)
            else Some (afterUpdate i op [UpdateInvoked i] s)
          else None
      | None => None
      end
  | UpdateSettles i =>
      match operations s !! i with
      | Some op =>
          match phase op with
          | AwaitingUpdate => Some (afterUpdate i op [] s)
          | _ => None
          end
      | None => None
      end
  | ApplySettles i r =>
      match operations s !! i with
      | Some op =>
          match phase op with
          | Applying _ =>
              Some (setOperation i
                      (withDeferred (settleDeferred r) (withPhase Finished op))
                      [ApplyEnded i r] s)
          | _ => None
          end
      | None => None
      end
  | Close d =>
      Some {| closed := {[d]} ∪ closed s;
              pendingCellUpdates := pendingCellUpdates s;
              operations := operations s;
              trace := trace s |}
  | ClearForTests editor =>
      Some (clearPendingChainedUpdatesForTests editor s)
  end.

Fixpoint exec (acts : list Action) (s : State) : option State :=
  match acts with
  | [] => Some s
  | a :: rest =>
      match step a s with
      | Some s' => exec rest s'
      | None => None
      end
  end.

(** A schedule that finishes every operation, oldest first.  The host ends
    the [applyEdit] of operation [i] as [host i] says. *)
Definition applyPart (host : nat -> ApplyResult) (i : nat) (op : Operation)
    : list Action :=
  match outcome (update op) with
  | Contributes edit =>
      if decide (size edit = 0) then [] else [ApplySettles i (host i)]
  | Throws _ => []
  end.

Definition finishActions (host : nat -> ApplyResult) (i : nat)
    (op : Operation) : list Action :=
  match phase op with
  | Queued =>
      Run i ::
      (if returnsPromise (update op) then [UpdateSettles i] else []) ++
      applyPart host i op
  | AwaitingUpdate => UpdateSettles i :: applyPart host i op
  | Applying _ => [ApplySettles i (host i)]
  | Finished => []
  end.

Fixpoint drainBelow (host : nat -> ApplyResult) (n : nat) (s : State)
    : list Action :=
  match n with
  | 0 => []
  | S m =>
      drainBelow host m s ++
      match operations s !! m with
      | Some op => finishActions host m op
      | None => []
      end
  end.

Definition drain (host : nat -> ApplyResult) (s : State) : list Action :=
  drainBelow host (length (operations s)) s.

(** The state after a run from a fresh process ([init] if the run is not
    possible). *)
Definition after (acts : list Action) : State := default init (exec acts init).

Definition isClear (a : Action) : bool :=
  match a with ClearForTests _ => true | _ => false end.

Definition phaseOf (i : nat) (s : State) : option Phase :=
  phase <$> operations s !! i.

Definition deferredOf (i : nat) (s : State) : option (PromiseState bool) :=
  deferred <$> operations s !! i.

(** *** Predicates used to state the properties *)

Implicit Types (s t : State) (op : Operation) (a : Action) (i j : nat).


(** The parts of an operation fixed when it is enqueued. *)
Definition sameCall (op op' : Operation) : Prop :=
  key op' = key op ∧ pendingUpdates op' = pendingUpdates op ∧
  update op' = update op.

Definition started (p : Phase) (i : nat) : list Event :=
  match p with Queued => [UpdateInvoked i] | _ => [] end.

(** How one operation moves forward, and the events this leaves. *)
Inductive Moves (i : nat) : Operation → Operation → list Event → Prop :=
| moves_await op :
    phase op = Queued →
    Moves i op (withPhase AwaitingUpdate op) [UpdateInvoked i]
| moves_finish op :
    phase op = Queued ∨ phase op = AwaitingUpdate →
    (∀ edit, outcome (update op) = Contributes edit → size edit = 0) →
    Moves i op (withPhase Finished op) (started (phase op) i)
| moves_apply op edit :
    phase op = Queued ∨ phase op = AwaitingUpdate →
    outcome (update op) = Contributes edit → size edit ≠ 0 →
    Moves i op (withPhase (Applying edit) op)
          (started (phase op) i ++ [ApplyStarted i])
| moves_settle op edit r :
    phase op = Applying edit →
    Moves i op (withDeferred (settleDeferred r) (withPhase Finished op))
          [ApplyEnded i r].

(** Every step either leaves the operations alone, appends a fresh queued
    one, or moves one operation forward. *)
Inductive StepShape a s s' : Prop :=
| shape_same :
    operations s' = operations s →
    trace s' = trace s →
    (∀ k j, pendingCellUpdates s' !! k = Some j →
            pendingCellUpdates s !! k = Some j) →
    (isClear a = false → pendingCellUpdates s' = pendingCellUpdates s) →
    StepShape a s s'
| shape_new k prev u :
    operations s' =
      operations s ++ [{| key := k; pendingUpdates := prev; update := u;
                          phase := Queued; deferred := Pending |}] →
    trace s' = trace s →
    pendingCellUpdates s' =
      <[k := length (operations s)]> (pendingCellUpdates s) →
    (if has (notebook k) s then get k s = Some prev
     else prev = PromiseResolve) →
    StepShape a s s'
| shape_move i op op' evs :
    operations s !! i = Some op →
    operations s' = <[i := op']> (operations s) →
    trace s' = trace s ++ evs →
    pendingCellUpdates s' = pendingCellUpdates s →
    (phase op = Queued → settled (pendingUpdates op) s = true) →
    Moves i op op' evs →
    StepShape a s s'.

(** What holds in every state the program can be in. *)
Record Sound s : Prop := {
  sound_map k j :
    pendingCellUpdates s !! k = Some j → j < length (operations s);
  sound_prev i op j :
    operations s !! i = Some op →
    pendingUpdates op = aggregatedPromise j → j < i;
  sound_started i op :
    operations s !! i = Some op → phase op ≠ Queued →
    settled (pendingUpdates op) s = true;
  sound_applying i op edit :
    operations s !! i = Some op → phase op = Applying edit →
    outcome (update op) = Contributes edit ∧ size edit ≠ 0;
  sound_trace i :
    ApplyStarted i ∈ trace s →
    ∃ op edit, operations s !! i = Some op ∧
               outcome (update op) = Contributes edit ∧ size edit ≠ 0;
  sound_deferred i op :
    operations s !! i = Some op → deferred op ≠ Pending →
    phase op = Finished ∧
    (∃ r, ApplyEnded i r ∈ trace s ∧ deferred op = settleDeferred r) ∧
    ∃ edit, outcome (update op) = Contributes edit ∧ size edit ≠ 0;
  sound_map_key k p :
    pendingCellUpdates s !! k = Some p →
    ∃ op, operations s !! p = Some op ∧ key op = k;
  sound_map_last k p j op :
    pendingCellUpdates s !! k = Some p →
    operations s !! j = Some op → pendingUpdates op ≠ aggregatedPromise p;
  sound_prev_key j op p :
    operations s !! j = Some op → pendingUpdates op = aggregatedPromise p →
    ∃ opp, operations s !! p = Some opp ∧ key opp = key op;
  sound_unique j k opj opk p :
    operations s !! j = Some opj → operations s !! k = Some opk →
    pendingUpdates opj = aggregatedPromise p →
    pendingUpdates opk = aggregatedPromise p → j = k
}.

(** Operation [n] has been brought from [op] in [t] to its end in [t']. *)
Definition FinishedFrom (host : nat → ApplyResult) n op t t' : Prop :=
  ∃ op', operations t' = <[n := op']> (operations t) ∧
         sameCall op op' ∧ phase op' = Finished ∧
         pendingCellUpdates t' = pendingCellUpdates t ∧
         trace t `prefix_of` trace t' ∧
         (phase op = Queued → UpdateInvoked n ∈ trace t') ∧
         (∀ edit, outcome (update op) = Contributes edit → size edit ≠ 0 →
                  phase op ≠ Finished →
                  deferred op' = settleDeferred (host n)) ∧
         (∀ edit, outcome (update op) = Contributes edit → size edit = 0 →
                  deferred op' = deferred op ∧
                  (ApplyStarted n ∈ trace t' → ApplyStarted n ∈ trace t)).

(** Operation [i], which was [op] in [s], has run to its end in [s']. *)
Definition Ran (host : nat → ApplyResult) s s' i op : Prop :=
  ∃ op', operations s' !! i = Some op' ∧ sameCall op op' ∧
         phase op' = Finished ∧
         (phase op = Queued → UpdateInvoked i ∈ trace s') ∧
         (∀ edit, outcome (update op) = Contributes edit → size edit ≠ 0 →
                  phase op ≠ Finished →
                  deferred op' = settleDeferred (host i)) ∧
         (∀ edit, outcome (update op) = Contributes edit → size edit = 0 →
                  deferred op' = deferred op).

(** For a key that is a document, each operation waits for the one enqueued
    just before it on that key, and the map points at the latest.  This is
    where [has(notebook)] and [get(documentOrCell)] speak of the same key. *)
Record Chained s : Prop := {
  chained_last i op d :
    operations s !! i = Some op → key op = NotebookDocument d →
    ∃ j opj, pendingCellUpdates s !! NotebookDocument d = Some j ∧ i ≤ j ∧
             operations s !! j = Some opj ∧ key opj = NotebookDocument d;
  chained_prev i j opi opj d :
    i < j →
    operations s !! i = Some opi → key opi = NotebookDocument d →
    operations s !! j = Some opj → key opj = NotebookDocument d →
    ∃ j' opj', pendingUpdates opj = aggregatedPromise j' ∧ i ≤ j' < j ∧
               operations s !! j' = Some opj' ∧
               key opj' = NotebookDocument d
}.


(** *** Inputs used in the examples *)

Definition editOf (n : nat) : WorkspaceEdit :=
  [{| resource := 0; change := n |}].

Definition syncEdit (n : nat) : Update :=
  {| returnsPromise := false; outcome := Contributes (editOf n) |}.

Definition asyncEdit (n : nat) : Update :=
  {| returnsPromise := true; outcome := Contributes (editOf n) |}.

Definition noEdits : Update :=
  {| returnsPromise := false; outcome := Contributes [] |}.

(** The lifecycle rule of the specification, read literally: a closed
    document has no entry, neither for itself nor for one of its cells. *)
Definition ClosingRemovesEntries : Prop :=
  ∀ acts s k,
    exec acts init = Some s → isClosed k s = true →
    pendingCellUpdates s !! k = None.

End NotebookUpdater.

(** ** External cell buttons *)

Module CellButtons.

(** An entry of [externalButtons].  The callback is a closure; its identity
    is all that matters here.  [statusToEnable] holds [CellState] values. *)
Record Button := {
  buttonId : string;
  callback : option nat;       (* [None]: [callback: undefined] *)
  codicon : string;
  statusToEnable : list Z;
  tooltip : string;
  running : bool
}.

(** Payload of an [UpdateExternalCellButtons] message. *)
Definition Message := list Button.

Record State := {
  externalButtons : list Button;
  posted : list Message        (* messages given to [postMessage], oldest first *)
}.

Definition init : State := {| externalButtons := []; posted := [] |}.

(** [Array.prototype.findIndex]: the first index whose element satisfies
    the predicate, [-1] when there is none. *)
Fixpoint findIndexFrom {A} (p : A -> bool) (l : list A) (i : Z) : Z :=
  match l with
  | [] => (-1)%Z
  | x :: rest => if p x then i else findIndexFrom p rest (i + 1)%Z
  end.

Definition findIndex {A} (p : A -> bool) (l : list A) : Z :=
  findIndexFrom p l 0%Z.

(** [Array.prototype.splice(start, deleteCount)] without inserted items. *)
Definition splice {A} (start : Z) (deleteCount : nat) (l : list A) : list A :=
  let len := Z.of_nat (length l) in
  let from :=
    if (start <? 0)%Z then Z.to_nat (Z.max (len + start) 0)
    else Z.to_nat (Z.min start len) in
  take from l ++ drop (from + deleteCount) l.

Definition hasId (id : string) (button : Button) : bool :=
  bool_decide (buttonId button = id).

(** [{ ...b, callback: undefined }] *)
Definition withoutCallback (b : Button) : Button :=
  {| buttonId := buttonId b; callback := None; codicon := codicon b;
     statusToEnable := statusToEnable b; tooltip := tooltip b;
     running := running b |}.

Definition postButtons (s : State) : State :=
  {| externalButtons := externalButtons s;
     posted := posted s ++ [withoutCallback <$> externalButtons s] |}.

(** The returned disposable closes over [buttonId] and nothing else. *)
Record IDisposable := { disposes : string }.

Definition createWebviewCellButton (id : string) (cb : nat) (icon : string)
    (status : list Z) (tip : string) (s : State) : State * IDisposable :=
  let index := findIndex (hasId id) (externalButtons s) in
  let s' :=
    if decide (index = (-1)%Z) then
      postButtons
        {| externalButtons :=
             externalButtons s ++
             [{| buttonId := id; callback := Some cb; codicon := icon;
                 statusToEnable := status; tooltip := tip; running := false |}];
           posted := posted s |}
    else s in
  (s', {| disposes := id |}).

Definition dispose (d : IDisposable) (s : State) : State :=
  let buttonIndex := findIndex (hasId (disposes d)) (externalButtons s) in
  if decide (buttonIndex ≠ (-1)%Z) then
    postButtons
      {| externalButtons := splice buttonIndex 1 (externalButtons s);
         posted := posted s |}
  else s.

(** Calls and disposals, in the order they happen. *)
Inductive Op :=
| Create (id : string) (cb : nat) (icon : string) (status : list Z)
         (tip : string)
| Dispose (d : IDisposable).

Definition apply (s : State) (o : Op) : State :=
  match o with
  | Create id cb icon status tip =>
      fst (createWebviewCellButton id cb icon status tip s)
  | Dispose d => dispose d s
  end.

Definition run (ops : list Op) : State := foldl apply init ops.

Definition ids (s : State) : list string := buttonId <$> externalButtons s.

End CellButtons.

(** ** Submitting code *)

Module SubmitCode.

Inductive Error :=
| CancellationError
| OtherError (message : string).

(** The values of [CellState] that [sendCellsToWebView] tells apart; the
    rest takes its [default] branch. *)
Inductive CellState := init | executing | finished | error | otherState.

#[global] Instance CellState_eq_dec : EqDecision CellState.
Proof. solve_decision. Defined.

(** Cell data as far as [combineData] looks into it: the fields of the
    object and, apart, those of its [metadata]. *)
Record CellData := {
  fields : gmap string string;
  metadata : gmap string string
}.

Record ICell := { cellId : string; state : CellState; data : CellData }.

Record DebugInfo := { runByLine : bool; hashFileName : option string }.

Inductive WebviewMessage :=
| StartCell (cell : ICell)
| UpdateCellWithExecutionResults (cell : ICell)
| FinishCell (cell : ICell).

(** Calls into the host that return nothing the function looks at. *)
Inductive Effect :=
| sendKernelTelemetryEvent
| traceInfo (message : string)
| traceError (e : Error)
| newStopWatch
| setStatus
| statusDispose
| shareMessage (code file : string) (line : Z) (id : string) (debug : bool)
| setPerceivedJupyterStartupTelemetryCaptured
| sendTelemetryEvent
| onSessionStatusChanged
| executeObservable (code file : string) (line : Z) (id : string)
| executeEventFire (code : string)
| postMessage (m : WebviewMessage)
| pushUnfinishedCell (cell : ICell)
| dropUnfinishedCell (id : string)
| showErrorMessage (e : Error).

(** Promises the function awaits; each may reject. *)
Inductive Awaited :=
| ensureConnectionAndNotebook
| ensureDarkSet
| show
| addSysInfo
| notebookSetLaunchingFile (file : string)
| startRunByLine (hashFile : string)
| notebookExecute (file : string)  (* the [IPYKERNEL_CELL_NAME] assignment *)
| startDebugging
| stopDebugging
| setFileInKernel (file : string).

(** How the subscription stands when the function stops listening to it:
    the observable completed, it failed, or it is still on.  The wait for
    [finishedAddingCode] ends without an end of the observable when
    [finishOutstandingCells] disposes the status, which [setStatus] put into
    [potentiallyUnfinishedStatus] and whose [dispose] resolves the
    deferred. *)
Inductive Ending :=
| Complete
| ObservableError (e : Error)
| NotEnded.

(** How an execution ends. *)
Inductive Outcome (R : Type) :=
| Returns (r : R)
| ThrowsError (e : Error).
Arguments Returns {R} r.
Arguments ThrowsError {R} e.

(** What is declared elsewhere in the extension: the settings object with
    its [stopOnError] flag, [CellMatcher.stripFirstMarker] for a matcher
    made from the settings, and [Identifiers.EmptyFileName]. *)
Class Host := {
  Settings : Type;
  stopOnError : Settings -> bool;
  stripFirstMarker : Settings -> string -> string;
  EmptyFileName : string
}.

Section Program.

Context `{Host}.

Inductive Call :=
| effect (e : Effect)
| await (a : Awaited)
| readNotebook            (* is [this._notebook] set? *)
| readPerceivedCaptured   (* [this.perceivedJupyterStartupTelemetryCaptured] *)
| getSettings
| uuid
| subscribe               (* the notifications up to [finishedAddingCode] *)
| laterNotifications.     (* those that come before [stopDebugging] settles *)

Definition Answer (c : Call) : Type :=
  match c with
  | effect _ => unit
  | await _ => option Error
  | readNotebook => bool
  | readPerceivedCaptured => bool
  | getSettings => Settings
  | uuid => string
  | subscribe => (list (list ICell) * Ending)%type
  | laterNotifications => (list (list ICell) * Ending)%type
  end.

(** A computation is a tree: it returns, throws, or calls the host and
    goes on with the answer. *)
Inductive Prog (R : Type) : Type :=
| Ret (r : R)
| Raise (e : Error)
| Vis (c : Call) (k : Answer c -> Prog R).
Arguments Ret {R} r.
Arguments Raise {R} e.
Arguments Vis {R} c k.

Fixpoint bind {A B} (m : Prog A) (f : A -> Prog B) : Prog B :=
  match m with
  | Ret a => f a
  | Raise e => Raise e
  | Vis c k => Vis c (fun x => bind (k x) f)
  end.

#[local] Instance Prog_bind : MBind Prog := fun A B f m => bind m f.
#[local] Instance Prog_ret : MRet Prog := fun A a => Ret a.

Definition perform (e : Effect) : Prog unit := Vis (effect e) Ret.

Definition ask (c : Call) : Prog (Answer c) := Vis c Ret.

Definition awaiting (a : Awaited) : Prog unit :=
  Vis (await a) (fun r : option Error =>
    match r with None => Ret tt | Some e => Raise e end).

(** [try { body } finally { fin }] with what follows it when nothing was
    thrown.  [fin] is given what [body] left behind, [None] if it threw, and
    ends with the value to return; an error of [body] comes out after [fin]
    unless [fin] throws itself. *)
Fixpoint tryFinally {A B} (body : Prog A) (fin : option A -> Prog B)
    : Prog B :=
  match body with
  | Ret a => fin (Some a)
  | Raise e => bind (fin None) (fun _ => Raise e)
  | Vis c k => Vis c (fun x => tryFinally (k x) fin)
  end.

Fixpoint forEach {A} (f : A -> Prog unit) (l : list A) : Prog unit :=
  match l with
  | [] => Ret tt
  | x :: rest => bind (f x) (fun _ => forEach f rest)
  end.

(** [combineData]: the spread keeps the right-hand fields on a clash. *)
Definition combineData (oldData : option CellData) (cell : ICell) : ICell :=
  match oldData with
  | Some old =>
      {| cellId := cellId cell; state := state cell;
         data := {| fields := fields (data cell) ∪ fields old;
                    metadata := metadata (data cell) ∪ metadata old |} |}
  | None => cell
  end.

Definition sendCellsToWebView (cells : list ICell) : Prog unit :=
  forEach (fun cell =>
    match state cell with
    | init =>
        perform (postMessage (StartCell cell));;
        perform (pushUnfinishedCell cell)
    | executing =>
        perform (postMessage (UpdateCellWithExecutionResults cell))
    | error | finished =>
        perform (postMessage (FinishCell cell));;
        perform (dropUnfinishedCell (cellId cell))
    | otherState => Ret tt
    end) cells.

(** [setLaunchingFile], given whether [this._notebook] is set. *)
Definition setLaunchingFile (file : string) : Prog unit :=
  if bool_decide (file ≠ EmptyFileName) then
    nb ← ask readNotebook;
    if nb : bool then awaiting (notebookSetLaunchingFile file) else Ret tt
  else Ret tt.

(** The first callback given to [subscribe]. *)
Definition onCells (oldData : option CellData) (result : bool)
    (cells : list ICell) : Prog bool :=
  sendCellsToWebView (combineData oldData <$> cells);;
  settings ← ask getSettings;
  if stopOnError settings
  then Ret (result &&
            bool_decide (filter (fun c => state c = error) cells = []))
  else Ret result.

Fixpoint onAllCells (oldData : option CellData) (result : bool)
    (batches : list (list ICell)) : Prog bool :=
  match batches with
  | [] => Ret result
  | cells :: rest =>
      bind (onCells oldData result cells)
           (fun result' => onAllCells oldData result' rest)
  end.

Definition onEnding (e : Ending) : Prog unit :=
  match e with
  | Complete => perform statusDispose
  | ObservableError ex =>
      perform (traceError ex);;
      perform statusDispose;;
      match ex with
      | CancellationError => Ret tt
      | _ => perform (showErrorMessage ex)
      end
  | NotEnded => Ret tt
  end.

Definition isOn (e : Ending) : bool :=
  match e with NotEnded => true | _ => false end.

(** The callbacks given to [subscribe] at work on the notifications that
    came; [result] is the variable they share with [submitCode]. *)
Definition onNotifications (oldData : option CellData) (result : bool)
    (notifications : list (list ICell) * Ending) : Prog bool :=
  result' ← onAllCells oldData result (fst notifications);
  onEnding (snd notifications);;
  Ret result'.

Definition startDebugger (file : string) (debugInfo : DebugInfo)
    : Prog unit :=
  match runByLine debugInfo, hashFileName debugInfo with
  | true, Some hash =>
      if bool_decide (hash ≠ "") then awaiting (startRunByLine hash)
      else Raise (OtherError "Missing hash file name when running by line")
  | true, None =>
      Raise (OtherError "Missing hash file name when running by line")
  | false, _ =>
      ask uuid;;
      awaiting (notebookExecute file);;
      awaiting startDebugging
  end.

Definition truthy (id : option string) : bool :=
  match id with
  | Some s => bool_decide (s ≠ "")
  | None => false
  end.

(** The [try] block; [stopWatch] tells whether a [StopWatch] was made.  It
    leaves [result] and whether the subscription is still on. *)
Definition submitCodeBody (code file : string) (line : Z) (id : string)
    (oldData : option CellData) (debugInfo : option DebugInfo)
    (stopWatch : bool) : Prog (bool * bool) :=
  awaiting ensureConnectionAndNotebook;;
  awaiting ensureDarkSet;;
  awaiting show;;
  (if bool_decide (file ≠ EmptyFileName) then awaiting addSysInfo
   else Ret tt);;
  nb ← ask readNotebook;
  if nb : bool then
    setLaunchingFile file;;
    match debugInfo with
    | Some info => startDebugger file info
    | None => Ret tt
    end;;
    awaiting (setFileInKernel file);;
    (if stopWatch then
       captured ← ask readPerceivedCaptured;
       if captured : bool then Ret tt
       else
         perform setPerceivedJupyterStartupTelemetryCaptured;;
         perform sendTelemetryEvent;;
         perform onSessionStatusChanged
     else Ret tt);;
    perform (executeObservable code file line id);;
    perform (executeEventFire code);;
    notifications ← ask subscribe;
    result ← onNotifications oldData true notifications;
    perform (traceInfo "Finished execution");;
    Ret (result, isOn (snd notifications))
  else Ret (true, false).

(** The [finally] block and [return result].  A [try] block that threw did
    so before [subscribe], with [result] as it was set at the start.  While
    [stopDebugging] is awaited a subscription that is still on goes on
    calling its callbacks; the answer to [await stopDebugging] stands where
    the promise settles, after the calls of these callbacks. *)
Definition submitCodeFinally (oldData : option CellData)
    (debugInfo : option DebugInfo) (left : option (bool * bool))
    : Prog bool :=
  let result := default true (fst <$> left) in
  let listening := default false (snd <$> left) in
  perform statusDispose;;
  match debugInfo with
  | Some _ =>
      nb ← ask readNotebook;
      if nb : bool then
        result' ← (if listening : bool then
                     notifications ← ask laterNotifications;
                     onNotifications oldData result notifications
                   else Ret result);
        awaiting stopDebugging;;
        Ret result'
      else Ret result
  | None => Ret result
  end.

(** [submitCode] from the [CellMatcher] check on. *)
Definition submitCodeChecked (code file : string) (line : Z)
    (id : option string) (oldData : option CellData)
    (debugInfo : option DebugInfo) (stopWatch : bool) : Prog bool :=
  let result := true in
  settings ← ask getSettings;
  if bool_decide (String.length (stripFirstMarker settings code) = 0)
  then Ret result
  else
    perform setStatus;;
    id' ← (if truthy id then Ret (default "" id)
           else u ← ask uuid;
                perform (shareMessage code file line u
                           (bool_decide (is_Some debugInfo)));;
                Ret u);
    tryFinally (submitCodeBody code file line id' oldData debugInfo stopWatch)
               (submitCodeFinally oldData debugInfo).

Definition submitCode (code file : string) (line : Z) (id : option string)
    (oldData : option CellData) (debugInfo : option DebugInfo) : Prog bool :=
  perform sendKernelTelemetryEvent;;
  perform (traceInfo "Submitting code");;
  nb ← ask readNotebook;
  stopWatch ← (if nb : bool then
                 captured ← ask readPerceivedCaptured;
                 if captured : bool then Ret false
                 else perform newStopWatch;; Ret true
               else Ret false);
  submitCodeChecked code file line id oldData debugInfo stopWatch.

(** [Runs t calls o] is one execution of [t]: the host calls it makes, in
    order, with the answers, and its end. *)
(** A call together with what the host answered. *)
Inductive Reply := reply (c : Call) (x : Answer c).

Definition called (r : Reply) : Call := let 'reply c _ := r in c.

Fixpoint Runs {R} (t : Prog R) (calls : list Reply) (o : Outcome R) : Prop :=
  match t with
  | Ret r => calls = [] ∧ o = Returns r
  | Raise e => calls = [] ∧ o = ThrowsError e
  | Vis c k =>
      ∃ (x : Answer c) rest, calls = reply c x :: rest ∧ Runs (k x) rest o
  end.

(** Calls that execute something on the notebook. *)
Definition executesOnNotebook (c : Call) : bool :=
  match c with
  | effect (executeObservable _ _ _ _) => true
  | await (notebookExecute _) => true
  | await (startRunByLine _) => true
  | _ => false
  end.

Definition firesExecutedCode (c : Call) : bool :=
  match c with
  | effect (executeEventFire _) => true
  | _ => false
  end.

Definition sendsCellToWebview (c : Call) : bool :=
  match c with
  | effect (postMessage _) => true
  | _ => false
  end.

(** A host call that runs code, announces executed code or sends a cell. *)
Definition visible (r : Reply) : bool :=
  executesOnNotebook (called r) || firesExecutedCode (called r) ||
  sendsCellToWebview (called r).

End Program.

Arguments Ret {_ R} r.
Arguments Raise {_ R} e.
Arguments Vis {_ R} c k.

(** A host for the examples: no settings to speak of, and a matcher that
    knows the one marker line ["# %%"]. *)
Definition exampleHost : Host :=
  {| Settings := unit;
     stopOnError := fun _ => true;
     stripFirstMarker := fun _ code =>
       if bool_decide (code = "# %%") then "" else code;
     EmptyFileName := "2DB9B899-6519-4E1B-88B0-FA728A274115" |}.

Definition exampleCell (st : CellState) : ICell :=
  {| cellId := "1"; state := st;
     data := {| fields := ∅; metadata := ∅ |} |}.

End SubmitCode.

(** ** What the trace of the update chain is held to *)

Module UpdateChainInvariants.
Import NotebookUpdater.

Implicit Types (s t : State) (op : Operation) (a : Action) (i j : nat).

(** The operation an event belongs to, and the event without its result. *)
Inductive EventKind := Invoked | Started | Ended.

#[global] Instance EventKind_eq_dec : EqDecision EventKind.
Proof. solve_decision. Defined.

Definition eventKind (e : Event) : EventKind * nat :=
  match e with
  | UpdateInvoked i => (Invoked, i)
  | ApplyStarted i => (Started, i)
  | ApplyEnded i _ => (Ended, i)
  end.

(** How often an event of this kind is in the trace. *)
Definition occurrences (k : EventKind) (i : nat) (tr : list Event) : nat :=
  length (filter (λ e, eventKind e = (k, i)) tr).

(** What the phase of an operation says about the events it has left. *)
Definition expected (k : EventKind) (op : Operation) : nat :=
  match k, phase op with
  | Invoked, Queued => 0
  | Invoked, _ => 1
  | Started, (Queued | AwaitingUpdate) => 0
  | Started, Applying _ => 1
  | Ended, (Queued | AwaitingUpdate | Applying _) => 0
  | (Started | Ended), Finished =>
      match deferred op with Pending => 0 | _ => 1 end
  end.

(** [a] comes before every [b] of the list. *)
Definition precedes (a b : EventKind * nat) (tr : list Event) : Prop :=
  ∀ l1 e l2, tr = l1 ++ e :: l2 → eventKind e = b →
             ∃ e', e' ∈ l1 ∧ eventKind e' = a.

(** Every event of the trace belongs to a call, every call has the events
    its phase tells of, and they come in their order. *)
Record Accounted s : Prop := {
  accounted_known e :
    e ∈ trace s → (eventKind e).2 < length (operations s);
  accounted_count k i op :
    operations s !! i = Some op →
    occurrences k i (trace s) = expected k op;
  accounted_started i : precedes (Invoked, i) (Started, i) (trace s);
  accounted_ended i : precedes (Started, i) (Ended, i) (trace s)
}.

(** Every call is tracked under its key: the map leads from the key of an
    operation to the latest operation with that key; an operation that does
    not start from [Promise.resolve()] waits for the one enqueued just before
    it on its key; and an operation enqueued after one on its notebook does
    not start from [Promise.resolve()]. *)
Record Indexed s : Prop := {
  indexed_last i op :
    operations s !! i = Some op →
    ∃ j opj, pendingCellUpdates s !! key op = Some j ∧ i ≤ j ∧
             operations s !! j = Some opj ∧ key opj = key op;
  indexed_prev i j opi opj :
    i < j →
    operations s !! i = Some opi → operations s !! j = Some opj →
    key opi = key opj → pendingUpdates opj ≠ PromiseResolve →
    ∃ j' opj', pendingUpdates opj = aggregatedPromise j' ∧ i ≤ j' < j ∧
               operations s !! j' = Some opj' ∧ key opj' = key opj;
  indexed_notebook n j opn opj :
    n < j →
    operations s !! n = Some opn → operations s !! j = Some opj →
    key opn = notebook (key opj) → pendingUpdates opj ≠ PromiseResolve
}.

(** Some operation has this key. *)
Definition used (k : DocumentOrCell) s : Prop :=
  ∃ i op, operations s !! i = Some op ∧ key op = k.

End UpdateChainInvariants.

(** ** Commands of the cell buttons *)

Module CellButtonCommands.
Import CellButtons.

(** [handleExecuteExternalCommand] up to its [await]: the callback it calls,
    when a button has the identifier of the payload and
    [translateCellToNative] gave a cell.  Nothing is changed. *)
Definition handleExecuteExternalCommand (payloadButtonId : string)
    (cell : option nat) (s : State) : option nat :=
  match List.find (hasId payloadButtonId) (externalButtons s), cell with
  | Some button, Some _ => callback button
  | _, _ => None
  end.

(** The function after the [await], which other calls may have used to come
    in between: the list as it is by then is posted, callbacks and all; when
    the callback threw, the function is left before that. *)
Definition commandDone (threw : bool) (s : State) : State :=
  if threw then s
  else {| externalButtons := externalButtons s;
          posted := posted s ++ [externalButtons s] |}.

(** What happens to the buttons, in order: the calls and disposals, and the
    ends of the executed commands. *)
Inductive Command :=
| ButtonOp (o : Op)
| CommandDone (threw : bool).

Definition perform (s : State) (c : Command) : State :=
  match c with
  | ButtonOp o => apply s o
  | CommandDone threw => commandDone threw s
  end.

Definition runCommands (cs : list Command) : State := foldl perform init cs.

(** What the webview was told last. *)
Definition lastPosted (s : State) : Message := default [] (last (posted s)).

Definition opId (o : Op) : string :=
  match o with
  | Create id _ _ _ _ => id
  | Dispose d => disposes d
  end.

(** The buttons as a map from identifiers to callbacks: a call registers
    its callback unless the identifier is taken, a disposal frees the
    identifier. *)
Definition register (m : gmap string nat) (c : Command) : gmap string nat :=
  match c with
  | ButtonOp (Create id cb _ _ _) =>
      match m !! id with
      | Some _ => m
      | None => <[id := cb]> m
      end
  | ButtonOp (Dispose d) => delete (disposes d) m
  | CommandDone _ => m
  end.

Definition registered (cs : list Command) : gmap string nat :=
  foldl register ∅ cs.

(** What every sequence of calls, disposals and commands keeps. *)
Record InSync (s : State) : Prop := {
  sync_nodup : NoDup (ids s);
  sync_callbacks : Forall (λ b, is_Some (callback b)) (externalButtons s);
  sync_posted :
    withoutCallback <$> lastPosted s = withoutCallback <$> externalButtons s
}.

(** The list of buttons holds what the map holds. *)
Definition Registers (m : gmap string nat) (s : State) : Prop :=
  ∀ id cb,
    m !! id = Some cb ↔
    ∃ b, b ∈ externalButtons s ∧ buttonId b = id ∧ callback b = Some cb.

End CellButtonCommands.

(** ** Executions of [submitCode] taken apart *)

Module SubmitCodeRuns.
Import SubmitCode.

(** What [finally] does to the end of an execution. *)
Definition afterFinally {A B} (body : Outcome A) (fin : Outcome B)
    : Outcome B :=
  match fin, body with
  | ThrowsError e, _ => ThrowsError e
  | Returns _, ThrowsError e => ThrowsError e
  | Returns b, Returns _ => Returns b
  end.

(** What a [try] block leaves to its [finally] block. *)
Definition leftBy {A} (body : Outcome A) : option A :=
  match body with
  | Returns a => Some a
  | ThrowsError _ => None
  end.

Section Runs.

Context `{Host}.

(** The calls before the [CellMatcher] check. *)
Definition isPrelude (c : Call) : bool :=
  match c with
  | effect sendKernelTelemetryEvent | effect (traceInfo _)
  | effect newStopWatch | readNotebook | readPerceivedCaptured => true
  | _ => false
  end.

(** The calls that make up a missing identifier. *)
Definition isIdentifier (c : Call) : bool :=
  match c with
  | uuid | effect (shareMessage _ _ _ _ _) => true
  | _ => false
  end.

(** A computation that never throws. *)
Definition Total {R} (t : Prog R) : Prop :=
  ∀ calls o, Runs t calls o → ∃ r, o = Returns r.

(** The wait for [finishedAddingCode] ended with the observable still
    on. *)
Definition StillOn (calls : list Reply) : Prop :=
  ∃ batches, reply subscribe (batches, NotEnded) ∈ calls.

(** The calls of the callbacks while [stopDebugging] is awaited: none,
    unless the subscription is still on. *)
Definition Meanwhile (oldData : option CellData) (listening : Prop)
    (late : list Reply) : Prop :=
  late = [] ∨
  (listening ∧
   ∃ notifications result result' callbacks,
     late = reply laterNotifications notifications :: callbacks ∧
     Runs (onNotifications oldData result notifications) callbacks
          (Returns result')).

(** The calls of the [finally] block after [status.dispose()]. *)
Definition debuggerStopped (oldData : option CellData)
    (debugInfo : option DebugInfo) (listening : Prop)
    (calls : list Reply) (o : Outcome unit) : Prop :=
  match debugInfo with
  | None => calls = [] ∧ o = Returns tt
  | Some _ =>
      (calls = [reply readNotebook false] ∧ o = Returns tt) ∨
      (∃ late, calls = reply readNotebook true ::
                       late ++ [reply (await stopDebugging) None] ∧
               Meanwhile oldData listening late ∧ o = Returns tt) ∨
      (∃ late e, calls = reply readNotebook true ::
                         late ++ [reply (await stopDebugging) (Some e)] ∧
                 Meanwhile oldData listening late ∧ o = ThrowsError e)
  end.

(** What a reply tells of the subscription, if it is one of its
    notifications. *)
Definition notified (r : Reply) : option (list (list ICell) * Ending) :=
  match r with
  | reply c x =>
      match c return Answer c → option (list (list ICell) * Ending) with
      | subscribe | laterNotifications => λ x, Some x
      | _ => λ _, None
      end x
  end.

(** The callback ran for a batch of [batches] with a cell in state [error]:
    it sent the batch to the webview, and the settings it read right then
    said to stop on errors. *)
Definition StoppedOnError (oldData : option CellData)
    (batches : list (list ICell)) (calls : list Reply) : Prop :=
  ∃ cells cell settings before sent after,
    calls = before ++ sent ++ reply getSettings settings :: after ∧
    cells ∈ batches ∧ cell ∈ cells ∧ state cell = error ∧
    Runs (sendCellsToWebView (combineData oldData <$> cells)) sent
         (Returns tt) ∧
    stopOnError settings = true.

(** The code was handed to the notebook, the subscription brought a batch
    with a cell in state [error], and the settings read in the callback for
    that batch said to stop on errors. *)
Definition ErrorCellSeen (code file : string) (line : Z)
    (oldData : option CellData) (calls : list Reply) : Prop :=
  ∃ id c0 c1 r c2 batches ending,
    calls = c0 ++ reply (effect (executeObservable code file line id)) tt ::
            c1 ++ r :: c2 ∧
    notified r = Some (batches, ending) ∧
    StoppedOnError oldData batches c2.

(** The settings a reply hands out say to stop on errors. *)
Definition stops (r : Reply) : bool :=
  match r with
  | reply c x =>
      match c return Answer c → bool with
      | getSettings => λ x, stopOnError x
      | _ => λ _, false
      end x
  end.

(** Some notification of the subscription is followed, somewhere, by
    settings that say to stop on errors. *)
Fixpoint stoppedAfterNotified (calls : list Reply) : bool :=
  match calls with
  | [] => false
  | r :: rest =>
      (bool_decide (is_Some (notified r)) && existsb stops rest) ||
      stoppedAfterNotified rest
  end.

(** A computation that throws the error of a promise it awaited, when
    that promise was rejected. *)
Definition Rethrows {R} (t : Prog R) : Prop :=
  ∀ calls o a e,
    Runs t calls o → reply (await a) (Some e) ∈ calls → o = ThrowsError e.

(** The error with which a reply rejects an awaited promise. *)
Definition rejection (r : Reply) : option Error :=
  match r with
  | reply c x =>
      match c return Answer c → option Error with
      | await _ => λ x, x
      | _ => λ _, None
      end x
  end.

End Runs.

(** A host whose settings are the [stopOnError] flag and nothing else. *)
Definition flagHost : Host :=
  {| Settings := bool;
     stopOnError := λ flag, flag;
     stripFirstMarker := λ _ code, code;
     EmptyFileName := "2DB9B899-6519-4E1B-88B0-FA728A274115" |}.

Section FlagHost.

#[local] Existing Instance flagHost.

(** The calls of an execution in which the cell fails while [stopOnError]
    is off; it was on when the [CellMatcher] was made. *)
Definition toleratedRun : list Reply :=
  [reply (effect sendKernelTelemetryEvent) tt;
   reply (effect (traceInfo "Submitting code")) tt;
   reply readNotebook false;
   reply getSettings true;
   reply (effect setStatus) tt;
   reply (await ensureConnectionAndNotebook) None;
   reply (await ensureDarkSet) None;
   reply (await show) None;
   reply (await addSysInfo) None;
   reply readNotebook true;
   reply readNotebook true;
   reply (await (notebookSetLaunchingFile "demo.py")) None;
   reply (await (setFileInKernel "demo.py")) None;
   reply (effect (executeObservable "1/0" "demo.py" 0 "c1")) tt;
   reply (effect (executeEventFire "1/0")) tt;
   reply subscribe ([[exampleCell error]], Complete);
   reply (effect (postMessage (FinishCell (exampleCell error)))) tt;
   reply (effect (dropUnfinishedCell "1")) tt;
   reply getSettings false;
   reply (effect statusDispose) tt;
   reply (effect (traceInfo "Finished execution")) tt;
   reply (effect statusDispose) tt].

End FlagHost.

#[local] Existing Instance exampleHost.

(** The calls of an execution in which the second cell fails. *)
Definition failingRun : list Reply :=
  [reply (effect sendKernelTelemetryEvent) tt;
   reply (effect (traceInfo "Submitting code")) tt;
   reply readNotebook false;
   reply getSettings tt;
   reply (effect setStatus) tt;
   reply (await ensureConnectionAndNotebook) None;
   reply (await ensureDarkSet) None;
   reply (await show) None;
   reply (await addSysInfo) None;
   reply readNotebook true;
   reply readNotebook true;
   reply (await (notebookSetLaunchingFile "demo.py")) None;
   reply (await (setFileInKernel "demo.py")) None;
   reply (effect (executeObservable "1/0" "demo.py" 0 "c1")) tt;
   reply (effect (executeEventFire "1/0")) tt;
   reply subscribe ([[exampleCell init]; [exampleCell error]],
                    Complete);
   reply (effect (postMessage (StartCell (exampleCell init)))) tt;
   reply (effect (pushUnfinishedCell (exampleCell init))) tt;
   reply getSettings tt;
   reply (effect (postMessage (FinishCell (exampleCell error)))) tt;
   reply (effect (dropUnfinishedCell "1")) tt;
   reply getSettings tt;
   reply (effect statusDispose) tt;
   reply (effect (traceInfo "Finished execution")) tt;
   reply (effect statusDispose) tt].

Definition debugging : DebugInfo :=
  {| runByLine := false; hashFileName := None |}.

(** The calls of an execution under the debugger in which the kernel is
    restarted while the cell runs: [finishOutstandingCells] disposes the
    status, the wait is over with the observable still on, and the cell
    fails while [stopDebugging] is awaited. *)
Definition disposedRun : list Reply :=
  [reply (effect sendKernelTelemetryEvent) tt;
   reply (effect (traceInfo "Submitting code")) tt;
   reply readNotebook false;
   reply getSettings tt;
   reply (effect setStatus) tt;
   reply (await ensureConnectionAndNotebook) None;
   reply (await ensureDarkSet) None;
   reply (await show) None;
   reply (await addSysInfo) None;
   reply readNotebook true;
   reply readNotebook true;
   reply (await (notebookSetLaunchingFile "demo.py")) None;
   reply uuid "id-2";
   reply (await (notebookExecute "demo.py")) None;
   reply (await startDebugging) None;
   reply (await (setFileInKernel "demo.py")) None;
   reply (effect (executeObservable "1/0" "demo.py" 0 "c1")) tt;
   reply (effect (executeEventFire "1/0")) tt;
   reply subscribe ([[exampleCell init]], NotEnded);
   reply (effect (postMessage (StartCell (exampleCell init)))) tt;
   reply (effect (pushUnfinishedCell (exampleCell init))) tt;
   reply getSettings tt;
   reply (effect (traceInfo "Finished execution")) tt;
   reply (effect statusDispose) tt;
   reply readNotebook true;
   reply laterNotifications ([[exampleCell error]], Complete);
   reply (effect (postMessage (FinishCell (exampleCell error)))) tt;
   reply (effect (dropUnfinishedCell "1")) tt;
   reply getSettings tt;
   reply (effect statusDispose) tt;
   reply (await stopDebugging) None].

End SubmitCodeRuns.

(** ** The cells the webview waits for *)

Module WebviewCells.
Import SubmitCode.

(** What [statusProvider.set] hands back. *)
Definition Status := nat.

(** The fields of the window that [sendCellsToWebView], [setStatus] and
    [finishOutstandingCells] touch, with the messages given to
    [postMessage] and the statuses disposed so far. *)
Record State := {
  unfinishedCells : list ICell;
  potentiallyUnfinishedStatus : list Status;
  posted : list WebviewMessage;
  disposed : list Status
}.

Definition fresh : State :=
  {| unfinishedCells := []; potentiallyUnfinishedStatus := [];
     posted := []; disposed := [] |}.

Definition postMessage (m : WebviewMessage) (s : State) : State :=
  {| unfinishedCells := unfinishedCells s;
     potentiallyUnfinishedStatus := potentiallyUnfinishedStatus s;
     posted := posted s ++ [m];
     disposed := disposed s |}.

Definition setUnfinishedCells (cells : list ICell) (s : State) : State :=
  {| unfinishedCells := cells;
     potentiallyUnfinishedStatus := potentiallyUnfinishedStatus s;
     posted := posted s;
     disposed := disposed s |}.

(** One turn of the [forEach] of [sendCellsToWebView]. *)
Definition sendCell (s : State) (cell : ICell) : State :=
  match state cell with
  | SubmitCode.init =>
      let s := postMessage (StartCell cell) s in
      setUnfinishedCells (unfinishedCells s ++ [cell]) s
  | executing => postMessage (UpdateCellWithExecutionResults cell) s
  | error | finished =>
      let s := postMessage (FinishCell cell) s in
      setUnfinishedCells
        (filter (λ c, cellId c ≠ cellId cell) (unfinishedCells s)) s
  | otherState => s
  end.

Definition sendCellsToWebView (cells : list ICell) (s : State) : State :=
  foldl sendCell s cells.

(** [setStatus], given the status the provider made. *)
Definition setStatus (result : Status) (s : State) : State :=
  {| unfinishedCells := unfinishedCells s;
     potentiallyUnfinishedStatus := potentiallyUnfinishedStatus s ++ [result];
     posted := posted s;
     disposed := disposed s |}.

(** [c.state = CellState.error] *)
Definition withState (st : CellState) (c : ICell) : ICell :=
  {| cellId := cellId c; state := st; data := data c |}.

Definition finishOutstandingCells (s : State) : State :=
  let s := foldl (λ s c, postMessage (FinishCell (withState error c)) s)
                 s (unfinishedCells s) in
  {| unfinishedCells := [];
     potentiallyUnfinishedStatus := [];
     posted := posted s;
     disposed := disposed s ++ potentiallyUnfinishedStatus s |}.

(** What the window does at the calls [sendCellsToWebView] makes in
    [submitCode]. *)
Definition handle (s : State) (e : Effect) : State :=
  match e with
  | SubmitCode.postMessage m => postMessage m s
  | pushUnfinishedCell cell =>
      setUnfinishedCells (unfinishedCells s ++ [cell]) s
  | dropUnfinishedCell id =>
      setUnfinishedCells (filter (λ c, cellId c ≠ id) (unfinishedCells s)) s
  | _ => s
  end.

Section Window.

Context `{Host}.

Definition performed (r : Reply) : option Effect :=
  match called r with
  | effect e => Some e
  | _ => None
  end.

(** The window after the calls of an execution. *)
Definition window (s : State) (calls : list Reply) : State :=
  foldl handle s (omap performed calls).

End Window.

(** What happens to a window, in order. *)
Inductive Op :=
| SendCells (cells : list ICell)
| SetStatus (result : Status)
| FinishOutstanding.

Definition apply (s : State) (o : Op) : State :=
  match o with
  | SendCells cells => sendCellsToWebView cells s
  | SetStatus result => setStatus result s
  | FinishOutstanding => finishOutstandingCells s
  end.

Definition run (ops : list Op) : State := foldl apply fresh ops.

(** The message at place [p] starts the cell [id]. *)
Definition startedAt (p : nat) (id : string) (msgs : list WebviewMessage)
    : Prop :=
  ∃ cell, msgs !! p = Some (StartCell cell) ∧ cellId cell = id.

(** A message after place [p] finishes the cell [id]. *)
Definition finishedAfter (p : nat) (id : string) (msgs : list WebviewMessage)
    : Prop :=
  ∃ q cell, p < q ∧ msgs !! q = Some (FinishCell cell) ∧ cellId cell = id.

(** The webview was told of a start of [id] and of no finish since. *)
Definition waiting (id : string) (msgs : list WebviewMessage) : Prop :=
  ∃ p, startedAt p id msgs ∧ ¬ finishedAfter p id msgs.

(** The two halves of the correspondence between the list of unfinished
    cells and the messages. *)
Record Tracked (s : State) : Prop := {
  tracked_waits :
    ∀ id, id ∈ cellId <$> unfinishedCells s → waiting id (posted s);
  tracked_started :
    ∀ p id, startedAt p id (posted s) →
            finishedAfter p id (posted s) ∨ id ∈ cellId <$> unfinishedCells s
}.

(** A computation of [submitCode] that keeps the unfinished cells in step
    with the posted messages. *)
Definition Keeps `{Host} {R} (t : Prog R) : Prop :=
  ∀ calls o s, Runs t calls o → Tracked s → Tracked (window s calls).

(** Each of [results] is still listed for disposal or was disposed. *)
Definition StatusesKept (results : list Status) (s : State) : Prop :=
  ∀ r, r ∈ results → r ∈ potentiallyUnfinishedStatus s ∨ r ∈ disposed s.

Definition statusesSet (ops : list Op) : list Status :=
  omap (λ o, match o with SetStatus r => Some r | _ => None end) ops.

End WebviewCells.

(** ** Setting the dark style once *)

Module DarkSet.
Import SubmitCode.

(** [createDeferred<boolean>()]: nothing ever rejects it. *)
Inductive Deferred := Pending | Resolved.

#[global] Instance Deferred_eq_dec : EqDecision Deferred.
Proof. solve_decision. Defined.

(** Where a call of [ensureDarkSet] stands. *)
Inductive Stage :=
| AwaitingIsDark                (* at [await this.isDark()] *)
| AwaitingStyle (dark : bool)   (* at [await ...setMatplotLibStyle(knownDark)] *)
| AwaitingPromise               (* at [await this.setDarkPromise.promise] *)
| Returned
| Threw (e : Error).

Record State := {
  setDarkPromise : option Deferred;
  calls : list Stage;           (* the calls of [ensureDarkSet], oldest first *)
  styles : list bool            (* the calls of [setMatplotLibStyle] *)
}.

Definition init : State :=
  {| setDarkPromise := None; calls := []; styles := [] |}.

Definition enter (stage : Stage) (s : State) : State :=
  {| setDarkPromise := setDarkPromise s;
     calls := calls s ++ [stage];
     styles := styles s |}.

Definition move (i : nat) (stage : Stage) (s : State) : State :=
  {| setDarkPromise := setDarkPromise s;
     calls := <[i := stage]> (calls s);
     styles := styles s |}.

(** [this.setDarkPromise.resolve(true)] *)
Definition resolve (s : State) : State :=
  {| setDarkPromise := Some Resolved;
     calls := calls s;
     styles := styles s |}.

(** The function up to its first [await]. *)
Definition ensureDarkSet (s : State) : State :=
  match setDarkPromise s with
  | None =>
      enter AwaitingIsDark
        {| setDarkPromise := Some Pending; calls := calls s;
           styles := styles s |}
  | Some _ => enter AwaitingPromise s
  end.

(** After [await this.isDark()], with [notebook] telling whether
    [this._notebook] is set by then. *)
Definition afterIsDark (i : nat) (r : Error + bool) (notebook : bool)
    (s : State) : State :=
  match r with
  | inl e => move i (Threw e) s
  | inr knownDark =>
      if notebook then
        move i (AwaitingStyle knownDark)
          {| setDarkPromise := setDarkPromise s; calls := calls s;
             styles := styles s ++ [knownDark] |}
      else move i Returned (resolve s)
  end.

(** After [await this._notebook.setMatplotLibStyle(knownDark)]. *)
Definition afterStyle (i : nat) (r : option Error) (s : State) : State :=
  match r with
  | Some e => move i (Threw e) s
  | None => move i Returned (resolve s)
  end.

Inductive Action :=
| Call
| IsDarkSettles (i : nat) (r : Error + bool) (notebook : bool)
| StyleSettles (i : nat) (r : option Error)
| PromiseObserved (i : nat).

(** One step; [None] when the action cannot happen in this state. *)
Definition step (a : Action) (s : State) : option State :=
  match a with
  | Call => Some (ensureDarkSet s)
  | IsDarkSettles i r notebook =>
      match calls s !! i with
      | Some AwaitingIsDark => Some (afterIsDark i r notebook s)
      | _ => None
      end
  | StyleSettles i r =>
      match calls s !! i with
      | Some (AwaitingStyle _) => Some (afterStyle i r s)
      | _ => None
      end
  | PromiseObserved i =>
      match calls s !! i, setDarkPromise s with
      | Some AwaitingPromise, Some Resolved => Some (move i Returned s)
      | _, _ => None
      end
  end.

Fixpoint exec (acts : list Action) (s : State) : option State :=
  match acts with
  | [] => Some s
  | a :: rest =>
      match step a s with
      | Some s' => exec rest s'
      | None => None
      end
  end.

(** What holds of every state the window reaches: the first call alone
    works on the style, the others wait for it. *)
Definition waits (first stage : Stage) : Prop :=
  stage = AwaitingPromise ∨ (stage = Returned ∧ first = Returned).

Definition Once (s : State) : Prop :=
  match calls s with
  | [] => setDarkPromise s = None ∧ styles s = []
  | first :: later =>
      Forall (waits first) later ∧
      match first with
      | AwaitingIsDark => setDarkPromise s = Some Pending ∧ styles s = []
      | AwaitingStyle dark =>
          setDarkPromise s = Some Pending ∧ styles s = [dark]
      | Returned =>
          setDarkPromise s = Some Resolved ∧ length (styles s) ≤ 1
      | Threw _ => setDarkPromise s = Some Pending ∧ length (styles s) ≤ 1
      | AwaitingPromise => False
      end
  end.

Definition after (acts : list Action) : State := default init (exec acts init).

End DarkSet.

(** ** The sys info cell *)

Module SysInfo.
Import SubmitCode.

Inductive SysInfoReason := Start | Restart | Interrupt | New | Connect.

#[global] Instance SysInfoReason_eq_dec : EqDecision SysInfoReason.
Proof. solve_decision. Defined.

(** A [Deferred<boolean>] made by [addSysInfo]. *)
Inductive Settled := Pending | Resolved | Rejected (e : Error).

(** Where a call of [addSysInfo] stands. *)
Inductive Stage :=
| Generating (reason : SysInfoReason) (deferred : nat)
                             (* at [await this.generateSysInfoCell(reason)] *)
| Waiting (deferred : nat)   (* at [await this.addSysInfoPromise.promise] *)
| Returned
| Threw (e : Error).

(** [addSysInfoPromise] names a deferred by its place in [deferreds], the
    deferreds made so far; [window] is what [sendCellsToWebView] works on,
    [shared] the [AddedSysInfo] messages given to [shareMessage], and
    [restartKernelPosted] counts the [RestartKernel] messages posted. *)
Record State := {
  addSysInfoPromise : option nat;
  deferreds : list Settled;
  calls : list Stage;
  window : WebviewCells.State;
  shared : list (SysInfoReason * ICell);
  restartKernelPosted : nat
}.

Definition init : State :=
  {| addSysInfoPromise := None; deferreds := []; calls := [];
     window := WebviewCells.fresh; shared := []; restartKernelPosted := 0 |}.

Definition enter (stage : Stage) (s : State) : State :=
  {| addSysInfoPromise := addSysInfoPromise s; deferreds := deferreds s;
     calls := calls s ++ [stage];
     window := window s; shared := shared s;
     restartKernelPosted := restartKernelPosted s |}.

Definition move (i : nat) (stage : Stage) (s : State) : State :=
  {| addSysInfoPromise := addSysInfoPromise s; deferreds := deferreds s;
     calls := <[i := stage]> (calls s);
     window := window s; shared := shared s;
     restartKernelPosted := restartKernelPosted s |}.

(** [deferred.resolve(true)] and [deferred.reject(e)] *)
Definition settle (d : nat) (r : Settled) (s : State) : State :=
  {| addSysInfoPromise := addSysInfoPromise s;
     deferreds := <[d := r]> (deferreds s);
     calls := calls s;
     window := window s; shared := shared s;
     restartKernelPosted := restartKernelPosted s |}.

(** The first branch up to its [await]: a new deferred takes the place of
    the one there was. *)
Definition generate (reason : SysInfoReason) (s : State) : State :=
  enter (Generating reason (length (deferreds s)))
    {| addSysInfoPromise := Some (length (deferreds s));
       deferreds := deferreds s ++ [Pending];
       calls := calls s;
       window := window s; shared := shared s;
       restartKernelPosted := restartKernelPosted s |}.

(** The function up to its first [await]. *)
Definition addSysInfo (reason : SysInfoReason) (s : State) : State :=
  match addSysInfoPromise s with
  | Some d =>
      if decide (reason ≠ Start) then generate reason s
      else enter (Waiting d) s
  | None => generate reason s
  end.

(** The [try] block after [generateSysInfoCell] gave [sysInfo]; its calls
    are taken to return. *)
Definition announce (reason : SysInfoReason) (sysInfo : option ICell)
    (s : State) : State :=
  {| addSysInfoPromise := addSysInfoPromise s; deferreds := deferreds s;
     calls := calls s;
     window :=
       match sysInfo with
       | Some cell => WebviewCells.sendCellsToWebView [cell] (window s)
       | None => window s
       end;
     shared :=
       match sysInfo with
       | Some cell =>
           if decide (reason ≠ Start) then shared s ++ [(reason, cell)]
           else shared s
       | None => shared s
       end;
     restartKernelPosted :=
       if decide (reason = Restart ∨ reason = New)
       then S (restartKernelPosted s) else restartKernelPosted s |}.

(** After [await this.generateSysInfoCell(reason)]: the [catch] keeps the
    error from the caller and hands it to the deferred. *)
Definition afterGenerate (i : nat) (reason : SysInfoReason) (d : nat)
    (r : Error + option ICell) (s : State) : State :=
  match r with
  | inl e => move i Returned (settle d (Rejected e) s)
  | inr sysInfo =>
      move i Returned (settle d Resolved (announce reason sysInfo s))
  end.

(** After [await this.addSysInfoPromise.promise]. *)
Definition afterWait (i : nat) (r : Settled) (s : State) : option State :=
  match r with
  | Pending => None
  | Resolved => Some (move i Returned s)
  | Rejected e => Some (move i (Threw e) s)
  end.

Inductive Action :=
| Call (reason : SysInfoReason)
| Generated (i : nat) (r : Error + option ICell)
| Observed (i : nat).

(** One step; [None] when the action cannot happen in this state. *)
Definition step (a : Action) (s : State) : option State :=
  match a with
  | Call reason => Some (addSysInfo reason s)
  | Generated i r =>
      match calls s !! i with
      | Some (Generating reason d) => Some (afterGenerate i reason d r s)
      | _ => None
      end
  | Observed i =>
      match calls s !! i with
      | Some (Waiting d) =>
          match deferreds s !! d with
          | Some r => afterWait i r s
          | None => None
          end
      | _ => None
      end
  end.

Fixpoint exec (acts : list Action) (s : State) : option State :=
  match acts with
  | [] => Some s
  | a :: rest =>
      match step a s with
      | Some s' => exec rest s'
      | None => None
      end
  end.

Definition after (acts : list Action) : State := default init (exec acts init).

(** Every call of [addSysInfo] in the list has the reason [Start]. *)
Definition startOnly (a : Action) : bool :=
  match a with
  | Call reason => bool_decide (reason = Start)
  | _ => true
  end.

(** What every reachable state keeps: the field names the newest deferred,
    a deferred is pending exactly as long as the one call that made it is
    generating, and the calls that wait wait for a deferred there is. *)
Record Linked (s : State) : Prop := {
  linked_newest :
    addSysInfoPromise s =
      match deferreds s with
      | [] => None
      | _ => Some (pred (length (deferreds s)))
      end;
  linked_pending i reason d :
    calls s !! i = Some (Generating reason d) →
    deferreds s !! d = Some Pending;
  linked_maker i j reason reason' d :
    calls s !! i = Some (Generating reason d) →
    calls s !! j = Some (Generating reason' d) → i = j;
  linked_waiting i d :
    calls s !! i = Some (Waiting d) → d < length (deferreds s)
}.

(** As long as all reasons are [Start]. *)
Record StartedOnce (s : State) : Prop := {
  once_deferreds : length (deferreds s) ≤ 1;
  once_posted : length (WebviewCells.posted (window s)) ≤ 1;
  once_pending :
    deferreds s !! 0 = Some Pending → WebviewCells.posted (window s) = [];
  once_none : deferreds s = [] → WebviewCells.posted (window s) = [];
  once_reason i reason d :
    calls s !! i = Some (Generating reason d) → reason = Start;
  once_shared : shared s = [];
  once_restart : restartKernelPosted s = 0
}.

(** After the generation for the deferred [d] failed with [e], as long as
    no call brings another reason: [d] stays the deferred of the field, and
    the calls from [n] on wait for it or have thrown [e]. *)
Record Failed (d : nat) (e : Error) (n : nat) (s : State) : Prop := {
  failed_current : addSysInfoPromise s = Some d;
  failed_rejected : deferreds s !! d = Some (Rejected e);
  failed_calls : n ≤ length (calls s);
  failed_later j stage :
    n ≤ j → calls s !! j = Some stage → stage = Waiting d ∨ stage = Threw e
}.

End SysInfo.

(** ** Restarting and interrupting the kernel *)

Module KernelControl.

(** What the [catch] of [restartKernelInternal] tells apart. *)
Inductive Failure :=
| JupyterKernelPromiseFailedError
| OtherFailure (message : string).

#[global] Instance Failure_eq_dec : EqDecision Failure.
Proof. solve_decision. Defined.

(** The two questions put to the user, and the answers: the button chosen;
    [NoChoice] stands for [no] and for a closed message. *)
Inductive Question := RestartQuestion | InterruptQuestion.
Inductive Choice := Yes | DontAskAgain | NoChoice.

Inductive InterruptResult := Success | TimedOut | Restarted.

#[global] Instance InterruptResult_eq_dec : EqDecision InterruptResult.
Proof. solve_decision. Defined.

(** Calls that return nothing the functions look at; they are taken to
    return. *)
Inductive Effect :=
| trackKernelResourceInformation
| logTelemetry
| setRestartingKernel (value : bool)     (* [this.restartingKernel = value] *)
| startProgress
| stopProgress
| finishOutstandingCells
| statusSet                              (* [this.statusProvider.set(...)] *)
| statusDispose
| getSettings
| addSysInfoIgnored (reason : SysInfo.SysInfoReason)
                                         (* [addSysInfo(...).ignoreErrors()] *)
| showErrorMessage (e : Failure)
| traceError (e : Failure).

(** Promises that resolve to nothing, or are rejected. *)
Inductive Awaited :=
| disableAskForRestart
| generateDataScienceExtraSettings
| notebookRestartKernel
| addSysInfo (reason : SysInfo.SysInfoReason)
| setFileInKernel (file : string)
| setMatplotLibStyle (dark : bool)
| notebookDispose
| ensureConnectionAndNotebook.

Inductive Call :=
| effect (e : Effect)
| await (a : Awaited)
| readNotebook              (* is [this._notebook] set? *)
| readRestartingKernel      (* [this.restartingKernel] *)
| takeFileInKernel          (* reads [this.fileInKernel] and clears it *)
| shouldAskForRestart
| showInformationMessage (q : Question)
| isDark
| notebookInterruptKernel.

Definition Answer (c : Call) : Type :=
  match c with
  | effect _ => unit
  | await _ => option Failure
  | readNotebook | readRestartingKernel => bool
  | takeFileInKernel => option string
  | shouldAskForRestart | isDark => (Failure + bool)%type
  | showInformationMessage _ => (Failure + Choice)%type
  | notebookInterruptKernel => (Failure + InterruptResult)%type
  end.

(** A computation returns, throws, or calls out and goes on with the
    answer. *)
Inductive Prog (R : Type) : Type :=
| Ret (r : R)
| Raise (e : Failure)
| Vis (c : Call) (k : Answer c → Prog R).
Arguments Ret {R} r.
Arguments Raise {R} e.
Arguments Vis {R} c k.

Fixpoint bind {A B} (m : Prog A) (f : A → Prog B) : Prog B :=
  match m with
  | Ret a => f a
  | Raise e => Raise e
  | Vis c k => Vis c (λ x, bind (k x) f)
  end.

#[export] Instance Prog_bind : MBind Prog := λ A B f m, bind m f.

Definition perform (e : Effect) : Prog unit := Vis (effect e) Ret.

Definition ask (c : Call) : Prog (Answer c) := Vis c Ret.

Definition awaiting (a : Awaited) : Prog unit :=
  Vis (await a) (λ r : option Failure,
    match r with None => Ret tt | Some e => Raise e end).

(** [await] of a promise with a value. *)
Definition settled {A} (r : Failure + A) : Prog A :=
  match r with inl e => Raise e | inr a => Ret a end.

(** [try { body } finally { fin }] *)
Fixpoint tryFinally {A} (body : Prog A) (fin : Prog unit) : Prog A :=
  match body with
  | Ret a => bind fin (λ _, Ret a)
  | Raise e => bind fin (λ _, Raise e)
  | Vis c k => Vis c (λ x, tryFinally (k x) fin)
  end.

(** [try { body } catch (exc) { handler }] *)
Fixpoint tryCatch {A} (body : Prog A) (handler : Failure → Prog A) : Prog A :=
  match body with
  | Ret a => Ret a
  | Raise e => handler e
  | Vis c k => Vis c (λ x, tryCatch (k x) handler)
  end.

(** [exc instanceof JupyterKernelPromiseFailedError] *)
Definition isPromiseFailed (exc : Failure) : bool :=
  bool_decide (exc = JupyterKernelPromiseFailedError).

(** The [try] block of [restartKernelInternal]. *)
Definition restartBody : Prog unit :=
  nb ← ask readNotebook;
  if nb : bool then
    awaiting generateDataScienceExtraSettings;;
    awaiting notebookRestartKernel;;
    awaiting (addSysInfo SysInfo.Restart);;
    fileInKernel ← ask takeFileInKernel;
    match fileInKernel : option string with
    | Some file => awaiting (setFileInKernel file)
    | None => Ret tt
    end;;
    knownDark ← ask isDark ≫= settled;
    awaiting (setMatplotLibStyle knownDark)
  else Ret tt.

(** Its [catch] block. *)
Definition restartCatch (exc : Failure) : Prog unit :=
  nb ← (if isPromiseFailed exc then ask readNotebook else Ret false);
  if isPromiseFailed exc && nb then
    awaiting notebookDispose;;
    awaiting ensureConnectionAndNotebook;;
    awaiting (addSysInfo SysInfo.Restart)
  else
    perform (showErrorMessage exc);;
    perform (traceError exc).

Definition restartKernelInternal : Prog unit :=
  perform (setRestartingKernel true);;
  perform finishOutstandingCells;;
  perform statusSet;;
  tryFinally (tryCatch restartBody restartCatch)
             (perform statusDispose;; perform (setRestartingKernel false)).

(** [this._notebook && !this.restartingKernel] *)
Definition canStart : Prog bool :=
  nb ← ask readNotebook;
  if nb : bool then
    restarting ← ask readRestartingKernel;
    Ret (negb restarting)
  else Ret false.

(** The [try] block of [restartKernel]. *)
Definition askAndRestart : Prog unit :=
  asks ← ask shouldAskForRestart ≫= settled;
  if asks : bool then
    v ← ask (showInformationMessage RestartQuestion) ≫= settled;
    match v with
    | DontAskAgain => awaiting disableAskForRestart;; restartKernelInternal
    | Yes => restartKernelInternal
    | NoChoice => Ret tt
    end
  else restartKernelInternal.

Definition restartKernel (internal : bool) : Prog unit :=
  (if internal then Ret tt
   else perform trackKernelResourceInformation;; perform logTelemetry);;
  start ← canStart;
  if start : bool then
    perform (setRestartingKernel true);;
    perform startProgress;;
    tryFinally askAndRestart
               (perform (setRestartingKernel false);; perform stopProgress)
  else Ret tt.

(** The [try] block of [interruptKernel]. *)
Definition interruptBody : Prog unit :=
  perform getSettings;;
  result ← ask notebookInterruptKernel ≫= settled;
  perform statusDispose;;
  restarting ← (if decide (result = TimedOut) then ask readRestartingKernel
                else Ret false);
  if bool_decide (result = TimedOut) && negb restarting then
    v ← ask (showInformationMessage InterruptQuestion) ≫= settled;
    match v with
    | Yes => restartKernelInternal
    | _ => Ret tt
    end
  else if decide (result = Restarted) then
    perform (addSysInfoIgnored SysInfo.Interrupt)
  else Ret tt.

Definition interruptCatch (err : Failure) : Prog unit :=
  perform statusDispose;;
  perform (traceError err);;
  perform (showErrorMessage err).

Definition interruptKernel : Prog unit :=
  perform trackKernelResourceInformation;;
  start ← canStart;
  if start : bool then
    perform statusSet;;
    tryCatch interruptBody interruptCatch
  else Ret tt.

(** How an execution ends. *)
Inductive Outcome (R : Type) :=
| Returns (r : R)
| ThrowsError (e : Failure).
Arguments Returns {R} r.
Arguments ThrowsError {R} e.

(** A call together with its answer. *)
Inductive Reply := reply (c : Call) (x : Answer c).

Definition called (r : Reply) : Call := let 'reply c _ := r in c.

(** [Runs t calls o]: one execution of [t], with the calls it makes, in
    order, and its end. *)
Fixpoint Runs {R} (t : Prog R) (calls : list Reply) (o : Outcome R) : Prop :=
  match t with
  | Ret r => calls = [] ∧ o = Returns r
  | Raise e => calls = [] ∧ o = ThrowsError e
  | Vis c k =>
      ∃ (x : Answer c) rest, calls = reply c x :: rest ∧ Runs (k x) rest o
  end.

(** What [finally] does to the end of an execution. *)
Definition afterFinally {A} (body : Outcome A) (fin : Outcome unit)
    : Outcome A :=
  match fin with
  | Returns _ => body
  | ThrowsError e => ThrowsError e
  end.

(** The value a call writes to [this.restartingKernel]. *)
Definition written (r : Reply) : option bool :=
  match called r with
  | effect (setRestartingKernel value) => Some value
  | _ => None
  end.

(** The value the calls leave in [this.restartingKernel], if they write
    it. *)
Definition flagAfter (calls : list Reply) : option bool :=
  last (omap written calls).

(** What holds of the calls of every execution. *)
Definition Always (Q : list Reply → Prop) {R} (t : Prog R) : Prop :=
  ∀ calls o, Runs t calls o → Q calls.

(** The executions do not end with the flag set by them. *)
Definition resets (calls : list Reply) : Prop := flagAfter calls ≠ Some true.

(** The executions make none of the calls [P]. *)
Definition avoids (P : Call → bool) (calls : list Reply) : Prop :=
  Forall (λ r, P (called r) = false) calls.

(** The error with which a reply rejects a promise. *)
Definition rejection (r : Reply) : option Failure :=
  match r with
  | reply c x =>
      match c return Answer c → option Failure with
      | await _ => λ x, x
      | shouldAskForRestart | isDark => λ x : Failure + bool,
          match x with inl e => Some e | inr _ => None end
      | showInformationMessage _ => λ x : Failure + Choice,
          match x with inl e => Some e | inr _ => None end
      | notebookInterruptKernel => λ x : Failure + InterruptResult,
          match x with inl e => Some e | inr _ => None end
      | _ => λ _, None
      end x
  end.


(** What the user answered. *)
Definition answered (r : Reply) : option Choice :=
  match r with
  | reply c x =>
      match c return Answer c → option Choice with
      | showInformationMessage _ => λ x : Failure + Choice,
          match x with inl _ => None | inr v => Some v end
      | _ => λ _, None
      end x
  end.

(** A computation without a [catch]: the first rejection ends it, with the
    error of that rejection. *)
Definition Strict {R} (t : Prog R) : Prop :=
  ∀ calls o,
    Runs t calls o →
    match o with
    | Returns _ => Forall (λ r, rejection r = None) calls
    | ThrowsError e =>
        ∃ l r, calls = l ++ [r] ∧ Forall (λ r, rejection r = None) l ∧
               rejection r = Some e
    end.

(** What restarts the kernel or cuts cells short. *)
Definition restarts (c : Call) : bool :=
  match c with
  | effect finishOutstandingCells | await notebookRestartKernel => true
  | _ => false
  end.

Definition asksUser (c : Call) : bool :=
  match c with
  | showInformationMessage _ => true
  | _ => false
  end.

(** The calls of the [catch] of [restartKernelInternal] that make up for a
    kernel that did not come back. *)
Definition recovers (c : Call) : bool :=
  match c with
  | await notebookDispose | await ensureConnectionAndNotebook => true
  | await (addSysInfo SysInfo.Restart) => true
  | _ => false
  end.

#[global] Instance Question_eq_dec : EqDecision Question.
Proof. solve_decision. Defined.
#[global] Instance KernelEffect_eq_dec : EqDecision Effect.
Proof. solve_decision. Defined.
#[global] Instance KernelAwaited_eq_dec : EqDecision Awaited.
Proof. solve_decision. Defined.





(** For the examples. *)
Definition timedOut : Failure := OtherFailure "Timed out".

End KernelControl.

(** ** Copying code into an editor *)

Module CopyCode.

(** The lines of [r.range] of a cell range. *)
Record CellRange := { startLine : Z; endLine : Z }.

(** [settings.defaultCellMarker || Identifiers.DefaultCodeCellMarker] *)
Definition defaultCellMarker (setting : option string)
    (DefaultCodeCellMarker : string) : string :=
  match setting with
  | Some marker => if decide (marker = "") then DefaultCodeCellMarker
                   else marker
  | None => DefaultCodeCellMarker
  end.

(** The text [copyCodeInternal] inserts, given the [defaultCellMarker] of
    the settings, the cell ranges of the document, the line of the
    selection, and [lineCount] and [isUntitled] of the document. *)
Definition newCode (source : string) (setting : option string)
    (DefaultCodeCellMarker EOL : string) (ranges : list CellRange)
    (line lineCount : Z) (isUntitled : bool) : string :=
  let marker := defaultCellMarker setting DefaultCodeCellMarker in
  if decide (0 < length ranges) then
    match List.find (λ r, bool_decide (startLine r ≤ line)%Z &&
                          bool_decide (line ≤ endLine r)%Z) ranges with
    | Some matchingRange =>
        if bool_decide (startLine matchingRange < line)%Z &&
           bool_decide (line < lineCount - 1)%Z
        then marker +:+ EOL +:+ source +:+ EOL +:+ marker +:+ EOL
        else marker +:+ EOL +:+ source +:+ EOL
    | None => marker +:+ EOL +:+ source +:+ EOL
    end
  else if bool_decide (lineCount ≤ 0)%Z || isUntitled then
    marker +:+ EOL +:+ source +:+ EOL
  else source +:+ EOL.

(** [String.prototype.split] with a separator of one character: the pieces
    between the separators, [current] being the piece under way. *)
Fixpoint splitFrom (separator : Ascii.ascii) (current s : string) : list string :=
  match s with
  | EmptyString => [current]
  | String c rest =>
      if decide (c = separator) then current :: splitFrom separator "" rest
      else splitFrom separator (current +:+ String c "") rest
  end.

Definition split (separator : Ascii.ascii) (s : string) : list string :=
  splitFrom separator "" s.

(** The line feed, ['\n']. *)
Definition LF : Ascii.ascii := Ascii.ascii_of_nat 10.

(** [line + newCode.split('\n').length - 1] *)
Definition selectionLine (line : Z) (newCode : string) : Z :=
  line + Z.of_nat (length (split LF newCode)) - 1.

(** The position at the end of [text] once it is inserted at
    [(line, character)]. *)
Fixpoint endOf (text : string) (line character : Z) : Z * Z :=
  match text with
  | EmptyString => (line, character)
  | String c rest =>
      if decide (c = LF) then endOf rest (line + 1) 0
      else endOf rest line (character + 1)
  end.

(** [os.EOL] *)
Definition isEOL (EOL : string) : Prop :=
  EOL = String LF "" ∨ EOL = String (Ascii.ascii_of_nat 13) (String LF "").

End CopyCode.

(** * Properties of the update chain *)

Section UpdateChain.
Import NotebookUpdater.

Implicit Types (s t : State) (op : Operation) (a : Action) (i j : nat).

Lemma sameCall_refl op : sameCall op op.
Proof. by repeat split. Qed.

Lemma sameCall_trans op1 op2 op3 :
  sameCall op1 op2 → sameCall op2 op3 → sameCall op1 op3.
Proof. unfold sameCall. intros (?&?&?) (?&?&?). repeat split; congruence. Qed.

Lemma exec_app (acts1 acts2 : list Action) s :
  exec (acts1 ++ acts2) s = exec acts1 s ≫= exec acts2.
Proof.
  revert s. induction acts1 as [|a acts1 IH]; intros s; simpl; [done|].
  destruct (step a s); simpl; [apply IH | done].
Qed.

Lemma afterUpdate_shape a i op evs s :
  operations s !! i = Some op →
  phase op = Queued ∨ phase op = AwaitingUpdate →
  evs = started (phase op) i →
  (phase op = Queued → settled (pendingUpdates op) s = true) →
  StepShape a s (afterUpdate i op evs s).
Proof.
  intros Hop Hp -> Hs. unfold afterUpdate.
  destruct (outcome (update op)) as [edit|e] eqn:Ho.
  - destruct (decide (size edit = 0)) as [Hz|Hz].
    + eapply shape_move; [eassumption|reflexivity..|done|].
      apply moves_finish; [done|].
      intros edit' ?. by replace edit' with edit by congruence.
    + eapply shape_move; [eassumption|reflexivity..|done|].
      by apply moves_apply.
  - eapply shape_move; [eassumption|reflexivity..|done|].
    apply moves_finish; [done|]. intros edit' ?. congruence.
Qed.

Lemma lookup_foldl_delete (d : nat) (cells : list nat)
    (m : gmap DocumentOrCell nat) k j :
  foldl (λ m c, delete (NotebookCell d c) m) m cells !! k = Some j →
  m !! k = Some j.
Proof.
  revert m. induction cells as [|c cells IH]; intros m; simpl; [done|].
  intros H%IH. by apply lookup_delete_Some in H as [_ ?].
Qed.

Lemma step_shape a s s' : step a s = Some s' → StepShape a s s'.
Proof.
  intros H. destruct a as [k u|i|i|i r|d|editor]; simpl in H.
  - unfold chainWithPendingUpdates in H.
    destruct (isClosed _ _); [simplify_eq; by apply shape_same|].
    destruct (has _ _) eqn:Hhas.
    + destruct (get k s) eqn:Hget; simplify_eq; simpl.
      * eapply shape_new; try reflexivity. by rewrite Hhas.
      * by apply shape_same.
    + simplify_eq. eapply shape_new; try reflexivity. by rewrite Hhas.
  - destruct (operations s !! i) as [op|] eqn:Hop; [|done].
    destruct (isQueued (phase op)) eqn:Hq; [|done].
    destruct (settled _ _) eqn:Hs; [|done]. simpl in H.
    assert (phase op = Queued) as Hp by (by destruct (phase op)).
    destruct (returnsPromise _); simplify_eq.
    + eapply shape_move; [eassumption|reflexivity..|done|by constructor].
    + apply afterUpdate_shape; auto. by rewrite Hp.
  - destruct (operations s !! i) as [op|] eqn:Hop; [|done].
    destruct (phase op) eqn:Hp; try done. simplify_eq.
    apply afterUpdate_shape; auto; by rewrite Hp.
  - destruct (operations s !! i) as [op|] eqn:Hop; [|done].
    destruct (phase op) eqn:Hp; try done. simplify_eq.
    eapply shape_move; [eassumption|reflexivity..| |by eapply moves_settle].
    by rewrite Hp.
  - simplify_eq. by apply shape_same.
  - simplify_eq. destruct editor as [[d cells]|]; simpl.
    + apply shape_same; try done. simpl. intros k j H%lookup_foldl_delete.
      by apply lookup_delete_Some in H as [_ ?].
    + by apply shape_same.
Qed.

Lemma Moves_sameCall i op op' evs : Moves i op op' evs → sameCall op op'.
Proof. by intros []. Qed.

Lemma Moves_not_finished i op op' evs :
  Moves i op op' evs → isFinished (phase op) = false.
Proof. intros [?|? []|? ? []|]; intros; by repeat match goal with H : phase _ = _ |- _ => rewrite H end. Qed.

(** Operations are never removed, and what was fixed at the call stays. *)
Lemma step_keeps a s s' i op :
  step a s = Some s' → operations s !! i = Some op →
  ∃ op', operations s' !! i = Some op' ∧ sameCall op op'.
Proof.
  intros [Hsame|k prev u Hnew|i0 op0 op0' evs Hop0 Hmove _ _ _ HM]%step_shape Hop.
  - exists op. rewrite Hsame. split; [done|apply sameCall_refl].
  - exists op. rewrite Hnew, lookup_app_l; [|by eapply lookup_lt_Some].
    split; [done|apply sameCall_refl].
  - rewrite Hmove. destruct (decide (i0 = i)) as [->|Hne].
    + exists op0'. rewrite list_lookup_insert_eq; [|by eapply lookup_lt_Some].
      split; [done|]. simplify_eq. by eapply Moves_sameCall.
    + exists op. rewrite list_lookup_insert_ne; [|done].
      split; [done|apply sameCall_refl].
Qed.

(** A finished operation is never touched again. *)
Lemma step_finished a s s' i op :
  step a s = Some s' → operations s !! i = Some op →
  phase op = Finished → operations s' !! i = Some op.
Proof.
  intros [Hsame|k prev u Hnew|i0 op0 op0' evs Hop0 Hmove _ _ _ HM]%step_shape
    Hop Hfin.
  - by rewrite Hsame.
  - rewrite Hnew, lookup_app_l; [done|by eapply lookup_lt_Some].
  - rewrite Hmove. destruct (decide (i0 = i)) as [->|Hne].
    + simplify_eq. apply Moves_not_finished in HM. by rewrite Hfin in HM.
    + by rewrite list_lookup_insert_ne.
Qed.

Lemma step_settled a s s' p :
  step a s = Some s' → settled p s = true → settled p s' = true.
Proof.
  intros Hstep. destruct p as [|j]; [done|]. simpl.
  destruct (operations s !! j) as [op|] eqn:Hop; [|done]. intros Hfin.
  erewrite step_finished; eauto. by destruct (phase op).
Qed.

Lemma init_sound : Sound init.
Proof.
  split; simpl; intros *; try done.
  intros H. by apply elem_of_nil in H.
Qed.

Lemma step_sound a s s' : Sound s → step a s = Some s' → Sound s'.
Proof.
  intros HS Hstep. pose proof (step_shape _ _ _ Hstep) as Hshape.
  destruct Hshape as [Hsame Htr Hsub _|k prev u Hnew Htr Hmap Hprev
                     |i0 op0 op0' evs Hop0 Hmove Htr Hmap Hset HM].
  - split; rewrite ?Hsame, ?Htr.
    + intros k j H%Hsub. by eapply sound_map.
    + by apply sound_prev.
    + intros i op Hop Hq. eapply step_settled; [done|]. by eapply sound_started.
    + by apply sound_applying.
    + by apply sound_trace.
    + by apply sound_deferred.
    + intros k p H%Hsub. by eapply sound_map_key.
    + intros k p j op H%Hsub. by eapply sound_map_last.
    + by apply sound_prev_key.
    + by apply sound_unique.
  - assert (∀ p, prev = aggregatedPromise p →
              pendingCellUpdates s !! k = Some p) as Hprev'.
    { intros p ->. destruct (has _ _); [|done]. unfold get in Hprev.
      destruct (pendingCellUpdates s !! k); simpl in Hprev; by simplify_eq. }
    split; rewrite ?Hnew, ?Htr, ?Hmap.
    + intros k' j. rewrite length_app. simpl.
      intros [[_ <-]|[_ H]]%lookup_insert_Some; [lia|].
      apply (sound_map _ HS) in H. lia.
    + intros i op j [Hop|[Hi Hop]]%lookup_app_Some.
      { by eapply sound_prev. }
      apply list_lookup_singleton_Some in Hop as [Hi' <-]. simpl. intros ->.
      destruct (has _ _); [|done]. unfold get in Hprev.
      destruct (pendingCellUpdates s !! k) as [j'|] eqn:Hk; simplify_eq.
      simpl in Hprev. simplify_eq. apply (sound_map _ HS) in Hk. lia.
    + intros i op [Hop|[Hi Hop]]%lookup_app_Some Hq.
      { eapply step_settled; [done|]. by eapply sound_started. }
      apply list_lookup_singleton_Some in Hop as [Hi' <-]. done.
    + intros i op edit [Hop|[Hi Hop]]%lookup_app_Some.
      { by eapply sound_applying. }
      apply list_lookup_singleton_Some in Hop as [Hi' <-]. done.
    + intros i (op & edit & Hop & ?)%(sound_trace _ HS).
      exists op, edit. split; [|done]. apply lookup_app_l_Some. done.
    + intros i op [Hop|[Hi Hop]]%lookup_app_Some.
      { by eapply sound_deferred. }
      apply list_lookup_singleton_Some in Hop as [Hi' <-]. done.
    + intros k' p [[<- <-]|[Hne H]]%lookup_insert_Some.
      * eexists. split; [by apply list_lookup_middle|done].
      * destruct (sound_map_key _ HS _ _ H) as (op & Hop & ?).
        exists op. split; [by apply lookup_app_l_Some|done].
    + intros k' p j op [[<- <-]|[Hne H]]%lookup_insert_Some
        [Hop|[Hi Hop]]%lookup_app_Some Hp.
      * apply (sound_prev _ HS _ _ _ Hop) in Hp.
        apply lookup_lt_Some in Hop. lia.
      * apply list_lookup_singleton_Some in Hop as [Hi' <-]. simpl in Hp.
        apply Hprev', (sound_map _ HS) in Hp. lia.
      * by eapply (sound_map_last _ HS).
      * apply list_lookup_singleton_Some in Hop as [Hi' <-]. simpl in Hp.
        apply Hprev' in Hp.
        destruct (sound_map_key _ HS _ _ H) as (op1 & Hop1 & Hk1).
        destruct (sound_map_key _ HS _ _ Hp) as (op2 & Hop2 & Hk2).
        congruence.
    + intros j op p [Hop|[Hi Hop]]%lookup_app_Some Hp.
      * destruct (sound_prev_key _ HS _ _ _ Hop Hp) as (opp & ? & ?).
        exists opp. split; [by apply lookup_app_l_Some|done].
      * apply list_lookup_singleton_Some in Hop as [Hi' <-]. simpl in *.
        apply Hprev' in Hp.
        destruct (sound_map_key _ HS _ _ Hp) as (opp & ? & ?).
        exists opp. split; [by apply lookup_app_l_Some|done].
    + intros j k' opj opk p [Hopj|[Hj Hopj]]%lookup_app_Some
        [Hopk|[Hk Hopk]]%lookup_app_Some Hpj Hpk.
      * by eapply (sound_unique _ HS).
      * apply list_lookup_singleton_Some in Hopk as [Hk' <-]. simpl in *.
        apply Hprev' in Hpk. by destruct (sound_map_last _ HS _ _ _ _ Hpk Hopj).
      * apply list_lookup_singleton_Some in Hopj as [Hj' <-]. simpl in *.
        apply Hprev' in Hpj. by destruct (sound_map_last _ HS _ _ _ _ Hpj Hopk).
      * apply list_lookup_singleton_Some in Hopj as [Hj' _].
        apply list_lookup_singleton_Some in Hopk as [Hk' _]. lia.
  - pose proof (Moves_sameCall _ _ _ _ HM) as (Hk & Hp & Hu).
    assert (i0 < length (operations s)) as Hlt by (by eapply lookup_lt_Some).
    assert (∀ i op, operations s' !! i = Some op →
              (i = i0 ∧ op = op0') ∨ (i ≠ i0 ∧ operations s !! i = Some op))
      as Hcases.
    { intros i op. rewrite Hmove. destruct (decide (i0 = i)) as [->|Hne].
      - rewrite list_lookup_insert_eq by done. intros; simplify_eq. by left.
      - rewrite list_lookup_insert_ne by done. intros; right. by split. }
    split.
    + rewrite Hmap, Hmove, length_insert. by apply sound_map.
    + intros i op j [[-> ->]|[? Hop]]%Hcases.
      * rewrite Hp. by eapply sound_prev.
      * by eapply sound_prev.
    + intros i op [[-> ->]|[? Hop]]%Hcases Hq.
      * rewrite Hp. eapply step_settled; [done|].
        destruct (decide (phase op0 = Queued)) as [?|?]; [by apply Hset|].
        by eapply sound_started.
      * eapply step_settled; [done|]. by eapply sound_started.
    + intros i op edit [[-> ->]|[? Hop]]%Hcases.
      * rewrite Hu. destruct HM; simpl; try done. intros; by simplify_eq.
      * by eapply sound_applying.
    + intros i. rewrite Htr, elem_of_app. intros [Hin|Hin].
      * apply (sound_trace _ HS) in Hin as (op & edit & Hop & ?).
        destruct (decide (i = i0)) as [->|Hne].
        -- exists op0', edit. rewrite Hmove, list_lookup_insert_eq by done.
           simplify_eq. by rewrite Hu.
        -- exists op, edit. by rewrite Hmove, list_lookup_insert_ne.
      * assert (i = i0 ∧ ∃ edit, outcome (update op0) = Contributes edit ∧
                                 size edit ≠ 0) as [-> (edit & ? & ?)].
        { destruct HM as [| |? edit|]; simpl in Hin.
          - by apply list_elem_of_singleton in Hin.
          - destruct (phase op); simpl in Hin;
              [by apply list_elem_of_singleton in Hin
              |by apply elem_of_nil in Hin..].
          - apply elem_of_app in Hin as [Hin|Hin].
            + destruct (phase op); simpl in Hin;
                [by apply list_elem_of_singleton in Hin
                |by apply elem_of_nil in Hin..].
            + apply list_elem_of_singleton in Hin. simplify_eq. eauto.
          - by apply list_elem_of_singleton in Hin. }
        exists op0', edit. rewrite Hmove, list_lookup_insert_eq by done.
        by rewrite Hu.
    + intros i op [[-> ->]|[? Hop]]%Hcases Hd.
      * rewrite Htr. destruct HM as [op|op|op edit|op edit r]; simpl in *.
        -- destruct (sound_deferred _ HS _ _ Hop0 Hd) as [Hf _]. congruence.
        -- destruct (sound_deferred _ HS _ _ Hop0 Hd) as [Hf _].
           destruct H as [?|?]; congruence.
        -- destruct (sound_deferred _ HS _ _ Hop0 Hd) as [Hf _].
           destruct H as [?|?]; congruence.
        -- split; [done|]. split.
           ++ exists r. split; [|done].
              apply elem_of_app. right. by apply list_elem_of_singleton.
           ++ exists edit. by eapply sound_applying.
      * destruct (sound_deferred _ HS _ _ Hop Hd) as (Hf & (r & Hin & ?) & ?).
        split; [done|]. split; [|done]. exists r. split; [|done].
        rewrite Htr. apply elem_of_app. by left.
    + rewrite Hmap. intros k p H.
      destruct (sound_map_key _ HS _ _ H) as (op & Hop & ?).
      destruct (step_keeps _ _ _ _ _ Hstep Hop) as (op' & ? & ? & _).
      exists op'. split; [done|congruence].
    + rewrite Hmap. intros k p j op H [[-> ->]|[? Hop]]%Hcases.
      * rewrite Hp. by eapply (sound_map_last _ HS).
      * by eapply (sound_map_last _ HS).
    + assert (∀ j op p, operations s !! j = Some op →
                pendingUpdates op = aggregatedPromise p →
                ∃ opp, operations s' !! p = Some opp ∧ key opp = key op)
        as Hold.
      { intros j op p Hop Hpp.
        destruct (sound_prev_key _ HS _ _ _ Hop Hpp) as (opp & Hopp & ?).
        destruct (step_keeps _ _ _ _ _ Hstep Hopp) as (opp' & ? & ? & _).
        exists opp'. split; [done|congruence]. }
      intros j op p [[-> ->]|[? Hop]]%Hcases Hpp.
      * rewrite Hp in Hpp. rewrite Hk. by eapply Hold.
      * by eapply Hold.
    + assert (∀ j op, operations s' !! j = Some op →
                ∃ op1, operations s !! j = Some op1 ∧
                       pendingUpdates op1 = pendingUpdates op) as Hback.
      { intros j op [[-> ->]|[? Hop]]%Hcases; [by exists op0|by exists op]. }
      intros j k opj opk p (opj1 & ? & Hj)%Hback (opk1 & ? & Hk1)%Hback ? ?.
      eapply (sound_unique _ HS j k opj1 opk1 p); congruence.
Qed.

Lemma exec_sound acts s s' : Sound s → exec acts s = Some s' → Sound s'.
Proof.
  revert s. induction acts as [|a acts IH]; intros s HS; simpl.
  - by intros [= <-].
  - destruct (step a s) as [s1|] eqn:Hstep; [|done].
    apply IH. by eapply step_sound.
Qed.

(** *** Running the queue to the end *)

Lemma step_ApplySettles t n op edit r :
  operations t !! n = Some op → phase op = Applying edit →
  step (ApplySettles n r) t =
    Some (setOperation n
            (withDeferred (settleDeferred r) (withPhase Finished op))
            [ApplyEnded n r] t).
Proof. intros Hop Hp. simpl. by rewrite Hop, Hp. Qed.

Lemma afterUpdate_finishes host t n op0 op evs :
  operations t !! n = Some op0 → sameCall op0 op →
  phase op = Queued ∨ phase op = AwaitingUpdate →
  (∀ i, ApplyStarted i ∉ evs) →
  ∃ t', exec (applyPart host n op) (afterUpdate n op evs t) = Some t' ∧
    ∃ op', operations t' = <[n := op']> (operations t) ∧
           sameCall op0 op' ∧ phase op' = Finished ∧
           pendingCellUpdates t' = pendingCellUpdates t ∧
           trace t ++ evs `prefix_of` trace t' ∧
           (∀ edit, outcome (update op) = Contributes edit → size edit ≠ 0 →
                    deferred op' = settleDeferred (host n)) ∧
           (∀ edit, outcome (update op) = Contributes edit → size edit = 0 →
                    deferred op' = deferred op ∧
                    (ApplyStarted n ∈ trace t' → ApplyStarted n ∈ trace t)).
Proof.
  intros Hop Hsame Hp Hevs.
  assert (n < length (operations t)) as Hlt by (by eapply lookup_lt_Some).
  assert (sameCall op0 (withPhase Finished op)) as Hfin by done.
  unfold applyPart, afterUpdate.
  destruct (outcome (update op)) as [edit|e] eqn:Ho.
  - destruct (decide (size edit = 0)) as [Hz|Hz].
    + eexists. split; [reflexivity|]. exists (withPhase Finished op). simpl.
      split_and!; try done.
      * intros edit' [= <-] ?. done.
      * intros edit' _ _. split; [done|].
        intros [?|Hin]%elem_of_app; [done|]. by apply Hevs in Hin.
    + simpl. unfold setOperation at 1. simpl.
      rewrite list_lookup_insert_eq by done. simpl.
      eexists. split; [reflexivity|]. eexists. simpl.
      rewrite list_insert_insert_eq.
      split_and!; try done.
      * rewrite <-!(assoc_L (++)). apply prefix_app, prefix_app_r. done.
      * intros edit' [= <-] ?. done.
  - eexists. split; [reflexivity|]. exists (withPhase Finished op). simpl.
    split_and!; try done.
Qed.

Lemma finish_one host t n op :
  operations t !! n = Some op →
  (phase op = Queued → settled (pendingUpdates op) t = true) →
  (∀ edit, phase op = Applying edit →
           outcome (update op) = Contributes edit ∧ size edit ≠ 0) →
  ∃ t', exec (finishActions host n op) t = Some t' ∧
        FinishedFrom host n op t t'.
Proof.
  intros Hop Hset Happ.
  assert (n < length (operations t)) as Hlt by (by eapply lookup_lt_Some).
  unfold finishActions, FinishedFrom.
  destruct (phase op) as [| |edit|] eqn:Hp.
  - (* queued *)
    cbn [exec app]. simpl step. rewrite Hop, Hp, Hset by done. simpl.
    destruct (returnsPromise (update op)) eqn:Hr.
    + cbn [exec app]. simpl step.
      rewrite list_lookup_insert_eq by done. simpl.
      set (t1 := setOperation n (withPhase AwaitingUpdate op)
                   [UpdateInvoked n] t).
      destruct (afterUpdate_finishes host t1 n (withPhase AwaitingUpdate op)
                  (withPhase AwaitingUpdate op) [])
        as (t' & Hexec & op' & Hops & Hsame & Hfin & Hmap & Htr & Hd & Hz).
      { subst t1. simpl. by rewrite list_lookup_insert_eq. }
      { done. } { by right. } { intros i. apply not_elem_of_nil. }
      exists t'. split; [exact Hexec|]. exists op'.
      subst t1. simpl in *. rewrite list_insert_insert_eq in Hops.
      rewrite app_nil_r in Htr.
      split_and!; try done.
      * etrans; [|exact Htr]. by apply prefix_app_r.
      * intros _. eapply elem_of_prefix; [|exact Htr].
        apply elem_of_app. right. by apply list_elem_of_singleton.
      * intros edit ? ? _. by eapply Hd.
      * intros edit Ho Hsz. destruct (Hz _ Ho Hsz) as [Hd' Hin']. split; [done|].
        intros Hin. apply Hin' in Hin. apply elem_of_app in Hin as [?|Hin]; [done|].
        by apply list_elem_of_singleton in Hin.
    + destruct (afterUpdate_finishes host t n op op [UpdateInvoked n])
        as (t' & Hexec & op' & Hops & Hsame & Hfin & Hmap & Htr & Hd & Hz);
        [done|done|by left| |].
      { intros i Hin. by apply list_elem_of_singleton in Hin. }
      exists t'. split; [exact Hexec|]. exists op'.
      split_and!; try done.
      * etrans; [|exact Htr]. by apply prefix_app_r.
      * intros _. eapply elem_of_prefix; [|exact Htr].
        apply elem_of_app. right. by apply list_elem_of_singleton.
      * intros edit ? ? _. by eapply Hd.
  - (* awaiting the update *)
    cbn [exec]. simpl step. rewrite Hop, Hp.
    destruct (afterUpdate_finishes host t n op op [])
      as (t' & Hexec & op' & Hops & Hsame & Hfin & Hmap & Htr & Hd & Hz);
      [done|done|by right|intros i; apply not_elem_of_nil|].
    exists t'. split; [exact Hexec|]. exists op'.
    rewrite app_nil_r in Htr.
    split_and!; try done.
    intros edit ? ? _. by eapply Hd.
  - (* applying *)
    cbn [exec]. erewrite step_ApplySettles by done.
    eexists. split; [reflexivity|]. eexists. simpl.
    split_and!; try done.
    * by apply prefix_app_r.
    * intros edit' Ho Hsz. destruct (Happ edit) as [Ho' Hsz']; [done|].
      congruence.
  - (* finished already *)
    exists t. split; [done|]. exists op.
    rewrite list_insert_id by done. by split_and!.
Qed.

Lemma drainBelow_finishes host s n :
  Sound s → n ≤ length (operations s) →
  ∃ s', exec (drainBelow host n s) s = Some s' ∧
        length (operations s') = length (operations s) ∧
        pendingCellUpdates s' = pendingCellUpdates s ∧
        trace s `prefix_of` trace s' ∧
        (∀ i, n ≤ i → operations s' !! i = operations s !! i) ∧
        (∀ i op, i < n → operations s !! i = Some op → Ran host s s' i op).
Proof.
  intros HS. induction n as [|n IH]; intros Hn.
  - exists s. simpl. split_and!; try done. intros; lia.
  - destruct IH as (s1 & Hexec & Hlen & Hmap & Htr & Hrest & Hran); [lia|].
    destruct (lookup_lt_is_Some_2 (operations s) n) as [op Hop]; [lia|].
    assert (operations s1 !! n = Some op) as Hop1 by (by rewrite Hrest).
    pose proof (exec_sound _ _ _ HS Hexec) as HS1.
    destruct (finish_one host s1 n op) as (s2 & Hexec2 & op' & Hops & Hsame
        & Hfin & Hmap2 & Htr2 & Hinv & Hd & Hz);
      [done| |intros edit ?; by eapply sound_applying|].
    { intros _. destruct (pendingUpdates op) as [|j] eqn:Hprev; [done|].
      simpl. pose proof (sound_prev _ HS _ _ _ Hop Hprev) as Hj.
      destruct (lookup_lt_is_Some_2 (operations s) j) as [opj Hopj]; [lia|].
      destruct (Hran j opj Hj Hopj) as (opj' & -> & _ & -> & _). done. }
    exists s2. simpl. rewrite exec_app, Hexec. simpl. rewrite Hop.
    split; [exact Hexec2|]. split_and!.
    + by rewrite Hops, length_insert.
    + congruence.
    + by etrans.
    + intros i Hi. rewrite Hops, list_lookup_insert_ne by lia.
      apply Hrest. lia.
    + intros i opi Hi Hopi. destruct (decide (i = n)) as [->|Hne].
      * simplify_eq. exists op'. split_and!; try done.
        -- rewrite Hops. apply list_lookup_insert_eq.
           rewrite Hlen. lia.
        -- intros edit Ho Hsz. by destruct (Hz edit Ho Hsz).
      * destruct (Hran i opi) as (opi' & Hopi' & ? & ? & Hinv' & ? & ?);
          [lia|done|].
        exists opi'. split_and!; try done.
        -- by rewrite Hops, list_lookup_insert_ne.
        -- intros Hq. eapply elem_of_prefix; [by apply Hinv'|done].
Qed.

(** Whatever the host answers, and whatever failed before, the schedule
    [drain] is possible and brings every operation to its end. *)
Lemma drain_finishes host s :
  Sound s →
  ∃ s', exec (drain host s) s = Some s' ∧
        length (operations s') = length (operations s) ∧
        pendingCellUpdates s' = pendingCellUpdates s ∧
        ∀ i op, operations s !! i = Some op → Ran host s s' i op.
Proof.
  intros HS.
  destruct (drainBelow_finishes host s (length (operations s)) HS)
    as (s' & Hexec & Hlen & Hmap & _ & _ & Hran); [done|].
  exists s'. split_and!; try done.
  intros i op Hop. apply Hran; [|done]. by eapply lookup_lt_Some.
Qed.

(** *** Calls on a document are chained *)

Lemma init_chained : Chained init.
Proof. split; simpl; intros *; done. Qed.

Lemma step_chained a s s' :
  isClear a = false → Chained s → step a s = Some s' → Chained s'.
Proof.
  intros Hclear HC Hstep. pose proof (step_shape _ _ _ Hstep) as Hshape.
  destruct Hshape as [Hsame _ _ Hmap|k prev u Hnew _ Hmap Hprev
                     |i0 op0 op0' evs Hop0 Hmove _ Hmap _ HM].
  - specialize (Hmap Hclear). split; rewrite ?Hsame, ?Hmap; apply HC.
  - assert (∀ i op, operations s' !! i = Some op →
              operations s !! i = Some op ∨
              (i = length (operations s) ∧ key op = k ∧
               pendingUpdates op = prev)) as Hcases.
    { intros i op. rewrite Hnew.
      intros [?|[Hi Hop]]%lookup_app_Some; [by left|right].
      apply list_lookup_singleton_Some in Hop as [Hi' <-].
      split; [lia|done]. }
    assert (∀ i op, operations s !! i = Some op →
              operations s' !! i = Some op) as Hold.
    { intros i op Hop. rewrite Hnew. by apply lookup_app_l_Some. }
    assert (∃ opn, operations s' !! length (operations s) = Some opn ∧
                   key opn = k) as (opn & Hopn & Hkn).
    { eexists. rewrite Hnew. split; [by apply list_lookup_middle|done]. }
    split.
    + intros i op d Hop Hk. rewrite Hmap.
      destruct (decide (k = NotebookDocument d)) as [->|Hne].
      * exists (length (operations s)), opn.
        rewrite lookup_insert_eq. split_and!; try done.
        apply lookup_lt_Some in Hop. rewrite Hnew, length_app in Hop.
        simpl in Hop. lia.
      * rewrite lookup_insert_ne by done.
        destruct (Hcases _ _ Hop) as [Hop'|(_ & ? & _)]; [|congruence].
        destruct (chained_last _ HC _ _ _ Hop' Hk) as (j & opj & ? & ? & ? & ?).
        exists j, opj. split_and!; try done. by apply Hold.
    + intros i j opi opj d Hij Hopi Hki Hopj Hkj.
      destruct (Hcases _ _ Hopj) as [Hopj'|(-> & Hk & Hp)].
      * assert (operations s !! i = Some opi) as Hopi'.
        { destruct (Hcases _ _ Hopi) as [?|(-> & _)]; [done|].
          apply lookup_lt_Some in Hopj'. lia. }
        destruct (chained_prev _ HC _ _ _ _ _ Hij Hopi' Hki Hopj' Hkj)
          as (j' & opj' & ? & ? & ? & ?).
        exists j', opj'. split_and!; try done; try lia. by apply Hold.
      * assert (operations s !! i = Some opi) as Hopi'.
        { destruct (Hcases _ _ Hopi) as [?|(-> & _)]; [done|lia]. }
        destruct (chained_last _ HC _ _ _ Hopi' Hki)
          as (j' & opj' & Hlast & ? & Hopj' & ?).
        exists j', opj'. rewrite Hp.
        assert (k = NotebookDocument d) as -> by congruence.
        simpl in Hprev. unfold has, get in Hprev. rewrite Hlast in Hprev.
        simpl in Hprev. simplify_eq.
        split_and!; try done; [by eapply lookup_lt_Some|by apply Hold].
  - pose proof (Moves_sameCall _ _ _ _ HM) as (Hk & Hp & Hu).
    assert (i0 < length (operations s)) as Hlt by (by eapply lookup_lt_Some).
    assert (∀ i op, operations s' !! i = Some op →
              ∃ op1, operations s !! i = Some op1 ∧ sameCall op1 op)
      as Hback.
    { intros i op. rewrite Hmove. destruct (decide (i0 = i)) as [->|Hne].
      - rewrite list_lookup_insert_eq by done. intros; simplify_eq.
        by exists op0.
      - rewrite list_lookup_insert_ne by done. intros. exists op.
        split; [done|apply sameCall_refl]. }
    split.
    + intros i op d (op1 & Hop1 & Hk1 & _)%Hback Hkey. rewrite Hmap.
      destruct (chained_last _ HC i op1 d) as (j & opj & ? & ? & Hopj & ?);
        [done|congruence|].
      destruct (step_keeps _ _ _ _ _ Hstep Hopj) as (opj' & ? & Hkj & _).
      exists j, opj'. split_and!; try done. congruence.
    + intros i j opi opj d Hij (opi1 & Hopi1 & Hki1 & _)%Hback Hki
        (opj1 & Hopj1 & Hkj1 & Hpj1 & _)%Hback Hkj.
      destruct (chained_prev _ HC i j opi1 opj1 d)
        as (j' & opj' & ? & ? & Hopj' & ?); [done|done|congruence|done|congruence|].
      destruct (step_keeps _ _ _ _ _ Hstep Hopj') as (opj'' & ? & Hkj' & _).
      exists j', opj''. split_and!; try done; try lia; congruence.
Qed.

Lemma exec_chained acts s s' :
  forallb (λ a, negb (isClear a)) acts = true →
  Chained s → exec acts s = Some s' → Chained s'.
Proof.
  revert s. induction acts as [|a acts IH]; intros s Hclear HC; simpl.
  - by intros [= <-].
  - simpl in Hclear. apply andb_prop in Hclear as [Ha Hacts].
    destruct (step a s) as [s1|] eqn:Hstep; [|done].
    apply IH; [done|]. eapply step_chained; [|done..].
    by destruct (isClear a).
Qed.

(** In a sound and chained state, an operation on a document has started
    only if every earlier operation on that document is finished. *)
Lemma started_after_earlier s :
  Sound s → Chained s →
  ∀ j i opi opj d,
    i < j →
    operations s !! i = Some opi → key opi = NotebookDocument d →
    operations s !! j = Some opj → key opj = NotebookDocument d →
    phase opj ≠ Queued → phase opi = Finished.
Proof.
  intros HS HC j. induction (lt_wf j) as [j _ IH].
  intros i opi opj d Hij Hopi Hki Hopj Hkj Hstarted.
  destruct (chained_prev _ HC _ _ _ _ _ Hij Hopi Hki Hopj Hkj)
    as (j' & opj' & Hprev & Hj' & Hopj' & Hkj').
  pose proof (sound_started _ HS _ _ Hopj Hstarted) as Hset.
  rewrite Hprev in Hset. simpl in Hset. rewrite Hopj' in Hset.
  assert (phase opj' = Finished) as Hfin by (by destruct (phase opj')).
  destruct (decide (i = j')) as [->|Hne]; [congruence|].
  eapply (IH j'); [lia| |done..|congruence]. lia.
Qed.

(** *** The queue behind an operation *)








Lemma exec_keeps acts s s' i op :
  exec acts s = Some s' → operations s !! i = Some op →
  ∃ op', operations s' !! i = Some op' ∧ sameCall op op'.
Proof.
  revert s op. induction acts as [|a acts IH]; intros s op; simpl.
  - intros [= <-] ?. exists op. split; [done|apply sameCall_refl].
  - destruct (step a s) as [s1|] eqn:Hstep; [|done]. intros Hexec Hop.
    destruct (step_keeps _ _ _ _ _ Hstep Hop) as (op1 & Hop1 & Hsame).
    destruct (IH _ _ Hexec Hop1) as (op' & ? & ?).
    exists op'. split; [done|]. by eapply sameCall_trans.
Qed.

Lemma exec_finished acts s s' i op :
  exec acts s = Some s' → operations s !! i = Some op →
  phase op = Finished → operations s' !! i = Some op.
Proof.
  revert s. induction acts as [|a acts IH]; intros s; simpl.
  - by intros [= <-].
  - destruct (step a s) as [s1|] eqn:Hstep; [|done]. intros Hexec Hop Hfin.
    apply (IH s1); [done| |done]. by eapply step_finished.
Qed.

(** A promise whose operation had nothing to apply stays pending. *)
Lemma unsettled_forever acts s s' i op :
  Sound s → operations s !! i = Some op →
  (∀ edit, outcome (update op) = Contributes edit → size edit = 0) →
  exec acts s = Some s' → observe (DeferredPromise i) s' = Pending.
Proof.
  intros HS Hop Hno Hexec.
  destruct (exec_keeps _ _ _ _ _ Hexec Hop) as (op' & Hop' & _ & _ & Hu).
  pose proof (exec_sound _ _ _ HS Hexec) as HS'.
  simpl. rewrite Hop'. destruct (deferred op') eqn:Hd; [done|..].
  - destruct (sound_deferred _ HS' _ _ Hop') as (_ & _ & edit & Ho & Hsz);
      [congruence|]. rewrite Hu in Ho. by apply Hno in Ho.
  - destruct (sound_deferred _ HS' _ _ Hop') as (_ & _ & edit & Ho & Hsz);
      [congruence|]. rewrite Hu in Ho. by apply Hno in Ho.
Qed.

(** *** The serialisation queue *)

(** On a document key the chain does what it is for: of two operations on
    the same document the later one has not started unless the earlier one
    is finished, so at most one of them is in flight. *)
Theorem document_updates_serialised acts s i j opi opj d :
  exec acts init = Some s →
  forallb (λ a, negb (isClear a)) acts = true →
  i < j →
  operations s !! i = Some opi → key opi = NotebookDocument d →
  operations s !! j = Some opj → key opj = NotebookDocument d →
  (phase opj ≠ Queued → phase opi = Finished) ∧
  (inFlight (phase opi) && inFlight (phase opj) = false).
Proof.
  intros Hexec Hclear Hij Hopi Hki Hopj Hkj.
  pose proof (exec_sound _ _ _ init_sound Hexec) as HS.
  pose proof (exec_chained _ _ _ Hclear init_chained Hexec) as HC.
  assert (phase opj ≠ Queued → phase opi = Finished) as Hord.
  { by eapply (started_after_earlier s HS HC j i). }
  split; [done|].
  destruct (phase opj) eqn:Hpj; try (by rewrite andb_false_r);
    rewrite Hord; done.
Qed.

(** C1.  On a cell key the chain is not built.  Two calls for the same cell
    of a notebook that has no entry of its own both start from
    [Promise.resolve()]: their edits are being applied at the same time, and
    the later call can have its edit applied before the earlier one.  And
    once the notebook has an entry, a call for a cell that has none ends in
    a [TypeError]. *)
Theorem cell_updates_overlap :
  let c := NotebookCell 0 0 in
  (∃ s, exec [Call c (syncEdit 1); Call c (syncEdit 2); Run 0; Run 1] init
          = Some s ∧
        key <$> operations s = [c; c] ∧
        pendingUpdates <$> operations s = [PromiseResolve; PromiseResolve] ∧
        phase <$> operations s =
          [Applying (editOf 1); Applying (editOf 2)] ∧
        inFlight <$> (phase <$> operations s) = [true; true]) ∧
  (∃ s, exec [Call c (asyncEdit 1); Call c (syncEdit 2); Run 0; Run 1;
              UpdateSettles 0] init = Some s ∧
        trace s = [UpdateInvoked 0; UpdateInvoked 1; ApplyStarted 1;
                   ApplyStarted 0]) ∧
  snd (chainWithPendingUpdates c (syncEdit 2)
         (after [Call (NotebookDocument 0) (syncEdit 1)])) =
    Immediately (Rejected TypeError).
Proof.
  split_and!; [| |by vm_compute];
    (eexists; split; [vm_compute; reflexivity|]; by vm_compute).
Qed.

(** C2.  When [workspace.applyEdit] fails for an operation, its deferred
    promise, and no other, is rejected with that failure and stays so; the
    operation enqueued behind it can start at once, and the whole queue can
    still be run to its end, whatever the host answers later. *)
Theorem apply_failure_stays_with_caller acts s i ex s' :
  exec acts init = Some s →
  step (ApplySettles i (Failed ex)) s = Some s' →
  observe (DeferredPromise i) s' = Rejected ex ∧
  (∀ j, j ≠ i → operations s' !! j = operations s !! j) ∧
  (∀ more s'', exec more s' = Some s'' →
               observe (DeferredPromise i) s'' = Rejected ex) ∧
  (∀ j op, operations s !! j = Some op →
           pendingUpdates op = aggregatedPromise i → phase op = Queued →
           ∃ s'', step (Run j) s' = Some s'' ∧ UpdateInvoked j ∈ trace s'') ∧
  (∀ host, ∃ s'', exec (drain host s') s' = Some s'' ∧
                  ∀ j op, operations s' !! j = Some op → Ran host s' s'' j op).
Proof.
  intros Hexec Hstep.
  pose proof (exec_sound _ _ _ init_sound Hexec) as HS.
  pose proof (step_sound _ _ _ HS Hstep) as HS'.
  simpl in Hstep.
  destruct (operations s !! i) as [opi|] eqn:Hopi; [|done].
  destruct (phase opi) as [| |edit|] eqn:Hpi; try done.
  injection Hstep as <-.
  assert (i < length (operations s)) as Hlt by (by eapply lookup_lt_Some).
  set (opi' := withDeferred (Rejected ex) (withPhase Finished opi)).
  assert (operations (setOperation i opi' [ApplyEnded i (Failed ex)] s) !! i
          = Some opi') as Hopi'.
  { simpl. by apply list_lookup_insert_eq. }
  split_and!.
  - simpl. by rewrite list_lookup_insert_eq.
  - intros j Hne. simpl. by rewrite list_lookup_insert_ne.
  - intros more s'' Hmore. simpl.
    by erewrite (exec_finished _ _ _ _ _ Hmore Hopi').
  - intros j op Hop Hprev Hq.
    assert (j ≠ i) as Hne by (intros ->; congruence).
    simpl. rewrite list_lookup_insert_ne, Hop, Hq, Hprev by done. simpl.
    rewrite list_lookup_insert_eq by done. simpl.
    destruct (returnsPromise (update op)).
    + eexists. split; [done|]. simpl. set_solver.
    + eexists. split; [done|]. unfold afterUpdate.
      repeat case_match; simpl; set_solver.
  - intros host. destruct (drain_finishes host _ HS') as (s'' & ? & _ & _ & ?).
    by exists s''.
Qed.

(** C3.  On a cell key the calls that follow one without edits are not put
    behind it, nor behind one another: here the second and third call for a
    cell wait for nothing, and the edit of the third is applied before the
    edit of the second.  The first call itself is not applied. *)
Theorem cell_updates_after_empty_update_unordered :
  let c := NotebookCell 0 0 in
  ∃ s, exec [Call c noEdits; Call c (asyncEdit 1); Call c (syncEdit 2);
             Run 0; Run 1; Run 2; UpdateSettles 1] init = Some s ∧
       key <$> operations s = [c; c; c] ∧
       pendingUpdates <$> operations s =
         [PromiseResolve; PromiseResolve; PromiseResolve] ∧
       trace s = [UpdateInvoked 0; UpdateInvoked 1; UpdateInvoked 2;
                  ApplyStarted 2; ApplyStarted 1].
Proof.
  eexists. split; [vm_compute; reflexivity|]. by vm_compute.
Qed.

(** C4.  A call on an open document whose callback adds no edit is given a
    promise that stays pending in every future: the callback returns before
    [deferred] is resolved or rejected. *)
Theorem empty_update_never_settles :
  let d := NotebookDocument 0 in
  isClosed d init = false ∧
  ∃ s, chainWithPendingUpdates d noEdits init = (s, DeferredPromise 0) ∧
       (∃ s', exec [Run 0] s = Some s' ∧ phaseOf 0 s' = Some Finished ∧
              trace s' = [UpdateInvoked 0]) ∧
       ∀ acts s', exec acts s = Some s' →
                  observe (DeferredPromise 0) s' = Pending.
Proof.
  split; [done|].
  exists (enqueue (NotebookDocument 0) noEdits PromiseResolve init).
  split; [reflexivity|]. split.
  - eexists. split; [vm_compute; reflexivity|]. by vm_compute.
  - intros acts s' Hexec.
    apply (unsettled_forever acts
             (enqueue (NotebookDocument 0) noEdits PromiseResolve init) s' 0
             {| key := NotebookDocument 0; pendingUpdates := PromiseResolve;
                update := noEdits; phase := Queued; deferred := Pending |});
      [|reflexivity| |exact Hexec].
    + apply (step_sound (Call (NotebookDocument 0) noEdits) init);
        [apply init_sound|reflexivity].
    + simpl. by intros edit [= <-].
Qed.


Lemma lookup_cleared d cells (m : gmap DocumentOrCell nat) k :
  m !! k = None ∨ (∃ c, k = NotebookCell d c ∧ c ∈ cells) →
  foldl (λ m c, delete (NotebookCell d c) m) m cells !! k = None.
Proof.
  revert m. induction cells as [|c cells IH]; intros m; simpl.
  - intros [?|(c & _ & Hc)]; [done|]. by apply elem_of_nil in Hc.
  - intros [Hk|(c' & -> & Hc)]; apply IH.
    + left. by apply lookup_delete_None; right.
    + apply elem_of_cons in Hc as [->|Hc].
      * left. apply lookup_delete_eq.
      * right. eauto.
Qed.

Lemma lookup_not_cleared d cells (m : gmap DocumentOrCell nat) k :
  (∀ c, c ∈ cells → k ≠ NotebookCell d c) →
  foldl (λ m c, delete (NotebookCell d c) m) m cells !! k = m !! k.
Proof.
  revert m. induction cells as [|c cells IH]; intros m Hk; simpl; [done|].
  rewrite IH by (intros c' Hc'; apply Hk; by apply list_elem_of_further).
  apply lookup_delete_ne. intros <-. by apply (Hk c (list_elem_of_here _ _)).
Qed.

(** No action other than [clearPendingChainedUpdatesForTests] takes an entry
    out of the map. *)
Lemma step_keeps_entries a s s' k :
  isClear a = false → step a s = Some s' →
  is_Some (pendingCellUpdates s !! k) → is_Some (pendingCellUpdates s' !! k).
Proof.
  intros Ha [_ _ _ Hmap|k' prev u _ _ Hmap _|i op op' evs _ _ _ Hmap _ _]%step_shape.
  - by rewrite (Hmap Ha).
  - rewrite Hmap. intros Hk. apply lookup_insert_is_Some.
    destruct (decide (k' = k)); [by left|right; by split].
  - by rewrite Hmap.
Qed.

Lemma exec_keeps_entries acts s s' k :
  forallb (λ a, negb (isClear a)) acts = true → exec acts s = Some s' →
  is_Some (pendingCellUpdates s !! k) → is_Some (pendingCellUpdates s' !! k).
Proof.
  revert s. induction acts as [|a acts IH]; intros s Hall Hexec Hk;
    simpl in *; [by simplify_eq|].
  apply andb_true_iff in Hall as [Ha Hall].
  destruct (step a s) as [s1|] eqn:Hstep; [|done].
  apply (IH s1); [done..|].
  eapply step_keeps_entries; [|done..]. by destruct (isClear a).
Qed.

(** C5, as the code has it.  Closing a document leaves the map and the
    operations queued for the document as they are, and these still run to
    their end; once it is closed, a call for it or for one of its cells
    returns [true] without a look at the map.  Entries go only through
    [clearPendingChainedUpdatesForTests]: no call, no turn of a callback and
    no closing takes an entry out of the map, in whatever state, and the
    clearing takes out the entries of the active editor's document and of
    the cells it lists and leaves every other key as it is.  A fresh process
    starts with an empty map and nothing queued. *)
Theorem close_leaves_queue acts s d :
  exec acts init = Some s →
  ∃ s', step (Close d) s = Some s' ∧
        pendingCellUpdates s' = pendingCellUpdates s ∧
        operations s' = operations s ∧
        (∀ k u, documentId k = d →
                chainWithPendingUpdates k u s' =
                  (s', Immediately (Fulfilled true))) ∧
        (∀ host, ∃ s'', exec (drain host s') s' = Some s'' ∧
                        ∀ j op, operations s !! j = Some op →
                                Ran host s' s'' j op) ∧
        (∀ cells,
           let t := clearPendingChainedUpdatesForTests (Some (d, cells)) s' in
           pendingCellUpdates t !! NotebookDocument d = None ∧
           ∀ c, c ∈ cells → pendingCellUpdates t !! NotebookCell d c = None) ∧
        (∀ a t t' k,
           isClear a = false → step a t = Some t' →
           is_Some (pendingCellUpdates t !! k) →
           is_Some (pendingCellUpdates t' !! k)) ∧
        (∀ more s'' k,
           forallb (λ a, negb (isClear a)) more = true →
           exec more s' = Some s'' →
           is_Some (pendingCellUpdates s !! k) →
           is_Some (pendingCellUpdates s'' !! k)) ∧
        (∀ t k, pendingCellUpdates (clearPendingChainedUpdatesForTests None t)
                  !! k = pendingCellUpdates t !! k) ∧
        (∀ d' cells t k,
           k ≠ NotebookDocument d' →
           (∀ c, c ∈ cells → k ≠ NotebookCell d' c) →
           pendingCellUpdates
             (clearPendingChainedUpdatesForTests (Some (d', cells)) t) !! k =
           pendingCellUpdates t !! k) ∧
        pendingCellUpdates init = ∅ ∧ operations init = [].
Proof.
  intros Hexec. pose proof (exec_sound _ _ _ init_sound Hexec) as HS.
  eexists. split; [reflexivity|].
  assert (Sound {| closed := {[d]} ∪ closed s;
                   pendingCellUpdates := pendingCellUpdates s;
                   operations := operations s; trace := trace s |}) as HS'.
  { by apply (step_sound (Close d) s). }
  split_and!; try done.
  - intros k u <-. unfold chainWithPendingUpdates, isClosed.
    rewrite bool_decide_eq_true_2; [done|]. destruct k; set_solver.
  - intros host. destruct (drain_finishes host _ HS') as (s'' & ? & _ & _ & ?).
    by exists s''.
  - intros cells. simpl. split.
    + apply lookup_cleared. left. apply lookup_delete_eq.
    + intros c Hc. apply lookup_cleared. right. eauto.
  - intros a t t' k. apply step_keeps_entries.
  - intros more s'' k Hall Hmore Hk.
    by apply (exec_keeps_entries _ _ _ _ Hall Hmore).
  - intros d' cells t k Hdoc Hcells. simpl.
    rewrite lookup_not_cleared by done. by apply lookup_delete_ne.
Qed.

(** C5, counterexample.  After one call for a document and the closing of
    that document the map still has the entry. *)
Lemma closing_keeps_entries : ¬ ClosingRemovesEntries.
Proof.
  intros H.
  specialize (H [Call (NotebookDocument 0) (syncEdit 1); Close 0]
                _ (NotebookDocument 0) eq_refl).
  by vm_compute in H; specialize (H eq_refl).
Qed.

(** C6.  A call for a document, or a cell of a document, that is closed
    returns a promise fulfilled with [true] and changes nothing: no
    operation is enqueued, so the callback is never run, and the map is as
    before.  The caller sees what it sees after an apply that went well. *)
Theorem closed_notebook_is_skipped k u s :
  isClosed (notebook k) s = true →
  chainWithPendingUpdates k u s = (s, Immediately (Fulfilled true)) ∧
  (∀ acts, exec (Call k u :: acts) s = exec acts s) ∧
  (∀ t i t', step (ApplySettles i (Applied true)) t = Some t' →
             observe (DeferredPromise i) t' =
             observe (snd (chainWithPendingUpdates k u s)) s).
Proof.
  intros Hclosed.
  assert (chainWithPendingUpdates k u s = (s, Immediately (Fulfilled true)))
    as Hcall by (unfold chainWithPendingUpdates; by rewrite Hclosed).
  split_and!; [done| |].
  - intros acts. simpl. by rewrite Hcall.
  - intros t i t' Hstep. rewrite Hcall. simpl in *.
    destruct (operations t !! i) as [op|] eqn:Hop; [|done].
    destruct (phase op); try done. injection Hstep as <-. simpl.
    rewrite list_lookup_insert_eq; [done|by eapply lookup_lt_Some].
Qed.


(** *** The theorems at concrete runs *)

Lemma document_updates_serialised_witness :
  let d := NotebookDocument 0 in
  let acts := [Call d (syncEdit 1); Call d (syncEdit 2); Run 0] in
  let op0 := {| key := d; pendingUpdates := PromiseResolve;
                update := syncEdit 1; phase := Applying (editOf 1);
                deferred := Pending |} in
  let op1 := {| key := d; pendingUpdates := aggregatedPromise 0;
                update := syncEdit 2; phase := Queued;
                deferred := Pending |} in
  exec acts init = Some (after acts) ∧
  operations (after acts) = [op0; op1] ∧
  inFlight (phase op0) && inFlight (phase op1) = false.
Proof.
  intros d acts op0 op1.
  split; [by vm_compute|]. split; [by vm_compute|].
  apply (document_updates_serialised acts (after acts) 0 1 op0 op1 0);
    by vm_compute.
Defined.



Lemma apply_failure_stays_with_caller_witness :
  let acts := [Call (NotebookDocument 0) (syncEdit 1);
               Call (NotebookDocument 0) (syncEdit 2); Run 0] in
  let fails := ApplySettles 0 (Failed (HostError 7)) in
  exec acts init = Some (after acts) ∧
  step fails (after acts) = Some (after (acts ++ [fails])) ∧
  observe (DeferredPromise 0) (after (acts ++ [fails])) =
    Rejected (HostError 7).
Proof.
  intros acts fails.
  split; [by vm_compute|]. split; [by vm_compute|].
  apply (apply_failure_stays_with_caller acts (after acts) 0 (HostError 7)
           (after (acts ++ [fails]))); by vm_compute.
Defined.


Lemma close_leaves_queue_witness :
  let acts := [Call (NotebookDocument 0) (syncEdit 1)] in
  exec acts init = Some (after acts) ∧
  ∃ s', step (Close 0) (after acts) = Some s' ∧
        pendingCellUpdates s' = pendingCellUpdates (after acts).
Proof.
  intros acts. split; [by vm_compute|].
  destruct (close_leaves_queue acts (after acts) 0) as (s' & ? & ? & _);
    [by vm_compute|].
  by exists s'.
Defined.

Lemma closed_notebook_is_skipped_witness :
  let s := after [Call (NotebookDocument 0) (syncEdit 1); Close 0] in
  let k := NotebookCell 0 3 in
  isClosed (notebook k) s = true ∧
  chainWithPendingUpdates k (syncEdit 2) s = (s, Immediately (Fulfilled true)).
Proof.
  intros s k. split; [by vm_compute|].
  apply (closed_notebook_is_skipped k (syncEdit 2) s). by vm_compute.
Defined.

End UpdateChain.

(** * Properties of the external cell buttons *)

Section ExternalButtons.
Import CellButtons.

Implicit Types (s : State) (b : Button) (id : string).

(** [findIndex] either finds nothing, or splits the list at the first hit. *)
Lemma findIndexFrom_cases {A} (p : A → bool) (l : list A) (i : Z) :
  (0 ≤ i)%Z →
  (findIndexFrom p l i = (-1)%Z ∧ Forall (λ x, p x = false) l) ∨
  (∃ l1 x l2, l = l1 ++ x :: l2 ∧ p x = true ∧
              Forall (λ y, p y = false) l1 ∧
              findIndexFrom p l i = (i + Z.of_nat (length l1))%Z).
Proof.
  revert i. induction l as [|x l IH]; intros i Hi; simpl.
  - left. by split.
  - destruct (p x) eqn:Hx.
    + right. exists [], x, l. simpl. split_and!; try done. lia.
    + destruct (IH (i + 1)%Z) as [[Hnone Hall]|(l1 & y & l2 & -> & Hy & Hall & Hidx)];
        [lia|..].
      * left. split; [done|]. by constructor.
      * right. exists (x :: l1), y, l2. simpl. split_and!; try done.
        -- by constructor.
        -- lia.
Qed.

Lemma splice_found {A} (l1 l2 : list A) (x : A) :
  splice (Z.of_nat (length l1)) 1 (l1 ++ x :: l2) = l1 ++ l2.
Proof.
  unfold splice. rewrite length_app. simpl.
  destruct (Z.ltb_spec (Z.of_nat (length l1)) 0) as [?|_]; [lia|].
  rewrite Z.min_l by lia. rewrite Nat2Z.id.
  rewrite take_app_length.
  replace (length l1 + 1) with (length l1 + 1 + 0) by lia.
  rewrite <-Nat.add_assoc, drop_app_add. done.
Qed.

Lemma hasId_false id (l : list Button) :
  Forall (λ b, hasId id b = false) l ↔ id ∉ buttonId <$> l.
Proof.
  rewrite Forall_forall, list_elem_of_fmap. unfold hasId. split.
  - intros H (b & -> & Hb). apply H in Hb.
    by apply bool_decide_eq_false in Hb.
  - intros H b Hb. apply bool_decide_eq_false. intros <-. apply H. eauto.
Qed.

Lemma filter_other_ids id (l : list Button) :
  id ∉ buttonId <$> l → filter (λ b, buttonId b ≠ id) l = l.
Proof.
  induction l as [|b l IH]; [done|]. rewrite fmap_cons, not_elem_of_cons.
  intros [Hb Hl]. rewrite filter_cons_True by done. by rewrite IH.
Qed.

(** A call with an identifier that is taken changes nothing. *)
Lemma create_present id cb icon status tip s :
  id ∈ ids s →
  createWebviewCellButton id cb icon status tip s = (s, {| disposes := id |}).
Proof.
  intros Hin. unfold createWebviewCellButton, findIndex.
  destruct (findIndexFrom_cases (hasId id) (externalButtons s) 0)
    as [[_ Hall]|(l1 & x & l2 & _ & _ & _ & ->)]; [done|..].
  - by apply hasId_false in Hall.
  - rewrite decide_False by lia. done.
Qed.

(** A call with a fresh identifier appends the button and posts the list. *)
Lemma create_absent id cb icon status tip s :
  id ∉ ids s →
  externalButtons (fst (createWebviewCellButton id cb icon status tip s)) =
    externalButtons s ++
    [{| buttonId := id; callback := Some cb; codicon := icon;
        statusToEnable := status; tooltip := tip; running := false |}].
Proof.
  intros Hin. unfold createWebviewCellButton, findIndex.
  destruct (findIndexFrom_cases (hasId id) (externalButtons s) 0)
    as [[-> _]|(l1 & x & l2 & Hl & Hx & _ & _)]; [done|done|].
  exfalso. apply Hin. unfold ids. rewrite Hl, fmap_app, fmap_cons.
  apply elem_of_app. right. apply elem_of_cons. left.
  symmetry. by apply bool_decide_eq_true in Hx.
Qed.

(** What a disposal does to the list. *)
Lemma dispose_cases d s :
  ((disposes d ∉ ids s) ∧ dispose d s = s) ∨
  (∃ l1 b l2, externalButtons s = l1 ++ b :: l2 ∧ buttonId b = disposes d ∧
              (disposes d ∉ buttonId <$> l1) ∧
              externalButtons (dispose d s) = l1 ++ l2).
Proof.
  unfold dispose, findIndex.
  destruct (findIndexFrom_cases (hasId (disposes d)) (externalButtons s) 0)
    as [[-> Hall]|(l1 & x & l2 & Hl & Hx & Hall & ->)]; [done|..].
  - left. split; [by apply hasId_false|done].
  - right. exists l1, x, l2. rewrite decide_True by lia. simpl.
    split_and!; [done|by apply bool_decide_eq_true in Hx|by apply hasId_false|].
    rewrite Hl, Z.add_0_l. apply splice_found.
Qed.

Lemma apply_NoDup s o : NoDup (ids s) → NoDup (ids (apply s o)).
Proof.
  intros Hnd. destruct o as [id cb icon status tip|d]; unfold apply.
  - destruct (decide (id ∈ ids s)) as [Hin|Hin].
    + by rewrite create_present.
    + unfold ids. rewrite create_absent by done.
      rewrite fmap_app. apply NoDup_app. split_and!; [done| |].
      * intros x Hx [->|[]%elem_of_nil]%elem_of_cons. done.
      * apply NoDup_singleton.
  - destruct (dispose_cases d s) as [[_ ->]|(l1 & b & l2 & Hl & _ & _ & Hd)];
      [done|].
    unfold ids in *. rewrite Hd. rewrite Hl in Hnd.
    rewrite fmap_app in *. rewrite fmap_cons in Hnd.
    apply NoDup_app in Hnd as (H1 & H2 & H3).
    apply NoDup_cons in H3 as [_ H3].
    apply NoDup_app. split_and!; [done| |done].
    intros x Hx Hx2. apply (H2 x Hx). by apply elem_of_cons; right.
Qed.

Lemma run_NoDup ops : NoDup (ids (run ops)).
Proof.
  unfold run. induction ops as [|o ops IH] using rev_ind.
  - apply NoDup_nil_2.
  - rewrite foldl_app. simpl. by apply apply_NoDup.
Qed.

(** C7.  After any sequence of calls and disposals no two buttons in
    [externalButtons] have the same [buttonId].  In such a state a call with
    an identifier that is present changes nothing and hands out the
    disposable for that identifier; a call with a new one appends one
    button; and a disposal takes out the buttons with its identifier, which
    is at most one, and keeps the others as they are and in their order. *)
Theorem external_buttons_unique ops :
  let s := run ops in
  NoDup (ids s) ∧
  (∀ id cb icon status tip,
     id ∈ ids s →
     createWebviewCellButton id cb icon status tip s =
       (s, {| disposes := id |})) ∧
  (∀ id cb icon status tip,
     id ∉ ids s →
     ∃ b, buttonId b = id ∧
          externalButtons
            (fst (createWebviewCellButton id cb icon status tip s)) =
          externalButtons s ++ [b]) ∧
  (∀ d,
     externalButtons (dispose d s) =
       filter (λ b, buttonId b ≠ disposes d) (externalButtons s) ∧
     length (externalButtons s) ≤ S (length (externalButtons (dispose d s)))).
Proof.
  intros s. pose proof (run_NoDup ops) as Hnd. fold s in Hnd.
  split_and!; [done| | |].
  - intros. by apply create_present.
  - intros id cb icon status tip Hin. eexists. split; [|by apply create_absent].
    done.
  - intros d.
    destruct (dispose_cases d s) as [[Hd ->]|(l1 & b & l2 & Hl & Hb & H1 & Hd)].
    + split; [|lia]. symmetry. by apply filter_other_ids.
    + rewrite Hd, Hl. unfold ids in Hnd. rewrite Hl, fmap_app, fmap_cons in Hnd.
      apply NoDup_app in Hnd as (_ & Hdis & [H2 _]%NoDup_cons).
      rewrite Hb in H2. split.
      * rewrite filter_app, filter_cons_False by (intros ?; congruence).
        by rewrite !filter_other_ids.
      * rewrite !length_app. simpl. lia.
Qed.

(** Two calls for ["run"], one for ["debug"], then the disposable of the
    second call for ["run"]: only ["debug"] is left, and each change of the
    list was posted once. *)
Example buttons_create_twice_dispose_once :
  let s := run [Create "run" 1 "play" [2%Z] "Run";
                Create "debug" 2 "bug" [] "Debug";
                Create "run" 3 "play" [] "Run again";
                Dispose {| disposes := "run" |}] in
  ids s = ["debug"] ∧ length (posted s) = 3.
Proof. by vm_compute. Qed.

End ExternalButtons.

(** * Properties of submitting code *)

Section SubmitEmptyCode.
Import SubmitCode.

Context `{Host}.

Lemma submitCodeChecked_empty code file line id oldData debugInfo stopWatch
    calls o :
  Runs (submitCodeChecked code file line id oldData debugInfo stopWatch)
       calls o →
  (∀ settings, reply getSettings settings ∈ calls →
               String.length (stripFirstMarker settings code) = 0) →
  o = Returns true ∧ Forall (λ r, visible r = false) calls.
Proof.
  intros (settings & rest & -> & Hrun) Hempty. simpl in Hrun, settings.
  rewrite (bool_decide_eq_true_2
             (String.length (stripFirstMarker settings code) = 0)) in Hrun
    by (apply Hempty; apply elem_of_cons; by left).
  destruct Hrun as [-> ->]. split; [done|]. by repeat constructor.
Qed.

(** C8.  When the code is empty once its first cell marker is stripped,
    under the settings the host hands out, every execution of [submitCode]
    returns [true], and none of its host calls executes something on the
    notebook, fires the executed-code event or posts a cell to the webview;
    and there is such an execution. *)
Theorem empty_code_is_not_submitted code file line id oldData debugInfo :
  (∀ calls o,
     Runs (submitCode code file line id oldData debugInfo) calls o →
     (∀ settings, reply getSettings settings ∈ calls →
                  String.length (stripFirstMarker settings code) = 0) →
     o = Returns true ∧ Forall (λ r, visible r = false) calls) ∧
  (∀ settings,
     String.length (stripFirstMarker settings code) = 0 →
     ∃ calls, Runs (submitCode code file line id oldData debugInfo)
                   calls (Returns true)).
Proof.
  split.
  - intros calls o Hrun Hempty. unfold submitCode in Hrun.
    destruct Hrun as ([] & calls1 & -> & [] & calls2 & -> & nb & calls3 & -> & Hrun).
    assert (∀ rest, Forall (λ r, visible r = false) rest →
              Forall (λ r, visible r = false)
                (reply (effect sendKernelTelemetryEvent) tt ::
                 reply (effect (traceInfo "Submitting code")) tt ::
                 reply readNotebook nb :: rest)) as Hpre.
    { intros rest Hrest. by repeat constructor. }
    destruct nb.
    + destruct Hrun as (captured & calls4 & -> & Hrun). destruct captured.
      * destruct (submitCodeChecked_empty _ _ _ _ _ _ _ _ _ Hrun) as [-> Hall].
        { intros settings Hin. apply Hempty. by repeat apply list_elem_of_further. }
        split; [done|]. apply Hpre. by constructor.
      * destruct Hrun as ([] & calls5 & -> & Hrun).
        destruct (submitCodeChecked_empty _ _ _ _ _ _ _ _ _ Hrun) as [-> Hall].
        { intros settings Hin. apply Hempty. by repeat apply list_elem_of_further. }
        split; [done|]. apply Hpre. by repeat constructor.
    + destruct (submitCodeChecked_empty _ _ _ _ _ _ _ _ _ Hrun) as [-> Hall].
      { intros settings Hin. apply Hempty. by repeat apply list_elem_of_further. }
      split; [done|]. by apply Hpre.
  - intros settings Hempty.
    exists [reply (effect sendKernelTelemetryEvent) tt;
            reply (effect (traceInfo "Submitting code")) tt;
            reply readNotebook false;
            reply getSettings settings].
    unfold submitCode. simpl.
    exists tt. eexists. split; [reflexivity|].
    exists tt. eexists. split; [reflexivity|].
    exists false. eexists. split; [reflexivity|].
    exists settings. eexists. split; [reflexivity|]. simpl.
    by rewrite (bool_decide_eq_true_2
                  (String.length (stripFirstMarker settings code) = 0)).
Qed.

End SubmitEmptyCode.

Section SubmitExamples.
Import SubmitCode.

#[local] Existing Instance exampleHost.

(** The answers of a host for which nothing fails. *)
Ltac answer x := exists x; eexists; split; [reflexivity|]; simpl.

(** Code that is not empty does get executed: in this execution the
    notebook runs it, the executed-code event fires and the two states of
    the cell are posted to the webview. *)
Lemma nonempty_code_is_executed :
  ∃ calls,
    Runs (submitCode "x = 1" "demo.py" 0 None None None) calls (Returns true) ∧
    reply (effect (executeObservable "x = 1" "demo.py" 0 "id-1")) tt ∈ calls ∧
    reply (effect (executeEventFire "x = 1")) tt ∈ calls ∧
    reply (effect (postMessage (StartCell (exampleCell init)))) tt ∈ calls ∧
    reply (effect (postMessage (FinishCell (exampleCell finished)))) tt
      ∈ calls.
Proof.
  eexists. split.
  - unfold submitCode, submitCodeChecked. simpl.
    answer tt. answer tt. answer false. answer tt. answer tt.
    answer "id-1"%string. answer tt.
    answer (@None Error). answer (@None Error). answer (@None Error).
    answer (@None Error). answer true. answer true. answer (@None Error).
    answer (@None Error). answer tt. answer tt.
    answer ([[exampleCell init]; [exampleCell finished]], Complete).
    answer tt. answer tt. answer tt. answer tt. answer tt. answer tt.
    answer tt. answer tt. answer tt. done.
  - split_and!; rewrite !elem_of_cons; naive_solver.
Qed.

Lemma empty_code_is_not_submitted_witness :
  let calls := [reply (effect sendKernelTelemetryEvent) tt;
                reply (effect (traceInfo "Submitting code")) tt;
                reply readNotebook false;
                reply getSettings tt] in
  Runs (submitCode "# %%" "demo.py" 0 None None None) calls (Returns true) ∧
  Forall (λ r, visible r = false) calls.
Proof.
  intros calls.
  assert (Runs (submitCode "# %%" "demo.py" 0 None None None) calls
               (Returns true)) as Hrun.
  { unfold submitCode, submitCodeChecked, calls. simpl.
    answer tt. answer tt. answer false. answer tt. done. }
  split; [exact Hrun|].
  apply (proj1 (empty_code_is_not_submitted "# %%" "demo.py" 0 None None None)
           calls (Returns true) Hrun).
  intros [] _. reflexivity.
Defined.

End SubmitExamples.

(** * More on the update chain *)

Section MoreUpdateChain.
Import NotebookUpdater UpdateChainInvariants.

Implicit Types (s t : State) (op : Operation) (a : Action) (i j : nat).

Lemma occurrences_app k i (l1 l2 : list Event) :
  occurrences k i (l1 ++ l2) = occurrences k i l1 + occurrences k i l2.
Proof. unfold occurrences. by rewrite filter_app, length_app. Qed.

Lemma occurrences_cons k i e (l : list Event) :
  occurrences k i (e :: l) =
    (if decide (eventKind e = (k, i)) then 1 else 0) + occurrences k i l.
Proof.
  unfold occurrences. rewrite filter_cons. by case_decide.
Qed.

Lemma occurrences_elem k i (l : list Event) :
  0 < occurrences k i l → ∃ e, e ∈ l ∧ eventKind e = (k, i).
Proof.
  unfold occurrences. intros Hlen.
  destruct (filter (λ e, eventKind e = (k, i)) l) as [|e l'] eqn:Hf;
    [simpl in Hlen; lia|].
  exists e. apply and_comm, (list_elem_of_filter (λ e, eventKind e = (k, i))).
  rewrite Hf. by left.
Qed.

Lemma occurrences_none k i (l : list Event) :
  (∀ e, e ∈ l → eventKind e ≠ (k, i)) → occurrences k i l = 0.
Proof.
  intros Hno. destruct (occurrences k i l) eqn:Hocc; [done|].
  destruct (occurrences_elem k i l) as (e & He & Hk); [lia|].
  by destruct (Hno e He).
Qed.

Lemma precedes_app (x y : EventKind * nat) (l evs : list Event) :
  precedes x y l →
  (∀ l1 e l2, evs = l1 ++ e :: l2 → eventKind e = y →
              ∃ e', e' ∈ l ++ l1 ∧ eventKind e' = x) →
  precedes x y (l ++ evs).
Proof.
  intros Hl Hevs l1 e l2 Heq Hk.
  apply app_eq_app in Heq as [m [[-> Hm]|[-> Hm]]].
  - destruct m as [|e0 m]; simpl in Hm.
    + destruct (Hevs [] e l2) as (e' & He' & ?); [done|done|].
      rewrite !app_nil_r in He'. eauto.
    + injection Hm as <- ->.
      by apply (Hl l1 e m).
  - by apply (Hevs m e l2).
Qed.

Lemma init_accounted : Accounted init.
Proof.
  split; simpl.
  - intros e He. by apply elem_of_nil in He.
  - done.
  - intros i l1 e l2 Heq. by destruct l1.
  - intros i l1 e l2 Heq. by destruct l1.
Qed.

Lemma Moves_events i op op' evs e :
  Moves i op op' evs → e ∈ evs → (eventKind e).2 = i.
Proof.
  intros [?|? ? ?|? ? ? ? ?|? ? ? ?]; simpl;
    rewrite ?elem_of_app; intros He;
    repeat match goal with
    | H : _ ∨ _ |- _ => destruct H
    | H : _ ∈ started ?p _ |- _ => destruct p; simpl in H
    | H : _ ∈ [_] |- _ => apply list_elem_of_singleton in H; subst
    | H : _ ∈ [] |- _ => by apply elem_of_nil in H
    end; done.
Qed.

(** Where an event sits in the few events of one step. *)
Ltac split_events Hevs Hk :=
  match type of Hevs with
  | _ = ?l1 ++ _ =>
      destruct l1 as [|? [|? [|? ?]]]; simpl in Hevs; simplify_eq;
      simpl in Hk; simplify_eq
  end.

Lemma step_accounted a s s' :
  Sound s → Accounted s → step a s = Some s' → Accounted s'.
Proof.
  intros HS HA Hstep. pose proof (step_shape _ _ _ Hstep) as Hshape.
  destruct Hshape as [Hsame Htr _ _|k prev u Hnew Htr _ _
                     |i0 op0 op0' evs Hop0 Hmove Htr _ _ HM].
  - split; rewrite ?Hsame, ?Htr; apply HA.
  - split; rewrite ?Hnew, ?Htr.
    + intros e He%(accounted_known _ HA). rewrite length_app. lia.
    + intros kd i op [Hop|[Hi Hop]]%lookup_app_Some.
      { by apply accounted_count. }
      apply list_lookup_singleton_Some in Hop as [Hi' <-].
      rewrite occurrences_none; [by destruct kd|].
      intros e He%(accounted_known _ HA) Hk. rewrite Hk in He. simpl in He. lia.
    + apply HA.
    + apply HA.
  - assert (i0 < length (operations s)) as Hlt by (by eapply lookup_lt_Some).
    assert (deferred op0 = Pending) as Hd0'.
    { destruct (deferred op0) eqn:Hd; [done|..];
        (destruct (sound_deferred _ HS _ _ Hop0) as (Hf & _); [congruence|];
         apply Moves_not_finished in HM; by rewrite Hf in HM). }
    assert (∀ kd, occurrences kd i0 (trace s) = expected kd op0) as Hold.
    { intros kd. by apply accounted_count. }
    split; rewrite ?Hmove, ?Htr.
    + rewrite length_insert. intros e [He|He]%elem_of_app.
      * by apply accounted_known.
      * by rewrite (Moves_events _ _ _ _ _ HM He).
    + intros kd i op. rewrite occurrences_app.
      destruct (decide (i0 = i)) as [<-|Hne].
      * rewrite list_lookup_insert_eq by done. intros [= <-].
        rewrite Hold. unfold expected.
        destruct HM as [op Hp|op Hp Hno|op edit Hp Ho Hsz|op edit r Hp];
          simpl; rewrite ?Hd0';
          repeat match goal with H : _ ∨ _ |- _ => destruct H end;
          repeat match goal with H : phase _ = _ |- _ => rewrite H end;
          destruct kd; try destruct r; simpl;
          rewrite ?occurrences_cons; repeat case_decide; simplify_eq;
          reflexivity.
      * rewrite list_lookup_insert_ne by done. intros Hop.
        rewrite (occurrences_none kd i evs); [rewrite Nat.add_0_r; by apply accounted_count|].
        intros e He Hk. apply (Moves_events _ _ _ _ _ HM) in He.
        rewrite Hk in He. simpl in He. congruence.
    + intros i. apply precedes_app; [apply HA|].
      intros l1 e l2 Hevs Hk.
      assert (e ∈ evs) as He
        by (rewrite Hevs; apply elem_of_app; right; apply list_elem_of_here).
      pose proof (Moves_events _ _ _ _ _ HM He) as Hi.
      rewrite Hk in Hi. simpl in Hi. subst i.
      destruct HM as [op Hp|op Hp Hno|op edit Hp Ho Hsz|op edit r Hp].
      * split_events Hevs Hk.
      * destruct (phase op); split_events Hevs Hk.
      * destruct Hp as [Hp|Hp]; rewrite Hp in Hevs; split_events Hevs Hk.
        -- exists (UpdateInvoked i0). split; [|done].
           apply elem_of_app. right. apply list_elem_of_here.
        -- destruct (occurrences_elem Invoked i0 (trace s)) as (e' & ? & ?).
           { rewrite Hold. unfold expected. rewrite Hp. lia. }
           exists e'. split; [|done]. apply elem_of_app. by left.
      * split_events Hevs Hk.
    + intros i. apply precedes_app; [apply HA|].
      intros l1 e l2 Hevs Hk.
      assert (e ∈ evs) as He
        by (rewrite Hevs; apply elem_of_app; right; apply list_elem_of_here).
      pose proof (Moves_events _ _ _ _ _ HM He) as Hi.
      rewrite Hk in Hi. simpl in Hi. subst i.
      destruct HM as [op Hp|op Hp Hno|op edit Hp Ho Hsz|op edit r Hp].
      * split_events Hevs Hk.
      * destruct (phase op); split_events Hevs Hk.
      * destruct (phase op); split_events Hevs Hk.
      * split_events Hevs Hk.
        destruct (occurrences_elem Started i0 (trace s)) as (e' & ? & ?).
        { rewrite Hold. unfold expected. rewrite Hp. lia. }
        exists e'. split; [|done]. apply elem_of_app. by left.
Qed.

Lemma exec_accounted acts s s' :
  Sound s → Accounted s → exec acts s = Some s' → Accounted s'.
Proof.
  revert s. induction acts as [|a acts IH]; intros s HS HA; simpl.
  - by intros [= <-].
  - destruct (step a s) as [s1|] eqn:Hstep; [|done].
    apply IH; [by eapply step_sound|by eapply step_accounted].
Qed.

Lemma init_indexed : Indexed init.
Proof. split; simpl; intros *; done. Qed.

Lemma step_indexed a s s' :
  isClear a = false → Sound s → Indexed s → step a s = Some s' → Indexed s'.
Proof.
  intros Hclear HS HI Hstep. pose proof (step_shape _ _ _ Hstep) as Hshape.
  destruct Hshape as [Hsame _ _ Hmap|k prev u Hnew _ Hmap Hprev
                     |i0 op0 op0' evs Hop0 Hmove _ Hmap _ HM].
  - specialize (Hmap Hclear). split; rewrite ?Hsame, ?Hmap; apply HI.
  - set (n := length (operations s)) in *.
    assert (∀ i op, operations s' !! i = Some op →
              (i < n ∧ operations s !! i = Some op) ∨
              (i = n ∧ key op = k ∧ pendingUpdates op = prev)) as Hcases.
    { intros i op. rewrite Hnew.
      intros [Hop|[Hi Hop]]%lookup_app_Some.
      - left. split; [by eapply lookup_lt_Some|done].
      - right. apply list_lookup_singleton_Some in Hop as [Hi' <-].
        split; [unfold n; lia|done]. }
    assert (∀ i op, operations s !! i = Some op →
              operations s' !! i = Some op) as Hold.
    { intros i op Hop. rewrite Hnew. by apply lookup_app_l_Some. }
    assert (∃ opn, operations s' !! n = Some opn ∧ key opn = k)
      as (opn & Hopn & Hkn).
    { eexists. rewrite Hnew. split; [by apply list_lookup_middle|done]. }
    assert (∀ i op, operations s !! i = Some op → key op = k →
              prev ≠ PromiseResolve →
              ∃ j' opj', prev = aggregatedPromise j' ∧ i ≤ j' < n ∧
                         operations s !! j' = Some opj' ∧ key opj' = k)
      as Hchain.
    { intros i op Hop Hk Hne.
      destruct (has (notebook k) s); [|done]. unfold get in Hprev.
      destruct (indexed_last _ HI _ _ Hop) as (j' & opj' & Hlast & ? & ? & ?).
      rewrite Hk in Hlast. rewrite Hlast in Hprev. simpl in Hprev.
      exists j', opj'. split_and!; try done; try congruence.
      by eapply lookup_lt_Some. }
    split.
    + intros i op Hop. rewrite Hmap.
      destruct (decide (key op = k)) as [Hk|Hne].
      * exists n, opn. rewrite Hk, lookup_insert_eq.
        split_and!; try done. destruct (Hcases _ _ Hop) as [[]|[]]; lia.
      * rewrite lookup_insert_ne by done.
        destruct (Hcases _ _ Hop) as [[_ Hop']|(_ & ? & _)]; [|done].
        destruct (indexed_last _ HI _ _ Hop') as (j & opj & ? & ? & ? & ?).
        exists j, opj. split_and!; try done. by apply Hold.
    + intros i j opi opj Hij Hopi Hopj Hk Hp.
      destruct (Hcases _ _ Hopj) as [[Hj Hopj']|(-> & Hkj & Hpj)].
      * destruct (Hcases _ _ Hopi) as [[_ Hopi']|[? _]]; [|lia].
        destruct (indexed_prev _ HI _ _ _ _ Hij Hopi' Hopj' Hk Hp)
          as (j' & opj' & ? & ? & ? & ?).
        exists j', opj'. split_and!; try done; try lia. by apply Hold.
      * destruct (Hcases _ _ Hopi) as [[_ Hopi']|[? _]]; [|lia].
        rewrite Hpj in *.
        destruct (Hchain i opi) as (j' & opj' & ? & ? & ? & ?);
          [done|congruence|done|].
        exists j', opj'. split_and!; try done; try congruence; try lia.
        by apply Hold.
    + intros m j opm opj Hmj Hopm Hopj Hk.
      destruct (Hcases _ _ Hopj) as [[Hj Hopj']|(-> & Hkj & Hpj)].
      * destruct (Hcases _ _ Hopm) as [[_ Hopm']|[? _]]; [|lia].
        by eapply (indexed_notebook _ HI m j).
      * destruct (Hcases _ _ Hopm) as [[_ Hopm']|[? _]]; [|lia].
        rewrite Hpj, Hkj in *.
        destruct (indexed_last _ HI _ _ Hopm') as (j' & _ & Hlast & _).
        rewrite Hk in Hlast. unfold has, get in Hprev.
        rewrite Hlast in Hprev.
        destruct (pendingCellUpdates s !! k); simpl in Hprev; congruence.
  - pose proof (Moves_sameCall _ _ _ _ HM) as (Hk & Hp & Hu).
    assert (i0 < length (operations s)) as Hlt by (by eapply lookup_lt_Some).
    assert (∀ i op, operations s' !! i = Some op →
              ∃ op1, operations s !! i = Some op1 ∧ sameCall op1 op)
      as Hback.
    { intros i op. rewrite Hmove. destruct (decide (i0 = i)) as [->|Hne].
      - rewrite list_lookup_insert_eq by done. intros; simplify_eq.
        by exists op0.
      - rewrite list_lookup_insert_ne by done. intros. exists op.
        split; [done|apply sameCall_refl]. }
    split.
    + intros i op (op1 & Hop1 & Hk1 & _)%Hback. rewrite Hmap.
      destruct (indexed_last _ HI i op1) as (j & opj & ? & ? & Hopj & ?);
        [done|].
      destruct (step_keeps _ _ _ _ _ Hstep Hopj) as (opj' & ? & Hkj & _).
      exists j, opj'. split_and!; try done; congruence.
    + intros i j opi opj Hij (opi1 & Hopi1 & Hki1 & _)%Hback
        (opj1 & Hopj1 & Hkj1 & Hpj1 & _)%Hback Hkey Hprev.
      destruct (indexed_prev _ HI i j opi1 opj1)
        as (j' & opj' & ? & ? & Hopj' & ?); [done|done|done|congruence|congruence|].
      destruct (step_keeps _ _ _ _ _ Hstep Hopj') as (opj'' & ? & Hkj' & _).
      exists j', opj''. split_and!; try done; try lia; congruence.
    + intros m j opm opj Hmj (opm1 & Hopm1 & Hkm1 & _)%Hback
        (opj1 & Hopj1 & Hkj1 & Hpj1 & _)%Hback Hkey.
      rewrite Hpj1. eapply (indexed_notebook _ HI m j); [done..|congruence].
Qed.

Lemma exec_indexed acts s s' :
  forallb (λ a, negb (isClear a)) acts = true →
  Sound s → Indexed s → exec acts s = Some s' → Indexed s'.
Proof.
  revert s. induction acts as [|a acts IH]; intros s Hclear HS HI; simpl.
  - by intros [= <-].
  - simpl in Hclear. apply andb_prop in Hclear as [Ha Hacts].
    destruct (step a s) as [s1|] eqn:Hstep; [|done].
    apply IH; [done|by eapply step_sound|].
    eapply step_indexed; [|done..]. by destruct (isClear a).
Qed.

(** The update callback of a call is invoked at most once and its edit is
    handed to [applyEdit] at most once, after the callback, and an apply
    ends only after it was started. *)
Theorem callbacks_run_once acts s i :
  exec acts init = Some s →
  occurrences Ended i (trace s) ≤ occurrences Started i (trace s) ∧
  occurrences Started i (trace s) ≤ occurrences Invoked i (trace s) ∧
  occurrences Invoked i (trace s) ≤ 1 ∧
  precedes (Invoked, i) (Started, i) (trace s) ∧
  precedes (Started, i) (Ended, i) (trace s).
Proof.
  intros Hexec.
  pose proof (exec_accounted _ _ _ init_sound init_accounted Hexec) as HA.
  split_and!; try apply HA.
  all: destruct (operations s !! i) as [op|] eqn:Hop;
    [rewrite !(accounted_count _ HA _ _ _ Hop); unfold expected;
     destruct (phase op), (deferred op); simpl; lia|].
  all: apply lookup_ge_None in Hop;
    rewrite !occurrences_none; [lia|..];
    intros e He%(accounted_known _ HA) Hk; rewrite Hk in He; simpl in He; lia.
Qed.

(** Once a call has been made with the notebook itself as the key, the
    calls that follow for one key of that notebook are chained: the later
    one has not started unless the earlier one is finished. *)
Theorem updates_serialised_after_notebook_call acts s n i j opn opi opj :
  exec acts init = Some s →
  forallb (λ a, negb (isClear a)) acts = true →
  n < i → i < j →
  operations s !! n = Some opn → operations s !! i = Some opi →
  operations s !! j = Some opj →
  key opn = notebook (key opi) → key opi = key opj →
  (phase opj ≠ Queued → phase opi = Finished) ∧
  inFlight (phase opi) && inFlight (phase opj) = false.
Proof.
  intros Hexec Hclear Hni Hij Hopn Hopi Hopj Hkn Hk.
  pose proof (exec_sound _ _ _ init_sound Hexec) as HS.
  pose proof (exec_indexed _ _ _ Hclear init_sound init_indexed Hexec) as HI.
  assert (phase opj ≠ Queued → phase opi = Finished) as Hord.
  { clear Hclear Hexec. revert opj Hij Hopj Hk.
    induction (lt_wf j) as [j _ IH]. intros opj Hij Hopj Hk Hstarted.
    assert (pendingUpdates opj ≠ PromiseResolve) as Hne.
    { eapply (indexed_notebook _ HI n j); [lia|done..|congruence]. }
    destruct (indexed_prev _ HI _ _ _ _ Hij Hopi Hopj Hk Hne)
      as (j' & opj' & Hprev & Hj' & Hopj' & Hkj').
    pose proof (sound_started _ HS _ _ Hopj Hstarted) as Hset.
    rewrite Hprev in Hset. simpl in Hset. rewrite Hopj' in Hset.
    assert (phase opj' = Finished) as Hfin by (by destruct (phase opj')).
    destruct (decide (i = j')) as [->|Hne']; [congruence|].
    apply (IH j' (proj2 Hj') opj'); [lia|done|congruence|congruence]. }
  split; [done|].
  destruct (phase opj) eqn:Hpj; try (by rewrite andb_false_r);
    rewrite Hord; done.
Qed.

(** A call is answered with the [TypeError] of [undefined.finally] exactly
    when its notebook is open and has been used as a key while the key of
    the call has not; the state is then left as it is. *)
Theorem call_throws_exactly_when acts s k u :
  exec acts init = Some s →
  forallb (λ a, negb (isClear a)) acts = true →
  (chainWithPendingUpdates k u s = (s, Immediately (Rejected TypeError)) ↔
   isClosed (notebook k) s = false ∧ used (notebook k) s ∧ ¬ used k s) ∧
  (snd (chainWithPendingUpdates k u s) = Immediately (Rejected TypeError) →
   fst (chainWithPendingUpdates k u s) = s).
Proof.
  intros Hexec Hclear.
  pose proof (exec_sound _ _ _ init_sound Hexec) as HS.
  pose proof (exec_indexed _ _ _ Hclear init_sound init_indexed Hexec) as HI.
  assert (∀ k', has k' s = true ↔ used k' s) as Hhas.
  { intros k'. unfold has, used. split.
    - destruct (pendingCellUpdates s !! k') as [p|] eqn:Hp; [|done].
      intros _. destruct (sound_map_key _ HS _ _ Hp) as (op & ? & ?). eauto.
    - intros (i & op & Hop & <-).
      by destruct (indexed_last _ HI _ _ Hop) as (j & _ & -> & _). }
  unfold chainWithPendingUpdates.
  destruct (isClosed (notebook k) s); [split; [split|]; [done|by intros []|done]|].
  destruct (has (notebook k) s) eqn:Hnb.
  - apply Hhas in Hnb. unfold get.
    destruct (pendingCellUpdates s !! k) as [p|] eqn:Hp; simpl.
    + split; [|done]. split; [done|]. intros (_ & _ & Hnot).
      destruct Hnot. apply Hhas. unfold has. by rewrite Hp.
    + split; [|done]. split; [|done]. intros _. split_and!; [done..|].
      intros Hused%Hhas. unfold has in Hused. by rewrite Hp in Hused.
  - split; [|done]. split; [done|]. intros (_ & Hused%Hhas & _). congruence.
Qed.

(** [clearPendingChainedUpdatesForTests] forgets the chains of one notebook
    and of no other.  The entry of the document and the entry of every cell
    it lists are gone; every other key keeps its entry as it was, be it a
    key of another notebook or a cell of this notebook that is not listed;
    the operations, the trace and the closed documents stay; and the next
    call for that notebook or one of its cells waits for nothing, whatever
    is still in flight for it.  Without an active editor nothing changes. *)
Theorem clear_forgets_one_notebook s d cells :
  let t := clearPendingChainedUpdatesForTests (Some (d, cells)) s in
  operations t = operations s ∧ trace t = trace s ∧ closed t = closed s ∧
  pendingCellUpdates t !! NotebookDocument d = None ∧
  (∀ c, c ∈ cells → pendingCellUpdates t !! NotebookCell d c = None) ∧
  (∀ k, k ≠ NotebookDocument d → (∀ c, c ∈ cells → k ≠ NotebookCell d c) →
        pendingCellUpdates t !! k = pendingCellUpdates s !! k) ∧
  (∀ k, documentId k ≠ d →
        pendingCellUpdates t !! k = pendingCellUpdates s !! k) ∧
  (∀ k u, documentId k = d → isClosed k s = false →
          chainWithPendingUpdates k u t =
            (enqueue k u PromiseResolve t,
             DeferredPromise (length (operations s))) ∧
          is_Some (step (Run (length (operations s)))
                        (enqueue k u PromiseResolve t))) ∧
  clearPendingChainedUpdatesForTests None s = s.
Proof.
  intros t.
  assert (∀ k, k ≠ NotebookDocument d →
               (∀ c, c ∈ cells → k ≠ NotebookCell d c) →
               pendingCellUpdates t !! k = pendingCellUpdates s !! k) as Hkept.
  { intros k Hdoc Hcells. subst t. simpl.
    rewrite lookup_not_cleared by done. by apply lookup_delete_ne. }
  split_and!; [done..| | |exact Hkept| | |done].
  - subst t. simpl. apply lookup_cleared. left. apply lookup_delete_eq.
  - intros c Hc. subst t. simpl. apply lookup_cleared. right. eauto.
  - intros k Hk. apply Hkept.
    + intros ->. by apply Hk.
    + intros c _ ->. by apply Hk.
  - intros k u Hk Hopen.
    assert (has (notebook k) t = false) as Hhas.
    { unfold has. subst t. simpl. rewrite lookup_cleared; [done|].
      left. replace (notebook k) with (NotebookDocument d)
        by (destruct k; simpl in *; congruence).
      apply lookup_delete_eq. }
    assert (isClosed (notebook k) t = false) as Hopen'.
    { rewrite <-Hopen. by destruct k. }
    unfold chainWithPendingUpdates. rewrite Hopen', Hhas. split; [done|].
    simpl. rewrite lookup_app_r, Nat.sub_diag by done. simpl.
    by destruct (returnsPromise u); [|unfold afterUpdate; repeat case_match].
Qed.

End MoreUpdateChain.

Section MoreUpdateChainExamples.
Import NotebookUpdater UpdateChainInvariants.

Lemma callbacks_run_once_witness :
  let acts := [Call (NotebookDocument 0) (syncEdit 1); Run 0;
               ApplySettles 0 (Applied true)] in
  exec acts init = Some (after acts) ∧
  trace (after acts) = [UpdateInvoked 0; ApplyStarted 0;
                        ApplyEnded 0 (Applied true)] ∧
  occurrences Invoked 0 (trace (after acts)) ≤ 1.
Proof.
  intros acts. split; [by vm_compute|]. split; [by vm_compute|].
  apply (callbacks_run_once acts (after acts) 0). by vm_compute.
Defined.

Lemma updates_serialised_after_notebook_call_witness :
  let c := NotebookCell 0 3 in
  let acts := [Call c (syncEdit 1); Call (NotebookDocument 0) (syncEdit 2);
               Call c (syncEdit 3); Run 0; ApplySettles 0 (Applied true);
               Run 2; Call c (syncEdit 4)] in
  let opn := {| key := NotebookDocument 0; pendingUpdates := PromiseResolve;
                update := syncEdit 2; phase := Queued;
                deferred := Pending |} in
  let opi := {| key := c; pendingUpdates := aggregatedPromise 0;
                update := syncEdit 3; phase := Applying (editOf 3);
                deferred := Pending |} in
  let opj := {| key := c; pendingUpdates := aggregatedPromise 2;
                update := syncEdit 4; phase := Queued;
                deferred := Pending |} in
  exec acts init = Some (after acts) ∧
  operations (after acts) !! 1 = Some opn ∧
  operations (after acts) !! 2 = Some opi ∧
  operations (after acts) !! 3 = Some opj ∧
  inFlight (phase opi) && inFlight (phase opj) = false.
Proof.
  intros c acts opn opi opj.
  split; [by vm_compute|]. split; [by vm_compute|].
  split; [by vm_compute|]. split; [by vm_compute|].
  apply (updates_serialised_after_notebook_call acts (after acts) 1 2 3
           opn opi opj); by vm_compute.
Defined.

Lemma call_throws_exactly_when_witness :
  let acts := [Call (NotebookDocument 0) (syncEdit 1)] in
  let k := NotebookCell 0 3 in
  exec acts init = Some (after acts) ∧
  chainWithPendingUpdates k (syncEdit 2) (after acts) =
    (after acts, Immediately (Rejected TypeError)) ∧
  used (notebook k) (after acts).
Proof.
  intros acts k. split; [by vm_compute|].
  assert (chainWithPendingUpdates k (syncEdit 2) (after acts) =
            (after acts, Immediately (Rejected TypeError))) as Hthrows
    by by vm_compute.
  split; [exact Hthrows|].
  apply (proj1 (proj1 (call_throws_exactly_when acts (after acts) k
                         (syncEdit 2) eq_refl eq_refl)) Hthrows).
Defined.

End MoreUpdateChainExamples.


(** * More on the cell buttons *)

Section MoreButtons.
Import CellButtons CellButtonCommands.

Implicit Types (s : State) (b : Button) (id : string).

Lemma create_buttons id cb icon status tip s :
  externalButtons (fst (createWebviewCellButton id cb icon status tip s)) =
    if decide (id ∈ ids s) then externalButtons s
    else externalButtons s ++
         [{| buttonId := id; callback := Some cb; codicon := icon;
             statusToEnable := status; tooltip := tip; running := false |}].
Proof.
  case_decide as Hin.
  - by rewrite create_present.
  - by apply create_absent.
Qed.

Lemma dispose_filter d s :
  NoDup (ids s) →
  externalButtons (dispose d s) =
    filter (λ b, buttonId b ≠ disposes d) (externalButtons s).
Proof.
  intros Hnd.
  destruct (dispose_cases d s) as [[Hd ->]|(l1 & b & l2 & Hl & Hb & H1 & Hd)].
  - symmetry. by apply filter_other_ids.
  - rewrite Hd, Hl. unfold ids in Hnd. rewrite Hl, fmap_app, fmap_cons in Hnd.
    apply NoDup_app in Hnd as (_ & Hdis & [H2 _]%NoDup_cons).
    rewrite Hb in H2.
    rewrite filter_app, filter_cons_False by (intros ?; congruence).
    by rewrite !filter_other_ids.
Qed.

(** A change of the list is posted at once, with the callbacks taken out,
    and only a change is posted. *)
Lemma apply_posted s o :
  (apply s o = s) ∨
  (posted (apply s o) =
     posted s ++ [withoutCallback <$> externalButtons (apply s o)]).
Proof.
  destruct o as [id cb icon status tip|d]; unfold apply.
  - destruct (decide (id ∈ ids s)) as [Hin|Hin].
    + left. by rewrite create_present.
    + right. unfold createWebviewCellButton, findIndex.
      destruct (findIndexFrom_cases (hasId id) (externalButtons s) 0)
        as [[-> _]|(l1 & x & l2 & Hl & Hx & _ & _)]; [done|done|].
      exfalso. apply Hin. unfold ids. rewrite Hl, fmap_app, fmap_cons.
      apply elem_of_app. right. apply elem_of_cons. left.
      symmetry. by apply bool_decide_eq_true in Hx.
  - unfold dispose, findIndex.
    destruct (findIndexFrom_cases (hasId (disposes d)) (externalButtons s) 0)
      as [[-> Hall]|(l1 & x & l2 & Hl & Hx & Hall & ->)]; [done|..].
    + by left.
    + right. by rewrite decide_True by lia.
Qed.

Lemma fmap_withoutCallback_idemp (l : list Button) :
  withoutCallback <$> (withoutCallback <$> l) = withoutCallback <$> l.
Proof. rewrite <-list_fmap_compose. by apply list_fmap_ext. Qed.

Lemma lastPosted_snoc s m l :
  posted s = l ++ [m] → lastPosted s = m.
Proof. unfold lastPosted. intros ->. by rewrite last_snoc. Qed.

Lemma perform_in_sync s c : InSync s → InSync (perform s c).
Proof.
  intros [Hnd Hcb Hp]. destruct c as [o|threw].
  - simpl. split.
    + by apply apply_NoDup.
    + destruct o as [id cb icon status tip|d]; unfold apply.
      * rewrite create_buttons. case_decide; [done|].
        apply Forall_app. split; [done|]. by repeat constructor.
      * rewrite dispose_filter by done. rewrite Forall_forall in *.
        intros b [_ Hb]%list_elem_of_filter. by apply Hcb.
    + destruct (apply_posted s o) as [->|Hpost]; [done|].
      rewrite (lastPosted_snoc _ _ _ Hpost).
      apply fmap_withoutCallback_idemp.
  - simpl. unfold commandDone. case_match; [by split|].
    split; [done|done|]. unfold lastPosted. simpl. by rewrite last_snoc.
Qed.

Lemma runCommands_in_sync cs : InSync (runCommands cs).
Proof.
  unfold runCommands. induction cs as [|c cs IH] using rev_ind.
  - by split; [apply NoDup_nil_2|constructor|].
  - rewrite foldl_app. simpl. by apply perform_in_sync.
Qed.

(** After any sequence of button calls, disposals and executed commands:
    no identifier is twice in the list, every button of the list has its
    callback, and the message posted last lists the buttons as they are now,
    up to the callbacks. *)
Theorem webview_has_current_buttons cs :
  let s := runCommands cs in
  NoDup (ids s) ∧
  Forall (λ b, is_Some (callback b)) (externalButtons s) ∧
  withoutCallback <$> lastPosted s = withoutCallback <$> externalButtons s.
Proof. intros s. by destruct (runCommands_in_sync cs). Qed.

Lemma find_hasId id s :
  NoDup (ids s) →
  ∀ b, List.find (hasId id) (externalButtons s) = Some b ↔
       b ∈ externalButtons s ∧ buttonId b = id.
Proof.
  unfold ids. induction (externalButtons s) as [|x l IH]; intros Hnd b.
  - split; [done|]. by intros [?%elem_of_nil _].
  - rewrite fmap_cons in Hnd. apply NoDup_cons in Hnd as [Hx Hnd].
    simpl. unfold hasId at 1. case_bool_decide as Hid.
    + split.
      * intros [= <-]. split; [apply list_elem_of_here|done].
      * intros [[->|Hin]%elem_of_cons Hb]; [done|].
        destruct Hx. apply list_elem_of_fmap. exists b. by rewrite Hid.
    + rewrite (IH Hnd b). split.
      * intros [Hin Hb]. split; [by apply list_elem_of_further|done].
      * intros [[->|Hin]%elem_of_cons Hb]; [done|done].
Qed.

Lemma init_registers : Registers ∅ init.
Proof.
  intros id cb. split; [done|]. by intros (b & ?%elem_of_nil & _).
Qed.

Lemma perform_registers m s c :
  InSync s → Registers m s → Registers (register m c) (perform s c).
Proof.
  intros [Hnd Hcb _] Hm.
  assert (∀ id, id ∈ ids s ↔ is_Some (m !! id)) as Hids.
  { intros id. unfold ids. rewrite list_elem_of_fmap. split.
    - intros (b & -> & Hb). rewrite Forall_forall in Hcb.
      destruct (Hcb b Hb) as [cb Hcb']. exists cb. apply Hm. eauto.
    - intros [cb (b & Hb & <- & _)%Hm]. eauto. }
  destruct c as [[id cb icon status tip|d]|threw]; cbn [register perform].
  - (* a call *)
    intros id' cb'. unfold apply. rewrite create_buttons.
    destruct (m !! id) as [cb0|] eqn:Hid.
    + rewrite decide_True by (apply Hids; by rewrite Hid). apply Hm.
    + rewrite decide_False by (rewrite Hids, Hid; by intros []).
      rewrite lookup_insert_Some. split.
      * intros [[<- <-]|[Hne Hm']].
        -- eexists. split; [apply elem_of_app; right; apply list_elem_of_here|].
           done.
        -- apply Hm in Hm' as (b & Hb & ? & ?). exists b.
           split; [apply elem_of_app; by left|done].
      * intros (b & [Hb|Hb%list_elem_of_singleton]%elem_of_app & Hb1 & Hb2).
        -- right. split.
           ++ intros <-. assert (is_Some (m !! id)) as [? ?]; [|congruence].
              apply Hids. unfold ids. apply list_elem_of_fmap. eauto.
           ++ apply Hm. eauto.
        -- left. subst b. simpl in *. by simplify_eq.
  - (* a disposal *)
    intros id' cb'. unfold apply. rewrite dispose_filter by done.
    rewrite lookup_delete_Some. split.
    + intros [Hne (b & Hb & ? & ?)%Hm]. exists b. split; [|done].
      apply list_elem_of_filter. split; [congruence|done].
    + intros (b & [Hne Hb]%list_elem_of_filter & <- & Hb2).
      split; [done|]. apply Hm. eauto.
  - (* the end of a command *)
    unfold commandDone. by destruct threw.
Qed.

Lemma runCommands_registers cs : Registers (registered cs) (runCommands cs).
Proof.
  unfold registered, runCommands. induction cs as [|c cs IH] using rev_ind.
  - apply init_registers.
  - rewrite !foldl_app. simpl.
    apply perform_registers; [apply runCommands_in_sync|done].
Qed.

(** The buttons behave as a map from identifiers to callbacks.  An executed
    command calls the callback registered for the identifier in its payload,
    and none when the cell could not be translated or nothing is
    registered: the callback of the first call that named the identifier
    since it was last free, whatever callbacks later calls with the same
    identifier brought. *)
Theorem command_calls_registered_callback cs id cell :
  handleExecuteExternalCommand id cell (runCommands cs) =
    match cell with
    | Some _ => registered cs !! id
    | None => None
    end.
Proof.
  pose proof (runCommands_in_sync cs) as [Hnd Hcb _].
  pose proof (runCommands_registers cs) as Hm.
  unfold handleExecuteExternalCommand.
  destruct (List.find (hasId id) (externalButtons (runCommands cs)))
    as [b|] eqn:Hfind.
  - destruct cell as [c|]; [|done].
    apply (find_hasId id _ Hnd) in Hfind as [Hb Hid].
    rewrite Forall_forall in Hcb. destruct (Hcb b Hb) as [cb Hcb'].
    rewrite Hcb'. symmetry. apply Hm. eauto.
  - destruct cell as [c|]; [|done].
    destruct (registered cs !! id) as [cb|] eqn:Hreg; [|done].
    apply Hm in Hreg as (b & Hb & Hid & _).
    assert (List.find (hasId id) (externalButtons (runCommands cs)) = Some b)
      as Hsome by (by apply find_hasId).
    congruence.
Qed.

Lemma run_app ops1 ops2 : run (ops1 ++ ops2) = foldl apply (run ops1) ops2.
Proof. unfold run. by rewrite foldl_app. Qed.

Lemma filter_filter_comm (P Q : Button → Prop)
    `{!∀ b, Decision (P b), !∀ b, Decision (Q b)} (l : list Button) :
  filter P (filter Q l) = filter Q (filter P l).
Proof.
  induction l as [|b l IH]; [done|].
  rewrite !filter_cons. repeat case_decide; rewrite ?filter_cons;
    repeat case_decide; try done; by rewrite IH.
Qed.

(** A call or disposal that names another identifier does the same to the
    list with and without the button [id]. *)
Lemma apply_other_id id s s' o :
  opId o ≠ id → NoDup (ids s) → NoDup (ids s') →
  filter (λ b, buttonId b ≠ id) (externalButtons s) = externalButtons s' →
  filter (λ b, buttonId b ≠ id) (externalButtons (apply s o)) =
    externalButtons (apply s' o).
Proof.
  intros Hid Hnd Hnd' Heq.
  assert (∀ id', id' ≠ id → id' ∈ ids s ↔ id' ∈ ids s') as Hids.
  { intros id' Hne. unfold ids. rewrite <-Heq, !list_elem_of_fmap.
    split; intros (b & -> & Hb); exists b; (split; [done|]).
    - by apply list_elem_of_filter.
    - by apply list_elem_of_filter in Hb as [_ ?]. }
  destruct o as [id' cb icon status tip|d]; unfold apply; simpl in Hid.
  - rewrite !create_buttons.
    destruct (decide (id' ∈ ids s)) as [Hin|Hin].
    + rewrite decide_True by (by apply Hids). done.
    + rewrite decide_False by (by rewrite <-Hids).
      rewrite filter_app, Heq. f_equal.
      by rewrite filter_cons_True, filter_nil.
  - rewrite !dispose_filter by done.
    by rewrite filter_filter_comm, Heq.
Qed.

Lemma foldl_other_id id ops s s' :
  Forall (λ o, opId o ≠ id) ops → NoDup (ids s) → NoDup (ids s') →
  filter (λ b, buttonId b ≠ id) (externalButtons s) = externalButtons s' →
  filter (λ b, buttonId b ≠ id) (externalButtons (foldl apply s ops)) =
    externalButtons (foldl apply s' ops).
Proof.
  intros Hother. revert s s'.
  induction Hother as [|o ops Ho _ IH]; intros s s' Hnd Hnd' Heq; [done|].
  cbn [foldl]. apply IH; [by apply apply_NoDup..|by apply apply_other_id].
Qed.

(** A button made with a new identifier and disposed later is gone without
    a trace: if nothing in between names its identifier, the list is what it
    would be had the button never been made.  And the disposable can be used
    twice: the second time changes nothing, not even what was posted. *)
Theorem button_leaves_no_trace ops1 ops2 id cb icon status tip :
  id ∉ ids (run ops1) →
  Forall (λ o, opId o ≠ id) ops2 →
  let d := snd (createWebviewCellButton id cb icon status tip (run ops1)) in
  let s := run (ops1 ++ [Create id cb icon status tip] ++ ops2) in
  externalButtons (dispose d s) = externalButtons (run (ops1 ++ ops2)) ∧
  dispose d (dispose d s) = dispose d s.
Proof.
  intros Hfresh Hother d s.
  assert (d = {| disposes := id |}) as -> by done.
  assert (NoDup (ids s)) as Hnd by apply run_NoDup.
  split.
  - rewrite dispose_filter by done. cbn [disposes]. subst s.
    rewrite !run_app. cbn [foldl app].
    pose proof (run_NoDup ops1) as Hnd1.
    apply foldl_other_id; [done|by apply apply_NoDup|done|].
    unfold apply. rewrite create_buttons, decide_False by done.
    rewrite filter_app, filter_cons_False, filter_nil, app_nil_r
      by (simpl; intros ?; congruence).
    by apply filter_other_ids.
  - destruct (dispose_cases {| disposes := id |} (dispose {| disposes := id |} s))
      as [[_ ?]|(l1 & b & l2 & Hl & Hb & _)]; [done|].
    rewrite dispose_filter in Hl by done.
    assert (b ∈ filter (λ b, buttonId b ≠ id) (externalButtons s)) as Hin.
    { simpl in Hl. rewrite Hl. apply elem_of_app. right. by left. }
    apply list_elem_of_filter in Hin as [Hne _]. by destruct Hne.
Qed.

End MoreButtons.

Section MoreButtonsExamples.
Import CellButtons CellButtonCommands.

Lemma button_leaves_no_trace_witness :
  let ops1 := [Create "run" 1 "play" [] "Run the cell"] in
  let ops2 := [Create "debug" 3 "bug" [] "Debug the cell";
               Dispose {| disposes := "run" |}] in
  let d := {| disposes := "stop" |} in
  let s := run (ops1 ++ [Create "stop" 2 "square" [] "Stop the cell"] ++ ops2)
  in
  ids s = ["stop"; "debug"] ∧
  ids (dispose d s) = ["debug"] ∧
  externalButtons (dispose d s) = externalButtons (run (ops1 ++ ops2)).
Proof.
  intros ops1 ops2 d s. split; [by vm_compute|]. split; [by vm_compute|].
  apply (button_leaves_no_trace ops1 ops2 "stop" 2 "square" []
           "Stop the cell").
  - intros Hin. vm_compute in Hin. by apply list_elem_of_singleton in Hin.
  - unfold ops2. by repeat constructor.
Defined.

End MoreButtonsExamples.


(** * More on [submitCode] *)

Section MoreSubmitCode.
Import SubmitCode SubmitCodeRuns.

Context `{Host}.

#[local] Existing Instance Prog_bind.

(** An execution of [m] followed by [f] is an execution of [m] that
    returns, followed by one of [f], or one of [m] that throws. *)
Lemma Runs_bind {A B} (m : Prog A) (f : A → Prog B) calls o :
  Runs (bind m f) calls o ↔
  (∃ c1 a c2, calls = c1 ++ c2 ∧ Runs m c1 (Returns a) ∧ Runs (f a) c2 o) ∨
  (∃ e, Runs m calls (ThrowsError e) ∧ o = ThrowsError e).
Proof.
  revert calls. induction m as [a|e|c k IH]; intros calls; simpl.
  - split.
    + intros Hrun. left. by exists [], a, calls.
    + intros [(c1 & a' & c2 & -> & [-> [= <-]] & Hrun)|(e & [_ [=]] & _)].
      done.
  - split.
    + intros [-> ->]. right. by exists e.
    + intros [(c1 & a' & c2 & -> & [_ [=]] & _)|(e' & [-> [= <-]] & ->)].
      done.
  - split.
    + intros (x & rest & -> & Hrun). apply IH in Hrun
        as [(c1 & a & c2 & -> & Hm & Hf)|(e & Hm & ->)].
      * left. exists (reply c x :: c1), a, c2. split; [done|].
        split; [|done]. by exists x, c1.
      * right. exists e. split; [|done]. by exists x, rest.
    + intros [(c1 & a & c2 & -> & (x & rest & -> & Hm) & Hf)
             |(e & (x & rest & -> & Hm) & ->)].
      * exists x, (rest ++ c2). split; [done|]. apply IH. left.
        by exists rest, a, c2.
      * exists x, rest. split; [done|]. apply IH. right. by exists e.
Qed.

(** An execution of [try { body } finally { fin }] is one of [body], however
    it ends, followed by one of [fin]. *)
Lemma Runs_tryFinally {A B} (body : Prog A) (fin : option A → Prog B)
    calls o :
  Runs (tryFinally body fin) calls o ↔
  ∃ c1 c2 ob ofin, calls = c1 ++ c2 ∧ Runs body c1 ob ∧
                   Runs (fin (leftBy ob)) c2 ofin ∧
                   o = afterFinally ob ofin.
Proof.
  revert calls. induction body as [a|e|c k IH]; intros calls; simpl.
  - split.
    + intros Hfin. exists [], calls, (Returns a), o.
      split_and!; try done. by destruct o.
    + intros (c1 & c2 & ob & ofin & -> & [-> ->] & Hfin & ->). simpl in *.
      by destruct ofin.
  - rewrite Runs_bind. split.
    + intros [(c1 & b & c2 & -> & Hfin & [-> ->])|(e' & Hfin & ->)].
      * exists [], c1, (ThrowsError e), (Returns b).
        by rewrite app_nil_r.
      * by exists [], calls, (ThrowsError e), (ThrowsError e').
    + intros (c1 & c2 & ob & ofin & -> & [-> ->] & Hfin & ->). simpl.
      destruct ofin as [b|e']; simpl.
      * left. exists c2, b, []. by rewrite app_nil_r.
      * right. by exists e'.
  - split.
    + intros (x & rest & -> & Hrun).
      apply IH in Hrun as (c1 & c2 & ob & ofin & -> & Hb & Hf & ->).
      exists (reply c x :: c1), c2, ob, ofin. split_and!; try done.
      by exists x, c1.
    + intros (c1 & c2 & ob & ofin & -> & (x & rest & -> & Hb) & Hf & ->).
      exists x, (rest ++ c2). split; [done|]. apply IH.
      by exists rest, c2, ob, ofin.
Qed.

#[local] Arguments tryFinally : simpl never.
#[local] Arguments submitCodeBody : simpl never.
#[local] Arguments submitCodeFinally : simpl never.
#[local] Arguments onNotifications : simpl never.

Lemma Runs_bind_returns {A B} (m : Prog A) (f : A → Prog B) calls r :
  Runs (bind m f) calls (Returns r) →
  ∃ c1 a c2, calls = c1 ++ c2 ∧ Runs m c1 (Returns a) ∧
             Runs (f a) c2 (Returns r).
Proof. intros [?|(e & _ & [=])]%Runs_bind. done. Qed.

Lemma Runs_ask_bind {B} c (f : Answer c → Prog B) calls o :
  Runs (ask c ≫= f) calls o ↔
  ∃ x rest, calls = reply c x :: rest ∧ Runs (f x) rest o.
Proof. done. Qed.

Lemma Runs_awaiting_bind {B} p (f : unit → Prog B) calls o :
  Runs (awaiting p ≫= f) calls o ↔
  ∃ r rest, calls = reply (await p) r :: rest ∧
            match r with
            | None => Runs (f tt) rest o
            | Some e => rest = [] ∧ o = ThrowsError e
            end.
Proof.
  split; intros (r & rest & -> & Hrun); exists r, rest; (split; [done|]);
    by destruct r.
Qed.

(** Two lists of calls that differ in the bracketing only. *)
Ltac samecalls :=
  repeat first [rewrite <-app_assoc | rewrite <-app_comm_cons
               | progress cbn [app]];
  done.

(** Brings what is left of a bind after its first call into shape. *)
Ltac tidy H :=
  cbv beta iota in H;
  repeat (change (Prog_bind ?A ?B ?f (Ret ?x)) with (f x) in H;
          cbv beta iota in H).

(** *** What never throws *)

Lemma Total_ret {R} (r : R) : Total (Ret r).
Proof. intros calls o [_ ->]. by exists r. Qed.

Lemma Total_ask c : Total (ask c).
Proof. intros calls o (x & rest & -> & [_ ->]). by exists x. Qed.

Lemma Total_perform f : Total (perform f).
Proof. apply (Total_ask (effect f)). Qed.

Lemma Total_bind {A B} (m : Prog A) (f : A → Prog B) :
  Total m → (∀ a, Total (f a)) → Total (m ≫= f).
Proof.
  intros Hm Hf calls o
    [(c1 & x & c2 & -> & Hrun1 & Hrun2)|(e & Hrun & ->)]%Runs_bind.
  - by eapply Hf.
  - by destruct (Hm _ _ Hrun).
Qed.

Lemma Total_forEach {A} (f : A → Prog unit) l :
  (∀ x, Total (f x)) → Total (forEach f l).
Proof.
  intros Hf. induction l as [|x l IH]; cbn [forEach].
  - apply Total_ret.
  - by apply (Total_bind (f x) (λ _, forEach f l)).
Qed.

Ltac total :=
  repeat first
    [ apply Total_ret | apply Total_perform
    | match goal with |- Total (ask ?c) => apply (Total_ask c) end
    | apply Total_bind; [|intros ?] | case_match ].

Lemma Total_sendCellsToWebView cells : Total (sendCellsToWebView cells).
Proof. apply Total_forEach. intros cell. total. Qed.

Lemma Total_onCells oldData result cells :
  Total (onCells oldData result cells).
Proof.
  unfold onCells. apply Total_bind; [apply Total_sendCellsToWebView|].
  intros _. total.
Qed.

Lemma Total_onAllCells oldData result batches :
  Total (onAllCells oldData result batches).
Proof.
  revert result. induction batches as [|cells batches IH]; intros result;
    cbn [onAllCells].
  - apply Total_ret.
  - apply (Total_bind (onCells oldData result cells)
                      (λ r, onAllCells oldData r batches)); [|done].
    apply Total_onCells.
Qed.

(** The callbacks of the subscription never throw. *)
Lemma Total_onNotifications oldData result notifications :
  Total (onNotifications oldData result notifications).
Proof.
  unfold onNotifications, onEnding.
  apply Total_bind; [apply Total_onAllCells|intros ?]. total.
Qed.

(** *** The parts of an execution *)

Lemma submitCode_runs code file line id oldData debugInfo calls o :
  Runs (submitCode code file line id oldData debugInfo) calls o →
  ∃ pre stopWatch rest,
    calls = pre ++ rest ∧ Forall (λ r, isPrelude (called r) = true) pre ∧
    Runs (submitCodeChecked code file line id oldData debugInfo stopWatch)
         rest o.
Proof.
  unfold submitCode.
  intros ([] & calls1 & -> & [] & calls2 & -> & nb & calls3 & -> & Hrun).
  destruct nb.
  - destruct Hrun as (captured & calls4 & -> & Hrun). destruct captured.
    + eexists [_; _; _; _], false, calls4. split; [done|].
      split; [by repeat constructor|done].
    + destruct Hrun as ([] & calls5 & -> & Hrun).
      eexists [_; _; _; _; _], true, calls5. split; [done|].
      split; [by repeat constructor|done].
  - eexists [_; _; _], false, calls3. split; [done|].
    split; [by repeat constructor|done].
Qed.

(** The [finally] block: [status.dispose()], then, under a debugger and
    with a notebook, the callbacks of a subscription that is still on and
    the end of [stopDebugging]. *)
Lemma submitCodeFinally_runs oldData debugInfo left calls o :
  Runs (submitCodeFinally oldData debugInfo left) calls o →
  let result := default true (fst <$> left) in
  let listening := default false (snd <$> left) in
  ∃ rest, calls = reply (effect statusDispose) tt :: rest ∧
    match debugInfo with
    | None => rest = [] ∧ o = Returns result
    | Some _ =>
        (rest = [reply readNotebook false] ∧ o = Returns result) ∨
        ∃ late result' r,
          rest = reply readNotebook true ::
                 late ++ [reply (await stopDebugging) r] ∧
          (if listening
           then ∃ notifications callbacks,
                  late = reply laterNotifications notifications :: callbacks ∧
                  Runs (onNotifications oldData result notifications)
                       callbacks (Returns result')
           else late = [] ∧ result' = result) ∧
          o = match r with
              | None => Returns result'
              | Some e => ThrowsError e
              end
    end.
Proof.
  intros Hrun. unfold submitCodeFinally in Hrun. cbv zeta in Hrun |- *.
  set (result := default true (fst <$> left)) in *.
  set (listening := default false (snd <$> left)) in *.
  apply (Runs_ask_bind (effect statusDispose)) in Hrun
    as ([] & rest & -> & Hrun).
  exists rest. split; [done|]. tidy Hrun.
  destruct debugInfo as [info|]; [|done].
  apply (Runs_ask_bind readNotebook) in Hrun as (nb & rest' & -> & Hrun).
  tidy Hrun.
  destruct nb; [|left; by destruct Hrun as [-> ->]].
  right.
  apply Runs_bind in Hrun
    as [(late & result' & c2 & -> & Hlate & Hrun)|(e & Hlate & ->)].
  - apply Runs_awaiting_bind in Hrun as (r & ? & -> & Hrun).
    exists late, result', r. split_and!.
    + by destruct r; destruct Hrun as [-> _].
    + destruct listening.
      * apply (Runs_ask_bind laterNotifications) in Hlate
          as (notifications & callbacks & -> & Hlate).
        tidy Hlate. by exists notifications, callbacks.
      * by destruct Hlate as [-> [= ->]].
    + by destruct r; destruct Hrun as [_ ->].
  - exfalso. destruct listening.
    + apply (Runs_ask_bind laterNotifications) in Hlate
        as (notifications & callbacks & -> & Hlate).
      tidy Hlate. by destruct (Total_onNotifications _ _ _ _ _ Hlate).
    + by destruct Hlate as [_ [=]].
Qed.

Lemma submitCodeChecked_runs code file line id oldData debugInfo stopWatch
    calls o :
  Runs (submitCodeChecked code file line id oldData debugInfo stopWatch)
       calls o →
  ∃ settings,
    (String.length (stripFirstMarker settings code) = 0 ∧
     calls = [reply getSettings settings] ∧ o = Returns true) ∨
    (String.length (stripFirstMarker settings code) ≠ 0 ∧
     ∃ ids id' c1 c2 ob ofin,
       calls = reply getSettings settings :: reply (effect setStatus) tt ::
               ids ++ c1 ++ c2 ∧
       Forall (λ r, isIdentifier (called r) = true) ids ∧
       Runs (submitCodeBody code file line id' oldData debugInfo stopWatch)
            c1 ob ∧
       Runs (submitCodeFinally oldData debugInfo (leftBy ob)) c2 ofin ∧
       o = afterFinally ob ofin).
Proof.
  intros (settings & rest & -> & Hrun). simpl in settings, Hrun.
  exists settings.
  destruct (decide (String.length (stripFirstMarker settings code) = 0))
    as [Hz|Hnz].
  - rewrite (bool_decide_eq_true_2 _ Hz) in Hrun. destruct Hrun as [-> ->].
    by left.
  - rewrite (bool_decide_eq_false_2 _ Hnz) in Hrun. right. split; [done|].
    destruct Hrun as ([] & rest' & -> & Hrun).
    apply Runs_bind in Hrun
      as [(ids & id' & rest'' & -> & Hid & Hrun)|(e & Hid & ->)].
    + apply Runs_tryFinally in Hrun as (c1 & c2 & ob & ofin & -> & ? & ? & ->).
      exists ids, id', c1, c2, ob, ofin. split_and!; try done.
      destruct (truthy id).
      * destruct Hid as [-> _]. constructor.
      * destruct Hid as (u & ? & -> & [] & ? & -> & [-> _]).
        by repeat constructor.
    + exfalso. destruct (truthy id).
      * by destruct Hid as [_ [=]].
      * by destruct Hid as (u & ? & -> & [] & ? & -> & [_ [=]]).
Qed.

(** A [try] block that returned either found no notebook, or handed the
    code to the notebook, subscribed, and let the callbacks work until the
    wait was over. *)
Lemma submitCodeBody_returns code file line id oldData debugInfo stopWatch
    calls result listening :
  Runs (submitCodeBody code file line id oldData debugInfo stopWatch) calls
       (Returns (result, listening)) →
  (result = true ∧ listening = false) ∨
  ∃ c0 notifications callbacks,
    calls = c0 ++ reply (effect (executeObservable code file line id)) tt ::
            [reply (effect (executeEventFire code)) tt] ++
            reply subscribe notifications ::
            callbacks ++ [reply (effect (traceInfo "Finished execution")) tt] ∧
    Runs (onNotifications oldData true notifications) callbacks
         (Returns result) ∧
    listening = isOn (snd notifications).
Proof.
  unfold submitCodeBody. intros Hrun.
  apply Runs_bind_returns in Hrun as (p1 & ? & ? & -> & _ & Hrun).
  apply Runs_bind_returns in Hrun as (p2 & ? & ? & -> & _ & Hrun).
  apply Runs_bind_returns in Hrun as (p3 & ? & ? & -> & _ & Hrun).
  apply Runs_bind_returns in Hrun as (p4 & ? & ? & -> & _ & Hrun).
  apply Runs_bind_returns in Hrun as (p5 & nb & ? & -> & _ & Hrun).
  destruct nb; cbv beta iota in Hrun;
    [|left; by destruct Hrun as [_ [= <- <-]]].
  right.
  apply Runs_bind_returns in Hrun as (p6 & ? & ? & -> & _ & Hrun).
  apply Runs_bind_returns in Hrun as (p7 & ? & ? & -> & _ & Hrun).
  apply Runs_bind_returns in Hrun as (p8 & ? & ? & -> & _ & Hrun).
  apply Runs_bind_returns in Hrun as (p9 & ? & ? & -> & _ & Hrun).
  apply Runs_bind_returns in Hrun as (? & [] & ? & -> & Hobs & Hrun).
  destruct Hobs as ([] & ? & -> & [-> _]).
  apply Runs_bind_returns in Hrun as (? & [] & ? & -> & Hfire & Hrun).
  destruct Hfire as ([] & ? & -> & [-> _]).
  apply Runs_bind_returns in Hrun as (? & notifications & ? & -> & Hsub & Hrun).
  destruct Hsub as (? & ? & -> & [-> [= <-]]).
  apply Runs_bind_returns in Hrun as (callbacks & r & ? & -> & Hcb & Hrun).
  apply Runs_bind_returns in Hrun as (? & [] & ? & -> & Htrace & Hrun).
  destruct Htrace as ([] & ? & -> & [-> _]).
  destruct Hrun as [-> [= -> ->]].
  exists (p1 ++ p2 ++ p3 ++ p4 ++ p5 ++ p6 ++ p7 ++ p8 ++ p9),
    notifications, callbacks.
  split; [|done]. by rewrite <-!app_assoc.
Qed.

(** A [try] block that leaves a subscription that is still on was told so
    by [subscribe]. *)
Lemma submitCodeBody_listening code file line id oldData debugInfo stopWatch
    calls ob :
  Runs (submitCodeBody code file line id oldData debugInfo stopWatch) calls
       ob →
  default false (snd <$> leftBy ob) = true → StillOn calls.
Proof.
  destruct ob as [[result listening]|e]; [|done]. simpl.
  intros [(_ & ->)|(c0 & [batches ending] & callbacks & -> & _ & ->)]
    %submitCodeBody_returns Hon; [done|].
  destruct ending; try done. exists batches.
  apply elem_of_app. right. do 2 apply list_elem_of_further.
  apply list_elem_of_here.
Qed.

(** Whenever [submitCode] has set a status it disposes it before it is
    left, whether the [try] block returned or threw: the execution ends with
    the [status.dispose()] of the [finally] block and, under a debugger, the
    look for the notebook and the stopping of the debugger, whose failure is
    what [submitCode] then throws.  Between the start and the end of
    [stopDebugging] the callbacks of the subscription may run, and do so
    only when the wait ended with the observable still on. *)
Theorem status_always_disposed code file line id oldData debugInfo calls o :
  Runs (submitCode code file line id oldData debugInfo) calls o →
  reply (effect setStatus) tt ∈ calls →
  ∃ before after ofin,
    calls = before ++ reply (effect statusDispose) tt :: after ∧
    debuggerStopped oldData debugInfo (StillOn before) after ofin ∧
    (∀ e, ofin = ThrowsError e → o = ThrowsError e).
Proof.
  intros (pre & sw & rest & -> & Hpre & Hrun)%submitCode_runs Hin.
  apply submitCodeChecked_runs in Hrun as (settings & [(_ & -> & _)|(_ & Hrun)]).
  - exfalso. apply elem_of_app in Hin as [Hin|Hin].
    + rewrite Forall_forall in Hpre. by apply Hpre in Hin.
    + apply list_elem_of_singleton in Hin. by apply (f_equal called) in Hin.
  - destruct Hrun as (ids & id' & c1 & c2 & ob & ofin & -> & _ & Hbody & Hfin & ->).
    apply submitCodeFinally_runs in Hfin as (after & -> & Hstop).
    cbv zeta in Hstop.
    set (before := pre ++ reply getSettings settings ::
                   reply (effect setStatus) tt :: ids ++ c1).
    assert (default false (snd <$> leftBy ob) = true → StillOn before)
      as Hon.
    { intros (batches & Hb)%(submitCodeBody_listening _ _ _ _ _ _ _ _ _ Hbody).
      exists batches. unfold before. apply elem_of_app. right.
      do 2 apply list_elem_of_further. apply elem_of_app. by right. }
    assert (∀ late result',
              (if default false (snd <$> leftBy ob)
               then ∃ notifications callbacks,
                      late = reply laterNotifications notifications ::
                             callbacks ∧
                      Runs (onNotifications oldData
                              (default true (fst <$> leftBy ob))
                              notifications) callbacks (Returns result')
               else late = [] ∧ result' = default true (fst <$> leftBy ob)) →
              Meanwhile oldData (StillOn before) late) as Hlate.
    { intros late result' Hl.
      destruct (default false (snd <$> leftBy ob)).
      - right. split; [by apply Hon|].
        destruct Hl as (notifications & callbacks & -> & Hcb).
        by exists notifications, (default true (fst <$> leftBy ob)), result',
          callbacks.
      - left. by destruct Hl. }
    destruct debugInfo as [info|].
    + destruct Hstop as [[-> ->]|(late & result' & r & -> & Hl & ->)].
      * exists before, [reply readNotebook false], (Returns tt).
        split_and!; [|by left|done].
        unfold before. samecalls.
      * apply Hlate in Hl. destruct r as [e|].
        -- exists before, (reply readNotebook true ::
                           late ++ [reply (await stopDebugging) (Some e)]),
             (ThrowsError e).
           split_and!.
           ++ unfold before.
              samecalls.
           ++ right; right. by exists late, e.
           ++ intros e' [= <-]. by destruct ob.
        -- exists before, (reply readNotebook true ::
                           late ++ [reply (await stopDebugging) None]),
             (Returns tt).
           split_and!; [| |done].
           ++ unfold before.
              samecalls.
           ++ right; left. by exists late.
    + destruct Hstop as [-> ->]. exists before, [], (Returns tt).
      split_and!; [|done..].
      unfold before. samecalls.
Qed.

(** *** When the answer is [false] *)

Lemma StoppedOnError_app oldData batches l calls r :
  StoppedOnError oldData batches calls →
  StoppedOnError oldData batches (l ++ calls ++ r).
Proof.
  intros (cells & cell & settings & before & sent & after & -> &
          ? & ? & ? & ? & ?).
  exists cells, cell, settings, (l ++ before), sent, (after ++ r).
  split_and!; try done.
  samecalls.
Qed.

Lemma StoppedOnError_further oldData cells batches calls :
  StoppedOnError oldData batches calls →
  StoppedOnError oldData (cells :: batches) calls.
Proof.
  intros (cells' & cell & settings & before & sent & after & -> &
          ? & ? & ? & ? & ?).
  exists cells', cell, settings, before, sent, after.
  split_and!; try done. by apply list_elem_of_further.
Qed.

Lemma onCells_false oldData cells calls :
  Runs (onCells oldData true cells) calls (Returns false) →
  StoppedOnError oldData [cells] calls.
Proof.
  unfold onCells.
  intros (sent & [] & c2 & -> & Hsent & Hrun)%Runs_bind_returns.
  apply (Runs_ask_bind getSettings) in Hrun as (settings & rest & -> & Hrun).
  tidy Hrun.
  destruct (stopOnError settings) eqn:Hstop.
  - destruct Hrun as [-> [= Hnone]]. symmetry in Hnone.
    apply bool_decide_eq_false in Hnone.
    destruct (filter (λ c, state c = error) cells) as [|cell l] eqn:Hf;
      [done|].
    assert (cell ∈ filter (λ c, state c = error) cells) as Hin.
    { rewrite Hf. apply list_elem_of_here. }
    apply list_elem_of_filter in Hin as [Herr Hin].
    exists cells, cell, settings, [], sent, [].
    split_and!; try done. apply list_elem_of_here.
  - by destruct Hrun as [_ [=]].
Qed.

Lemma onAllCells_false oldData batches calls :
  Runs (onAllCells oldData true batches) calls (Returns false) →
  StoppedOnError oldData batches calls.
Proof.
  revert calls. induction batches as [|cells batches IH]; intros calls.
  - by intros [_ [=]].
  - cbn [onAllCells].
    intros (c1 & result & c2 & -> & Hcells & Hrest)%Runs_bind_returns.
    destruct result.
    + apply IH in Hrest. apply StoppedOnError_further.
      rewrite <-(app_nil_r c2). by apply StoppedOnError_app.
    + apply onCells_false in Hcells
        as (cells' & cell & settings & before & sent & after & -> &
            ->%list_elem_of_singleton & ? & ? & ? & ?).
      exists cells, cell, settings, before, sent, (after ++ c2).
      split_and!; try done.
      * samecalls.
      * apply list_elem_of_here.
Qed.

Lemma onNotifications_false oldData notifications calls :
  Runs (onNotifications oldData true notifications) calls (Returns false) →
  StoppedOnError oldData (fst notifications) calls.
Proof.
  unfold onNotifications.
  intros (c1 & result & c2 & -> & Hcells & Hrun)%Runs_bind_returns.
  apply Runs_bind_returns in Hrun as (? & [] & ? & -> & _ & [-> [= <-]]).
  apply onAllCells_false in Hcells.
  by apply (StoppedOnError_app _ _ []).
Qed.

(** [submitCode] answers [false] only when the code was handed to the
    notebook, the subscription brought a batch with a cell in state
    [error], and the settings read in the callback for that very batch,
    right after it was sent to the webview, asked to stop on errors; what
    the settings say at another time does not count. *)
Theorem false_only_after_error_cell code file line id oldData debugInfo
    calls :
  Runs (submitCode code file line id oldData debugInfo) calls
       (Returns false) →
  ErrorCellSeen code file line oldData calls.
Proof.
  intros (pre & sw & rest & -> & _ & Hrun)%submitCode_runs.
  apply submitCodeChecked_runs in Hrun as (settings & [(_ & _ & [=])|(_ & Hrun)]).
  destruct Hrun as (ids & id' & c1 & c2 & ob & ofin & -> & _ & Hbody & Hfin & Ho).
  destruct ofin as [r|e]; [|by destruct ob].
  destruct ob as [[result listening]|e]; [|done]. simpl in Ho.
  injection Ho as <-.
  apply submitCodeFinally_runs in Hfin as (after & -> & Hstop).
  cbv zeta in Hstop.
  cbn [leftBy default fmap option_fmap option_map fst snd] in Hstop.
  apply submitCodeBody_returns in Hbody
    as [(-> & ->)|(c0 & notifications & callbacks & -> & Hcb & ->)].
  { exfalso. destruct debugInfo as [info|].
    - destruct Hstop as [[_ [=]]|(late & result' & r & _ & [_ ->] & Hr)].
      by destruct r.
    - by destruct Hstop as [_ [=]]. }
  destruct result.
  - (* the callbacks at work while [stopDebugging] was awaited *)
    destruct debugInfo as [info|]; [|by destruct Hstop as [_ [=]]].
    destruct Hstop as [[_ [=]]|(late & result' & r & -> & Hlate & Hr)].
    destruct r as [e|]; [done|]. injection Hr as <-.
    destruct (isOn (snd notifications)); [|by destruct Hlate as [_ [=]]].
    destruct Hlate as ([batches ending] & late' & -> & Hlate).
    apply onNotifications_false in Hlate.
    exists id', (pre ++ reply getSettings settings ::
                 reply (effect setStatus) tt :: ids ++ c0),
      ([reply (effect (executeEventFire code)) tt] ++
       reply subscribe notifications :: callbacks ++
       [reply (effect (traceInfo "Finished execution")) tt] ++
       [reply (effect statusDispose) tt; reply readNotebook true]),
      (reply laterNotifications (batches, ending)),
      (late' ++ [reply (await stopDebugging) None]), batches, ending.
    split_and!; [|done|].
    + samecalls.
    + by apply (StoppedOnError_app _ _ []).
  - apply onNotifications_false in Hcb. destruct notifications as [batches ending].
    exists id', (pre ++ reply getSettings settings ::
                 reply (effect setStatus) tt :: ids ++ c0),
      [reply (effect (executeEventFire code)) tt],
      (reply subscribe (batches, ending)),
      (callbacks ++ [reply (effect (traceInfo "Finished execution")) tt] ++
       reply (effect statusDispose) tt :: after), batches, ending.
    split_and!; [|done|].
    + samecalls.
    + by apply (StoppedOnError_app _ _ []).
Qed.

Lemma stoppedAfterNotified_app l r rest :
  is_Some (notified r) → existsb stops rest = true →
  stoppedAfterNotified (l ++ r :: rest) = true.
Proof.
  intros Hr Hrest. induction l as [|r' l IH]; simpl.
  - by rewrite (bool_decide_eq_true_2 _ Hr), Hrest.
  - rewrite IH. apply orb_true_r.
Qed.

(** What [ErrorCellSeen] asks for cannot be had from settings read before
    the notification. *)
Lemma ErrorCellSeen_stopped code file line oldData calls :
  ErrorCellSeen code file line oldData calls →
  stoppedAfterNotified calls = true.
Proof.
  intros (id & c0 & c1 & r & c2 & batches & ending & -> & Hr &
          cells & cell & settings & before & sent & after & -> &
          _ & _ & _ & _ & Hstop).
  rewrite app_comm_cons, app_assoc. apply stoppedAfterNotified_app.
  - by rewrite Hr.
  - rewrite !existsb_app. simpl. rewrite Hstop.
    by rewrite orb_true_r, orb_true_r.
Qed.

(** *** Rejections *)

Lemma Rethrows_ret {R} (r : R) : Rethrows (Ret r).
Proof. intros calls o a e [-> _] Hin. by apply elem_of_nil in Hin. Qed.

Lemma Rethrows_raise {R} (e : Error) : Rethrows (Raise (R:=R) e).
Proof. intros calls o a e' [-> _] Hin. by apply elem_of_nil in Hin. Qed.

Lemma Rethrows_ask c : (∀ a, c ≠ await a) → Rethrows (ask c).
Proof.
  intros Hc calls o a e (x & rest & -> & [-> _]) Hin.
  apply list_elem_of_singleton in Hin. apply (f_equal called) in Hin.
  simpl in Hin. by destruct (Hc a).
Qed.

Lemma Rethrows_perform f : Rethrows (perform f).
Proof. by apply (Rethrows_ask (effect f)). Qed.

Lemma Rethrows_awaiting p : Rethrows (awaiting p).
Proof.
  intros calls o a e (x & rest & -> & Hrun) Hin. destruct x as [e'|].
  - destruct Hrun as [-> ->]. apply list_elem_of_singleton in Hin.
    apply (f_equal rejection) in Hin. simpl in Hin. by simplify_eq.
  - destruct Hrun as [-> _]. apply list_elem_of_singleton in Hin.
    by apply (f_equal rejection) in Hin.
Qed.

Lemma Rethrows_bind {A B} (m : Prog A) (f : A → Prog B) :
  Rethrows m → (∀ a, Rethrows (f a)) → Rethrows (m ≫= f).
Proof.
  intros Hm Hf calls o a e
    [(c1 & x & c2 & -> & Hrun1 & Hrun2)|(e' & Hrun & ->)]%Runs_bind Hin.
  - apply elem_of_app in Hin as [Hin|Hin].
    + by specialize (Hm _ _ _ _ Hrun1 Hin).
    + exact (Hf _ _ _ _ _ Hrun2 Hin).
  - specialize (Hm _ _ _ _ Hrun Hin). by simplify_eq.
Qed.

Lemma Rethrows_forEach {A} (f : A → Prog unit) l :
  (∀ x, Rethrows (f x)) → Rethrows (forEach f l).
Proof.
  intros Hf. induction l as [|x l IH]; cbn [forEach].
  - apply Rethrows_ret.
  - by apply (Rethrows_bind (f x) (λ _, forEach f l)).
Qed.

Ltac rethrows :=
  repeat first
    [ apply Rethrows_ret | apply Rethrows_raise | apply Rethrows_perform
    | apply Rethrows_awaiting
    | match goal with |- Rethrows (ask ?c) => by apply (Rethrows_ask c) end
    | apply Rethrows_bind; [|intros ?] | case_match ].

Lemma Rethrows_sendCellsToWebView cells : Rethrows (sendCellsToWebView cells).
Proof. apply Rethrows_forEach. intros cell. rethrows. Qed.

Lemma Rethrows_onAllCells oldData result batches :
  Rethrows (onAllCells oldData result batches).
Proof.
  revert result. induction batches as [|cells batches IH]; intros result;
    cbn [onAllCells].
  - apply Rethrows_ret.
  - apply (Rethrows_bind (onCells oldData result cells)
                         (λ r, onAllCells oldData r batches)); [|done].
    unfold onCells. apply Rethrows_bind; [apply Rethrows_sendCellsToWebView|].
    intros _. rethrows.
Qed.

Lemma Rethrows_onNotifications oldData result notifications :
  Rethrows (onNotifications oldData result notifications).
Proof.
  unfold onNotifications, onEnding.
  apply Rethrows_bind; [apply Rethrows_onAllCells|intros ?]. rethrows.
Qed.

Lemma Rethrows_submitCodeBody code file line id oldData debugInfo stopWatch :
  Rethrows (submitCodeBody code file line id oldData debugInfo stopWatch).
Proof.
  unfold submitCodeBody, setLaunchingFile, startDebugger.
  do 5 (apply Rethrows_bind; [rethrows|intros ?]).
  case_match; [|rethrows].
  do 7 (apply Rethrows_bind; [rethrows|intros ?]).
  apply Rethrows_bind; [apply Rethrows_onNotifications|intros ?]. rethrows.
Qed.

(** In the [finally] block nothing but [stopDebugging] can be rejected, and
    nothing else makes the block throw; it is the last call then. *)
Lemma submitCodeFinally_rejects oldData debugInfo left calls o :
  Runs (submitCodeFinally oldData debugInfo left) calls o →
  (∀ a e, reply (await a) (Some e) ∈ calls → o = ThrowsError e) ∧
  (∀ e, o = ThrowsError e →
        ∃ c, calls = c ++ [reply (await stopDebugging) (Some e)]).
Proof.
  intros (rest & -> & Hstop)%submitCodeFinally_runs. cbv zeta in Hstop.
  assert (∀ a e, reply (await a) (Some e) ≠ reply (effect statusDispose) tt)
    as Hd by (intros a e Hx; by apply (f_equal called) in Hx).
  destruct debugInfo as [info|].
  - destruct Hstop as [[-> ->]|(late & result' & r & -> & Hlate & ->)].
    + split; [|done]. intros a e. rewrite !elem_of_cons, elem_of_nil.
      intros [Hx|[Hx|[]]]; by apply (f_equal called) in Hx.
    + assert (∀ a e, reply (await a) (Some e) ∉ late) as Hnone.
      { intros a e Hin. destruct (default false (snd <$> left)).
        - destruct Hlate as (notifications & callbacks & -> & Hcb).
          apply elem_of_cons in Hin as [Hin|Hin];
            [by apply (f_equal called) in Hin|].
          by specialize (Rethrows_onNotifications _ _ _ _ _ _ _ Hcb Hin).
        - destruct Hlate as [-> _]. by apply elem_of_nil in Hin. }
      split.
      * intros a e. rewrite !elem_of_cons, elem_of_app.
        intros [Hx|[Hx|[Hx|Hx]]].
        -- by apply Hd in Hx.
        -- by apply (f_equal called) in Hx.
        -- by apply Hnone in Hx.
        -- apply list_elem_of_singleton in Hx.
           apply (f_equal rejection) in Hx. simpl in Hx. by subst r.
      * intros e He. destruct r as [e'|]; [|done]. injection He as ->.
        by exists (reply (effect statusDispose) tt ::
                   reply readNotebook true :: late).
  - destruct Hstop as [-> ->]. split; [|done]. intros a e.
    intros Hx%list_elem_of_singleton. by apply Hd in Hx.
Qed.

(** [submitCode] swallows no rejection: when a promise it awaited was
    rejected, it throws that very error, unless stopping the debugger in the
    [finally] block is rejected as well, whose error then takes its
    place.  This is so however the wait for the cells ends: with the
    observable completed, failed, or still on. *)
Theorem rejection_is_rethrown code file line id oldData debugInfo calls o
    a e :
  Runs (submitCode code file line id oldData debugInfo) calls o →
  reply (await a) (Some e) ∈ calls →
  o = ThrowsError e ∨
  ∃ e', last calls = Some (reply (await stopDebugging) (Some e')) ∧
        o = ThrowsError e'.
Proof.
  intros (pre & sw & rest & -> & Hpre & Hrun)%submitCode_runs Hin.
  apply elem_of_app in Hin as [Hin|Hin].
  { rewrite Forall_forall in Hpre. by apply Hpre in Hin. }
  apply submitCodeChecked_runs in Hrun
    as (settings & [(_ & -> & _)|(_ & Hrun)]).
  { apply list_elem_of_singleton in Hin. by apply (f_equal called) in Hin. }
  destruct Hrun
    as (ids & id' & c1 & c2 & ob & ofin & -> & Hids & Hbody & Hfin & ->).
  apply submitCodeFinally_rejects in Hfin as [Hrejects Hthrows].
  do 2 (apply elem_of_cons in Hin as [Hin|Hin];
        [by apply (f_equal called) in Hin|]).
  apply elem_of_app in Hin as [Hin|Hin].
  { rewrite Forall_forall in Hids. by apply Hids in Hin. }
  apply elem_of_app in Hin as [Hin|Hin].
  - rewrite (Rethrows_submitCodeBody _ _ _ _ _ _ _ _ _ _ _ Hbody Hin).
    destruct ofin as [b|e']; [by left|]. right. exists e'. split; [|done].
    destruct (Hthrows e' eq_refl) as (c & ->).
    change (?x :: ?y :: ids ++ c1 ++ c ++ [?z])
      with ([x; y] ++ ids ++ c1 ++ c ++ [z]).
    by rewrite !app_assoc, last_snoc.
  - left. rewrite (Hrejects _ _ Hin). by destruct ob.
Qed.

End MoreSubmitCode.

(** * The cells the webview waits for *)

Section WebviewCellsFacts.
Import SubmitCode WebviewCells.

Implicit Types (s : State) (m : WebviewMessage) (p q : nat) (id : string).

Lemma startedAt_app_l p id msgs more :
  startedAt p id msgs → startedAt p id (msgs ++ more).
Proof.
  intros (cell & Hp & Hid). exists cell. split; [|done].
  by apply lookup_app_l_Some.
Qed.

Lemma finishedAfter_app_l p id msgs more :
  finishedAfter p id msgs → finishedAfter p id (msgs ++ more).
Proof.
  intros (q & cell & Hpq & Hq & Hid). exists q, cell. split_and!; try done.
  by apply lookup_app_l_Some.
Qed.

Lemma startedAt_snoc p id msgs m :
  startedAt p id (msgs ++ [m]) ↔
  startedAt p id msgs ∨ (p = length msgs ∧ ∃ cell, m = StartCell cell ∧ cellId cell = id).
Proof.
  split.
  - intros (cell & Hp & Hid). apply lookup_snoc_Some in Hp as [[Hlt Hp]|[-> ->]].
    + left. by exists cell.
    + right. split; [done|]. by exists cell.
  - intros [H|(-> & cell & -> & Hid)].
    + by apply startedAt_app_l.
    + exists cell. split; [|done]. apply lookup_snoc_Some. by right.
Qed.

Lemma finishedAfter_snoc p id msgs m :
  finishedAfter p id (msgs ++ [m]) ↔
  finishedAfter p id msgs ∨
  (p < length msgs ∧ ∃ cell, m = FinishCell cell ∧ cellId cell = id).
Proof.
  split.
  - intros (q & cell & Hpq & Hq & Hid).
    apply lookup_snoc_Some in Hq as [[Hlt Hq]|[-> ->]].
    + left. by exists q, cell.
    + right. split; [done|]. by exists cell.
  - intros [H|(Hlt & cell & -> & Hid)].
    + by apply finishedAfter_app_l.
    + exists (length msgs), cell. split_and!; try done.
      apply lookup_snoc_Some. by right.
Qed.

Lemma startedAt_lt p id msgs : startedAt p id msgs → p < length msgs.
Proof. intros (cell & Hp & _). by eapply lookup_lt_Some. Qed.

(** A message that neither starts nor finishes a cell changes nothing. *)
Lemma waiting_snoc_other id msgs m :
  (∀ cell, m ≠ StartCell cell) → (∀ cell, m ≠ FinishCell cell) →
  waiting id (msgs ++ [m]) ↔ waiting id msgs.
Proof.
  intros Hs Hf. unfold waiting. split.
  - intros (p & Hp & Hnot). exists p.
    apply startedAt_snoc in Hp as [Hp|(_ & cell & -> & _)];
      [|by destruct (Hs cell)].
    split; [done|]. intros Hfin. apply Hnot. by apply finishedAfter_app_l.
  - intros (p & Hp & Hnot). exists p. split; [by apply startedAt_app_l|].
    intros [Hfin|(_ & cell & -> & _)]%finishedAfter_snoc; [done|].
    by destruct (Hf cell).
Qed.

Lemma fresh_tracked : Tracked fresh.
Proof.
  split.
  - intros id Hin. by apply elem_of_nil in Hin.
  - intros p id (cell & Hp & _). done.
Qed.

Lemma elem_of_ids_filter id id' (cells : list ICell) :
  id ∈ cellId <$> filter (λ c, cellId c ≠ id') cells ↔
  id ∈ cellId <$> cells ∧ id ≠ id'.
Proof.
  rewrite !list_elem_of_fmap. split.
  - intros (c & -> & [Hne Hin]%list_elem_of_filter). split; [|done].
    by exists c.
  - intros [(c & -> & Hin) Hne]. exists c. split; [done|].
    by apply list_elem_of_filter.
Qed.

Lemma sendCell_tracked s cell : Tracked s → Tracked (sendCell s cell).
Proof.
  intros [Hwaits Hstarted]. unfold sendCell.
  destruct (state cell) eqn:Hstate; simpl.
  - (* a new cell *)
    split; simpl.
    + intros id. rewrite fmap_app, elem_of_app. intros [Hin|Hin].
      * destruct (Hwaits id Hin) as (p & Hp & Hnot). exists p.
        split; [by apply startedAt_app_l|].
        intros [Hfin|(_ & c & [=] & _)]%finishedAfter_snoc. done.
      * apply list_elem_of_singleton in Hin as ->.
        exists (length (posted s)). split.
        -- apply startedAt_snoc. right. split; [done|]. by exists cell.
        -- intros (q & c & Hpq & Hq & _). apply lookup_lt_Some in Hq.
           rewrite length_app in Hq. simpl in Hq. lia.
    + intros p id. rewrite fmap_app, elem_of_app.
      intros [Hp|(-> & c & [= <-] & <-)]%startedAt_snoc.
      * destruct (Hstarted p id Hp) as [Hfin|Hin].
        -- left. by apply finishedAfter_app_l.
        -- right. by left.
      * right. right. apply list_elem_of_here.
  - (* an update *)
    split; simpl.
    + intros id Hin. apply waiting_snoc_other; [done|done|]. by apply Hwaits.
    + intros p id [Hp|(_ & c & [=] & _)]%startedAt_snoc.
      destruct (Hstarted p id Hp) as [Hfin|Hin]; [|by right].
      left. by apply finishedAfter_app_l.
  - (* finished *)
    split; simpl.
    + intros id [Hin Hne]%elem_of_ids_filter.
      destruct (Hwaits id Hin) as (p & Hp & Hnot). exists p.
      split; [by apply startedAt_app_l|].
      intros [Hfin|(_ & c & [= <-] & Hid)]%finishedAfter_snoc; [done|].
      by destruct Hne.
    + intros p id [Hp|(_ & c & [=] & _)]%startedAt_snoc.
      destruct (Hstarted p id Hp) as [Hfin|Hin].
      * left. by apply finishedAfter_app_l.
      * destruct (decide (id = cellId cell)) as [->|Hne].
        -- left. apply finishedAfter_snoc. right.
           split; [by eapply startedAt_lt|]. by exists cell.
        -- right. by apply elem_of_ids_filter.
  - (* failed *)
    split; simpl.
    + intros id [Hin Hne]%elem_of_ids_filter.
      destruct (Hwaits id Hin) as (p & Hp & Hnot). exists p.
      split; [by apply startedAt_app_l|].
      intros [Hfin|(_ & c & [= <-] & Hid)]%finishedAfter_snoc; [done|].
      by destruct Hne.
    + intros p id [Hp|(_ & c & [=] & _)]%startedAt_snoc.
      destruct (Hstarted p id Hp) as [Hfin|Hin].
      * left. by apply finishedAfter_app_l.
      * destruct (decide (id = cellId cell)) as [->|Hne].
        -- left. apply finishedAfter_snoc. right.
           split; [by eapply startedAt_lt|]. by exists cell.
        -- right. by apply elem_of_ids_filter.
  - done.
Qed.

Lemma sendCellsToWebView_tracked cells s :
  Tracked s → Tracked (sendCellsToWebView cells s).
Proof.
  unfold sendCellsToWebView. revert s.
  induction cells as [|cell cells IH]; intros s Hs; [done|].
  simpl. by apply IH, sendCell_tracked.
Qed.

(** The messages of [finishOutstandingCells]. *)
Lemma finishing_posted (cells : list ICell) s :
  posted (foldl (λ s c, postMessage (FinishCell (withState error c)) s)
                s cells)
  = posted s ++ ((λ c, FinishCell (withState error c)) <$> cells).
Proof.
  revert s. induction cells as [|c cells IH]; intros s; simpl.
  - by rewrite app_nil_r.
  - rewrite IH. simpl. by rewrite <-app_assoc.
Qed.

Lemma finishing_others (cells : list ICell) s :
  let s' := foldl (λ s c, postMessage (FinishCell (withState error c)) s)
                  s cells in
  potentiallyUnfinishedStatus s' = potentiallyUnfinishedStatus s ∧
  disposed s' = disposed s.
Proof.
  revert s. induction cells as [|c cells IH]; intros s; simpl; [done|].
  apply (IH (postMessage (FinishCell (withState error c)) s)).
Qed.

Lemma startedAt_finishing p id msgs (cells : list ICell) :
  startedAt p id (msgs ++ ((λ c, FinishCell (withState error c)) <$> cells)) →
  startedAt p id msgs.
Proof.
  intros (cell & Hp & Hid). exists cell. split; [|done].
  apply lookup_app_Some in Hp as [Hp|[_ Hp]]; [done|].
  by apply list_lookup_fmap_Some in Hp as (c & [=] & _).
Qed.

Lemma finishOutstandingCells_finishes s p id :
  Tracked s →
  startedAt p id (posted (finishOutstandingCells s)) →
  finishedAfter p id (posted (finishOutstandingCells s)).
Proof.
  intros [Hwaits Hstarted]. unfold finishOutstandingCells. simpl.
  rewrite finishing_posted. intros Hp%startedAt_finishing.
  destruct (Hstarted p id Hp) as [Hfin|Hin].
  - by apply finishedAfter_app_l.
  - apply list_elem_of_fmap in Hin as (c & -> & Hin).
    apply list_elem_of_lookup in Hin as [k Hk].
    exists (length (posted s) + k), (withState error c). split_and!.
    + apply startedAt_lt in Hp. lia.
    + rewrite lookup_app_r by lia.
      replace (length (posted s) + k - length (posted s)) with k by lia.
      by rewrite list_lookup_fmap, Hk.
    + done.
Qed.

Lemma finishOutstandingCells_tracked s :
  Tracked s → Tracked (finishOutstandingCells s).
Proof.
  intros Hs. split.
  - intros id Hin. by apply elem_of_nil in Hin.
  - intros p id Hp. left. by apply finishOutstandingCells_finishes.
Qed.

Lemma apply_tracked s o : Tracked s → Tracked (apply s o).
Proof.
  destruct o; simpl.
  - apply sendCellsToWebView_tracked.
  - by intros [].
  - apply finishOutstandingCells_tracked.
Qed.

Lemma foldl_tracked ops s : Tracked s → Tracked (foldl apply s ops).
Proof.
  revert s. induction ops as [|o ops IH]; intros s Hs; [done|].
  simpl. by apply IH, apply_tracked.
Qed.

Lemma run_tracked ops : Tracked (run ops).
Proof. apply foldl_tracked, fresh_tracked. Qed.

Lemma sendCell_statuses s cell :
  potentiallyUnfinishedStatus (sendCell s cell) = potentiallyUnfinishedStatus s ∧
  disposed (sendCell s cell) = disposed s.
Proof. unfold sendCell. by destruct (state cell). Qed.

Lemma sendCellsToWebView_statuses cells s :
  potentiallyUnfinishedStatus (sendCellsToWebView cells s)
  = potentiallyUnfinishedStatus s ∧
  disposed (sendCellsToWebView cells s) = disposed s.
Proof.
  unfold sendCellsToWebView. revert s.
  induction cells as [|cell cells IH]; intros s; [done|]. simpl.
  destruct (IH (sendCell s cell)) as [-> ->]. apply sendCell_statuses.
Qed.

Lemma run_snoc ops o : run (ops ++ [o]) = apply (run ops) o.
Proof. unfold run. by rewrite foldl_app. Qed.

Lemma run_statuses ops : StatusesKept (statusesSet ops) (run ops).
Proof.
  induction ops as [|o ops IH] using rev_ind.
  - intros r Hin. by apply elem_of_nil in Hin.
  - rewrite run_snoc. unfold statusesSet. rewrite omap_app. fold (statusesSet ops).
    intros r [Hin|Hin]%elem_of_app.
    + destruct (IH r Hin) as [Hkept|Hdisp]; destruct o; simpl.
      * left. by destruct (sendCellsToWebView_statuses cells (run ops)) as [-> _].
      * left. apply elem_of_app. by left.
      * right. destruct (finishing_others (unfinishedCells (run ops)) (run ops))
          as [-> ->]. apply elem_of_app. by right.
      * right. by destruct (sendCellsToWebView_statuses cells (run ops)) as [_ ->].
      * by right.
      * right. destruct (finishing_others (unfinishedCells (run ops)) (run ops))
          as [-> ->]. apply elem_of_app. by left.
    + destruct o; simpl in Hin; try by apply elem_of_nil in Hin.
      apply list_elem_of_singleton in Hin as ->. left. simpl.
      apply elem_of_app. right. apply list_elem_of_here.
Qed.

(** The cells listed as unfinished are those the webview waits for: a cell
    is in [unfinishedCells] exactly when the webview was sent a [StartCell]
    for it and no [FinishCell] since. *)
Theorem unfinished_cells_are_waiting ops id :
  id ∈ cellId <$> unfinishedCells (run ops) ↔ waiting id (posted (run ops)).
Proof.
  destruct (run_tracked ops) as [Hwaits Hstarted]. split; [apply Hwaits|].
  intros (p & Hp & Hnot). by destruct (Hstarted p id Hp).
Qed.

(** After [finishOutstandingCells] no cell is left waiting: every
    [StartCell] the webview ever got is followed by a [FinishCell] for the
    same cell, each cell that was cut short is now reported finished in
    state [error], and every status made by [setStatus] is disposed. *)
Theorem restart_finishes_every_cell ops :
  unfinishedCells (run (ops ++ [FinishOutstanding])) = [] ∧
  (∀ p id, startedAt p id (posted (run (ops ++ [FinishOutstanding]))) →
           finishedAfter p id (posted (run (ops ++ [FinishOutstanding])))) ∧
  (∀ cell, cell ∈ unfinishedCells (run ops) →
           ∃ q c, length (posted (run ops)) ≤ q ∧
                  posted (run (ops ++ [FinishOutstanding])) !! q
                    = Some (FinishCell c) ∧
                  cellId c = cellId cell ∧ state c = error) ∧
  (∀ r, SetStatus r ∈ ops → r ∈ disposed (run (ops ++ [FinishOutstanding]))).
Proof.
  rewrite run_snoc. simpl. split_and!.
  - done.
  - intros p id. apply finishOutstandingCells_finishes, run_tracked.
  - intros cell [k Hk]%list_elem_of_lookup. unfold finishOutstandingCells.
    simpl. rewrite finishing_posted.
    exists (length (posted (run ops)) + k), (withState error cell).
    split_and!; [lia| |done..].
    rewrite lookup_app_r by lia.
    replace (length (posted (run ops)) + k - length (posted (run ops)))
      with k by lia.
    by rewrite list_lookup_fmap, Hk.
  - intros r Hin. unfold finishOutstandingCells. simpl.
    destruct (finishing_others (unfinishedCells (run ops)) (run ops))
      as [-> ->].
    assert (r ∈ statusesSet ops) as Hset.
    { apply list_elem_of_omap. by exists (SetStatus r). }
    apply elem_of_app. destruct (run_statuses ops r Hset); [by right|by left].
Qed.

End WebviewCellsFacts.

Section SubmitCodeWindow.
Import SubmitCode SubmitCodeRuns WebviewCells.

Context `{Host}.

#[local] Existing Instance Prog_bind.

Implicit Types (s : State).

Lemma window_app s c1 c2 : window (window s c1) c2 = window s (c1 ++ c2).
Proof. unfold window. by rewrite omap_app, foldl_app. Qed.

(** The calls of one turn of [sendCellsToWebView] in [submitCode] do to the
    window what [sendCell] does. *)
Lemma sendCellsToWebView_window cells calls o s :
  Runs (SubmitCode.sendCellsToWebView cells) calls o →
  o = Returns tt ∧ window s calls = sendCellsToWebView cells s.
Proof.
  unfold SubmitCode.sendCellsToWebView, sendCellsToWebView.
  revert calls s. induction cells as [|cell cells IH]; intros calls s.
  - by intros [-> ->].
  - cbn [forEach foldl].
    intros [(c1 & [] & c2 & -> & Hcell & Hrest)|(e & Hcell & ->)]%Runs_bind.
    + rewrite <-window_app.
      assert (window s c1 = sendCell s cell) as ->; [|by apply IH].
      unfold sendCell. destruct (state cell).
      * by destruct Hcell as ([] & ? & -> & [] & ? & -> & [-> _]).
      * by destruct Hcell as ([] & ? & -> & [-> _]).
      * by destruct Hcell as ([] & ? & -> & [] & ? & -> & [-> _]).
      * by destruct Hcell as ([] & ? & -> & [] & ? & -> & [-> _]).
      * by destruct Hcell as [-> _].
    + exfalso. destruct (state cell).
      * by destruct Hcell as ([] & ? & -> & [] & ? & -> & [_ [=]]).
      * by destruct Hcell as ([] & ? & -> & [_ [=]]).
      * by destruct Hcell as ([] & ? & -> & [] & ? & -> & [_ [=]]).
      * by destruct Hcell as ([] & ? & -> & [] & ? & -> & [_ [=]]).
      * by destruct Hcell as [_ [=]].
Qed.

Lemma Keeps_ret {R} (r : R) : Keeps (Ret r).
Proof. by intros calls o s [-> _]. Qed.

Lemma Keeps_raise {R} (e : Error) : Keeps (Raise (R:=R) e).
Proof. by intros calls o s [-> _]. Qed.

Lemma Keeps_ask c : (∀ x s, window s [reply c x] = s) → Keeps (ask c).
Proof. intros Hc calls o s (x & rest & -> & [-> _]). by rewrite Hc. Qed.

Lemma Keeps_awaiting p : Keeps (awaiting p).
Proof.
  intros calls o s (x & rest & -> & Hrun).
  by destruct x; destruct Hrun as [-> _].
Qed.

Lemma Keeps_bind {A B} (m : Prog A) (f : A → Prog B) :
  Keeps m → (∀ a, Keeps (f a)) → Keeps (m ≫= f).
Proof.
  intros Hm Hf calls o s
    [(c1 & x & c2 & -> & Hrun1 & Hrun2)|(e & Hrun & ->)]%Runs_bind Hs.
  - rewrite <-window_app. eapply Hf; [done|]. by eapply Hm.
  - by eapply Hm.
Qed.

Lemma Keeps_tryFinally {A B} (body : Prog A) (fin : option A → Prog B) :
  Keeps body → (∀ left, Keeps (fin left)) → Keeps (tryFinally body fin).
Proof.
  intros Hbody Hfin calls o s
    (c1 & c2 & ob & ofin & -> & Hrun1 & Hrun2 & _)%Runs_tryFinally Hs.
  rewrite <-window_app. eapply Hfin; [done|]. by eapply Hbody.
Qed.

Lemma Keeps_sendCellsToWebView cells :
  Keeps (SubmitCode.sendCellsToWebView cells).
Proof.
  intros calls o s Hrun Hs.
  destruct (sendCellsToWebView_window cells calls o s Hrun) as [_ ->].
  by apply sendCellsToWebView_tracked.
Qed.

Ltac keeps :=
  repeat first
    [ apply Keeps_ret | apply Keeps_raise | apply Keeps_awaiting
    | apply Keeps_sendCellsToWebView
    | match goal with
      | |- Keeps (ask ?c) => by apply (Keeps_ask c)
      | |- Keeps (perform ?e) => by apply (Keeps_ask (effect e))
      end
    | apply Keeps_bind; [|intros ?] | case_match ].

Lemma Keeps_onAllCells oldData result batches :
  Keeps (onAllCells oldData result batches).
Proof.
  revert result. induction batches as [|cells batches IH]; intros result;
    cbn [onAllCells].
  - apply Keeps_ret.
  - apply (Keeps_bind (onCells oldData result cells)
                      (λ r, onAllCells oldData r batches)); [|done].
    unfold onCells. keeps.
Qed.

(** The callbacks of the subscription keep the list in step, whatever
    state the window is in when they run. *)
Lemma Keeps_onNotifications oldData result notifications :
  Keeps (onNotifications oldData result notifications).
Proof.
  unfold onNotifications, onEnding.
  apply Keeps_bind; [apply Keeps_onAllCells|intros ?]. keeps.
Qed.

Lemma Keeps_submitCodeBody code file line id oldData debugInfo stopWatch :
  Keeps (submitCodeBody code file line id oldData debugInfo stopWatch).
Proof.
  unfold submitCodeBody, setLaunchingFile, startDebugger.
  do 5 (apply Keeps_bind; [keeps|intros ?]).
  case_match; [|keeps].
  do 7 (apply Keeps_bind; [keeps|intros ?]).
  apply Keeps_bind; [apply Keeps_onNotifications|intros ?]. keeps.
Qed.

Lemma Keeps_submitCodeFinally oldData debugInfo left :
  Keeps (submitCodeFinally oldData debugInfo left).
Proof.
  unfold submitCodeFinally. cbv zeta.
  apply Keeps_bind; [keeps|intros ?].
  case_match; [|keeps].
  apply Keeps_bind; [keeps|intros ?].
  case_match; [|keeps].
  apply Keeps_bind; [|intros ?; keeps].
  case_match; [|keeps].
  apply Keeps_bind; [keeps|intros ?]. apply Keeps_onNotifications.
Qed.

(** [submitCode] leaves the window's list of unfinished cells in step with
    the messages it posted, however it ends: returning, or throwing at any
    of its awaits, with the observable completed, failed, or still on when
    the wait was over. *)
Theorem submitCode_keeps_cells_tracked code file line id oldData debugInfo
    calls o s :
  Runs (submitCode code file line id oldData debugInfo) calls o →
  Tracked s →
  Tracked (window s calls).
Proof.
  revert calls o s.
  change (Keeps (submitCode code file line id oldData debugInfo)).
  unfold submitCode, submitCodeChecked.
  do 4 (apply Keeps_bind; [keeps|intros ?]).
  apply Keeps_bind; [keeps|intros settings].
  case_match; [keeps|].
  do 2 (apply Keeps_bind; [keeps|intros ?]).
  apply Keeps_tryFinally.
  - apply Keeps_submitCodeBody.
  - apply Keeps_submitCodeFinally.
Qed.

End SubmitCodeWindow.

Section MoreSubmitCodeExamples.
Import SubmitCode SubmitCodeRuns WebviewCells.

#[local] Existing Instance exampleHost.

(** Reads the answers of an execution off the calls given. *)
Ltac replay :=
  repeat (lazymatch goal with
          | |- ex _ => do 2 eexists; split; [reflexivity|]; simpl
          end);
  try done.

Lemma disposedRun_runs :
  Runs (submitCode "1/0" "demo.py" 0 (Some "c1") None (Some debugging))
       disposedRun (Returns false).
Proof. unfold submitCode, submitCodeChecked, disposedRun. simpl. replay. Qed.

(** The status is disposed from outside while the cell runs: the [finally]
    block disposes it once more and stops the debugger, and the callbacks
    still run meanwhile. *)
Lemma status_always_disposed_witness :
  Runs (submitCode "1/0" "demo.py" 0 (Some "c1") None (Some debugging))
       disposedRun (Returns false) ∧
  ∃ before after ofin,
    disposedRun = before ++ reply (effect statusDispose) tt :: after ∧
    debuggerStopped None (Some debugging) (StillOn before) after ofin ∧
    (∀ e, ofin = ThrowsError e → Returns false = ThrowsError e).
Proof.
  split; [exact disposedRun_runs|].
  apply (status_always_disposed "1/0" "demo.py" 0 (Some "c1") None
           (Some debugging) disposedRun (Returns false) disposedRun_runs).
  unfold disposedRun. do 4 apply list_elem_of_further. apply list_elem_of_here.
Defined.

Lemma failingRun_runs :
  Runs (submitCode "1/0" "demo.py" 0 (Some "c1") None None) failingRun
       (Returns false).
Proof. unfold submitCode, submitCodeChecked, failingRun. simpl. replay. Qed.

Lemma false_only_after_error_cell_witness :
  Runs (submitCode "1/0" "demo.py" 0 (Some "c1") None None) failingRun
       (Returns false) ∧
  ErrorCellSeen "1/0" "demo.py" 0 None failingRun.
Proof.
  split; [exact failingRun_runs|].
  exact (false_only_after_error_cell "1/0" "demo.py" 0 (Some "c1") None None
           failingRun failingRun_runs).
Defined.

Lemma submitCode_keeps_cells_tracked_witness :
  Runs (submitCode "1/0" "demo.py" 0 (Some "c1") None None) failingRun
       (Returns false) ∧
  posted (window fresh failingRun) =
    [StartCell (exampleCell SubmitCode.init); FinishCell (exampleCell error)] ∧
  Tracked (window fresh failingRun).
Proof.
  split; [exact failingRun_runs|]. split; [reflexivity|].
  exact (submitCode_keeps_cells_tracked "1/0" "demo.py" 0 (Some "c1") None
           None failingRun (Returns false) fresh failingRun_runs
           fresh_tracked).
Defined.

(** The connection fails: the error comes out, after the status was
    disposed. *)
Lemma rejection_is_rethrown_witness :
  let e := OtherError "no kernel" in
  let calls := [reply (effect sendKernelTelemetryEvent) tt;
                reply (effect (traceInfo "Submitting code")) tt;
                reply readNotebook false;
                reply getSettings tt;
                reply (effect SubmitCode.setStatus) tt;
                reply (await ensureConnectionAndNotebook) (Some e);
                reply (effect statusDispose) tt] in
  Runs (submitCode "x = 1" "demo.py" 0 (Some "c1") None None) calls
       (ThrowsError e) ∧
  (ThrowsError e = ThrowsError (R:=bool) e ∨
   ∃ e', last calls = Some (reply (await stopDebugging) (Some e')) ∧
         ThrowsError e = ThrowsError (R:=bool) e').
Proof.
  intros e calls.
  assert (Runs (submitCode "x = 1" "demo.py" 0 (Some "c1") None None) calls
               (ThrowsError e)) as Hrun.
  { unfold submitCode, submitCodeChecked, calls. simpl. replay. }
  split; [exact Hrun|].
  apply (rejection_is_rethrown "x = 1" "demo.py" 0 (Some "c1") None None
           calls (ThrowsError e) ensureConnectionAndNotebook e Hrun).
  unfold calls. do 5 apply list_elem_of_further. apply list_elem_of_here.
Defined.

End MoreSubmitCodeExamples.

Section SubmitCodeFlagExamples.
Import SubmitCode SubmitCodeRuns.

#[local] Existing Instance flagHost.

(** With [stopOnError] off when the failing cell comes back, the answer is
    [true], and what the settings said when the [CellMatcher] was made does
    not make the execution one that stopped on an error. *)
Lemma settings_read_earlier_do_not_count :
  Runs (submitCode "1/0" "demo.py" 0 (Some "c1") None None) toleratedRun
       (Returns true) ∧
  ¬ ErrorCellSeen "1/0" "demo.py" 0 None toleratedRun.
Proof.
  split.
  - unfold submitCode, submitCodeChecked, toleratedRun. simpl.
    repeat (lazymatch goal with
            | |- ex _ => do 2 eexists; split; [reflexivity|]; simpl
            end).
    done.
  - by intros ?%ErrorCellSeen_stopped.
Qed.

End SubmitCodeFlagExamples.


(** * Setting the dark style once *)

Section DarkSetFacts.
Import SubmitCode DarkSet.

Implicit Types (s : State) (a : Action) (i : nat) (stage first : Stage).

Lemma init_once : Once init.
Proof. done. Qed.

(** Only the first call can be at one of its own awaits. *)
Lemma once_first_only s i stage :
  Once s → calls s !! i = Some stage →
  stage ≠ AwaitingPromise → stage ≠ Returned → i = 0.
Proof.
  unfold Once. destruct (calls s) as [|first later]; [done|].
  intros [Hlater _] Hi Hp Hr. destruct i as [|i]; [done|]. simpl in Hi.
  rewrite Forall_lookup in Hlater. by destruct (Hlater i stage Hi) as [?|[? _]].
Qed.

Lemma waits_first_changes first first' stage :
  first ≠ Returned → waits first stage → waits first' stage.
Proof. intros Hne [->|[_ ?]]; [by left|done]. Qed.

Lemma step_once a s s' : Once s → step a s = Some s' → Once s'.
Proof.
  intros Hs Hstep. destruct a as [|i r notebook|i r|i]; simpl in Hstep.
  - (* a call *)
    simplify_eq. unfold ensureDarkSet, Once in *.
    destruct (calls s) as [|first later] eqn:Hcalls.
    + destruct Hs as [-> ->]. simpl. by rewrite ?Hcalls.
    + destruct Hs as [Hlater Hfirst].
      assert (is_Some (setDarkPromise s)) as [d ->].
      { destruct first; try done; by destruct Hfirst as [-> _]. }
      simpl. rewrite ?Hcalls. simpl. split; [|done].
      apply Forall_app. split; [done|]. apply Forall_singleton. by left.
  - (* [isDark] settled *)
    destruct (calls s !! i) as [[]|] eqn:Hi; simplify_eq.
    assert (i = 0) as -> by by eapply once_first_only.
    unfold Once, afterIsDark in *.
    destruct (calls s) as [|first later] eqn:Hcalls; [done|].
    simpl in Hi. simplify_eq. destruct Hs as [Hlater [Hd Hst]].
    assert (∀ first', Forall (waits first') later) as Hlater'.
    { intros first'. eapply Forall_impl; [done|].
      intros stage. by apply waits_first_changes. }
    destruct r as [e|knownDark]; [|destruct notebook]; simpl;
      rewrite ?Hcalls; simpl; rewrite ?Hst; simpl; split_and!; try done.
    lia. lia.
  - (* [setMatplotLibStyle] settled *)
    destruct (calls s !! i) as [[]|] eqn:Hi; simplify_eq.
    assert (i = 0) as -> by by eapply once_first_only.
    unfold Once, afterStyle in *.
    destruct (calls s) as [|first later] eqn:Hcalls; [done|].
    simpl in Hi. simplify_eq. destruct Hs as [Hlater [Hd Hst]].
    assert (∀ first', Forall (waits first') later) as Hlater'.
    { intros first'. eapply Forall_impl; [done|].
      intros stage. by apply waits_first_changes. }
    destruct r as [e|]; simpl; rewrite ?Hcalls; simpl; rewrite ?Hst; simpl;
      split_and!; try done.
  - (* the deferred was seen resolved *)
    destruct (calls s !! i) as [[]|] eqn:Hi; simplify_eq.
    destruct (setDarkPromise s) as [[]|] eqn:Hd; simplify_eq.
    unfold Once in *. simpl. rewrite Hd.
    destruct (calls s) as [|first later] eqn:Hcalls; [done|].
    destruct Hs as [Hlater Hfirst].
    destruct i as [|i]; simpl in Hi; [by simplify_eq|]. simpl.
    split; [|by rewrite Hd in Hfirst]. apply Forall_insert; [done|].
    right. split; [done|]. rewrite Hd in Hfirst.
    destruct first; try done; by destruct Hfirst as [[=] _].
Qed.

Lemma exec_once acts s s' : Once s → exec acts s = Some s' → Once s'.
Proof.
  revert s. induction acts as [|a acts IH]; intros s Hs Hexec; simpl in Hexec.
  - by simplify_eq.
  - destruct (step a s) as [s1|] eqn:Hstep; [|done].
    eapply IH; [|done]. by eapply step_once.
Qed.

(** A first call that threw stays as it is. *)
Lemma step_threw a s s' e :
  Once s → calls s !! 0 = Some (Threw e) → step a s = Some s' →
  calls s' !! 0 = Some (Threw e).
Proof.
  intros Hs H0 Hstep. destruct a as [|i r notebook|i r|i]; simpl in Hstep.
  - simplify_eq. unfold ensureDarkSet.
    destruct (setDarkPromise s); simpl; by apply lookup_app_l_Some.
  - destruct (calls s !! i) as [[]|] eqn:Hi; simplify_eq.
    assert (i = 0) as -> by by eapply once_first_only. by simplify_eq.
  - destruct (calls s !! i) as [[]|] eqn:Hi; simplify_eq.
    assert (i = 0) as -> by by eapply once_first_only. by simplify_eq.
  - destruct (calls s !! i) as [[]|] eqn:Hi; simplify_eq.
    destruct (setDarkPromise s) as [[]|]; simplify_eq. simpl.
    destruct i as [|i]; [by simplify_eq|].
    by rewrite list_lookup_insert_ne.
Qed.

Lemma exec_threw acts s s' e :
  Once s → calls s !! 0 = Some (Threw e) → exec acts s = Some s' →
  calls s' !! 0 = Some (Threw e).
Proof.
  revert s. induction acts as [|a acts IH]; intros s Hs H0 Hexec;
    simpl in Hexec.
  - by simplify_eq.
  - destruct (step a s) as [s1|] eqn:Hstep; [|done].
    eapply IH; [by eapply step_once|by eapply step_threw|done].
Qed.

(** However often [ensureDarkSet] is called, and in whatever order the
    promises settle, [setMatplotLibStyle] is called at most once, and only
    the first call asks for the theme or sets the style: every other call
    does nothing but wait for the first one, and never throws. *)
Theorem style_is_set_by_first_call_only acts s :
  exec acts init = Some s →
  length (styles s) ≤ 1 ∧
  ∀ i stage, 0 < i → calls s !! i = Some stage →
             stage = AwaitingPromise ∨ stage = Returned.
Proof.
  intros Hexec. pose proof (exec_once _ _ _ init_once Hexec) as Hs.
  unfold Once in Hs. destruct (calls s) as [|first later]; simpl.
  - destruct Hs as [_ ->]. split; [simpl; lia|]. by intros [|i] stage.
  - destruct Hs as [Hlater Hfirst]. split.
    + destruct first; simpl in Hfirst; try done;
        destruct Hfirst as [_ Hst]; try done; rewrite Hst; simpl; lia.
    + intros [|i] stage Hpos Hi; [lia|]. simpl in Hi.
      rewrite Forall_lookup in Hlater.
      destruct (Hlater i stage Hi) as [?|[? _]]; [by left|by right].
Qed.

(** When the first call has thrown, because [isDark] or
    [setMatplotLibStyle] was rejected, the deferred is never resolved:
    every later call of [ensureDarkSet] stays at its await for ever, and no
    step lets it go on. *)
Theorem failed_first_call_blocks_later_calls acts more s s' e i :
  exec acts init = Some s →
  calls s !! 0 = Some (Threw e) →
  exec more s = Some s' →
  0 < i → i < length (calls s') →
  calls s' !! i = Some AwaitingPromise ∧ step (PromiseObserved i) s' = None.
Proof.
  intros Hexec H0 Hmore Hpos Hlt.
  pose proof (exec_once _ _ _ init_once Hexec) as Hs.
  pose proof (exec_once _ _ _ Hs Hmore) as Hs'.
  pose proof (exec_threw _ _ _ _ Hs H0 Hmore) as H0'.
  apply lookup_lt_is_Some in Hlt as [stage Hi].
  unfold Once in Hs'. simpl. rewrite Hi.
  destruct (calls s') as [|first later]; [done|]. simpl in H0'. simplify_eq.
  destruct Hs' as [Hlater [-> _]].
  destruct i as [|i]; [lia|]. simpl in Hi.
  rewrite Forall_lookup in Hlater.
  by destruct (Hlater i stage Hi) as [->|[_ [=]]].
Qed.

(** A later call returns only after the first has returned, and once the
    first has returned every waiting call can return. *)
Theorem later_calls_return_with_first acts s i :
  exec acts init = Some s →
  (calls s !! i = Some Returned → calls s !! 0 = Some Returned) ∧
  (calls s !! 0 = Some Returned → calls s !! i = Some AwaitingPromise →
   ∃ s', step (PromiseObserved i) s = Some s' ∧
         calls s' !! i = Some Returned).
Proof.
  intros Hexec. pose proof (exec_once _ _ _ init_once Hexec) as Hs.
  unfold Once in Hs. split.
  - destruct i as [|i]; [done|]. intros Hi.
    destruct (calls s) as [|first later]; [done|]. simpl in *.
    destruct Hs as [Hlater _]. rewrite Forall_lookup in Hlater.
    by destruct (Hlater i _ Hi) as [[=]|[_ ->]].
  - intros H0 Hi. simpl. rewrite Hi.
    destruct (calls s) as [|first later] eqn:Hcalls; [done|].
    simpl in H0. simplify_eq. destruct Hs as [_ [-> _]].
    eexists. split; [done|]. simpl. rewrite ?Hcalls.
    apply list_lookup_insert_eq. by eapply lookup_lt_Some.
Qed.

End DarkSetFacts.

Section DarkSetExamples.
Import SubmitCode DarkSet.

Lemma style_is_set_by_first_call_only_witness :
  let acts := [Call; Call; IsDarkSettles 0 (inr true) true;
               StyleSettles 0 None; PromiseObserved 1; Call] in
  exec acts init = Some (after acts) ∧
  calls (after acts) = [Returned; Returned; AwaitingPromise] ∧
  styles (after acts) = [true] ∧
  length (styles (after acts)) ≤ 1.
Proof.
  intros acts. split; [by vm_compute|]. split; [by vm_compute|].
  split; [by vm_compute|].
  apply (style_is_set_by_first_call_only acts (after acts)). by vm_compute.
Defined.

Lemma failed_first_call_blocks_later_calls_witness :
  let e := OtherError "no theme" in
  let acts := [Call; Call; IsDarkSettles 0 (inl e) true] in
  let more := [Call] in
  exec acts init = Some (after acts) ∧
  calls (after acts) = [Threw e; AwaitingPromise] ∧
  exec more (after acts) = Some (after (acts ++ more)) ∧
  calls (after (acts ++ more)) !! 2 = Some AwaitingPromise ∧
  step (PromiseObserved 2) (after (acts ++ more)) = None.
Proof.
  intros e acts more. split; [by vm_compute|]. split; [by vm_compute|].
  split; [by vm_compute|].
  apply (failed_first_call_blocks_later_calls acts more (after acts)
           (after (acts ++ more)) e 2);
    [by vm_compute|by vm_compute|by vm_compute|lia|].
  vm_compute. lia.
Defined.

Lemma later_calls_return_with_first_witness :
  let acts := [Call; Call; IsDarkSettles 0 (inr false) false] in
  exec acts init = Some (after acts) ∧
  calls (after acts) = [Returned; AwaitingPromise] ∧
  ∃ s', step (PromiseObserved 1) (after acts) = Some s' ∧
        calls s' !! 1 = Some Returned.
Proof.
  intros acts. split; [by vm_compute|]. split; [by vm_compute|].
  apply (proj2 (later_calls_return_with_first acts (after acts) 1 eq_refl));
    by vm_compute.
Defined.

End DarkSetExamples.

(** * The sys info cell *)

Section SysInfoFacts.
Import SubmitCode SysInfo.

Implicit Types (s : State) (a : Action) (i j d : nat) (stage : Stage).

Lemma init_linked : Linked init.
Proof. by split. Qed.

Lemma lookup_snoc_calls {A} (l : list A) (x y : A) i :
  (l ++ [x]) !! i = Some y → l !! i = Some y ∨ (i = length l ∧ x = y).
Proof. intros [[_ ?]|[-> ->]]%lookup_snoc_Some; [by left|by right]. Qed.

Lemma generate_linked reason s : Linked s → Linked (generate reason s).
Proof.
  intros [Hnew Hpend Hmaker Hwait]. split; simpl.
  - rewrite length_app. simpl.
    destruct (deferreds s); simpl; f_equal; lia.
  - intros i reason' d [Hi|[-> [= <- <-]]]%lookup_snoc_calls.
    + apply lookup_app_l_Some. by eapply Hpend.
    + apply lookup_snoc_Some. by right.
  - intros i j r r' d [Hi|[-> [= <- <-]]]%lookup_snoc_calls
                      [Hj|[-> Heq]]%lookup_snoc_calls.
    + by eapply Hmaker.
    + simplify_eq. apply Hpend in Hi. apply lookup_lt_Some in Hi. lia.
    + apply Hpend in Hj. apply lookup_lt_Some in Hj. lia.
    + done.
  - intros i d [Hi|[-> [=]]]%lookup_snoc_calls.
    rewrite length_app. apply Hwait in Hi. lia.
Qed.

Lemma step_linked a s s' : Linked s → step a s = Some s' → Linked s'.
Proof.
  intros Hs Hstep. destruct a as [reason|i r|i]; simpl in Hstep.
  - (* a call *)
    simplify_eq. unfold addSysInfo.
    destruct (addSysInfoPromise s) as [d|] eqn:Hd;
      [|by apply generate_linked].
    case_decide; [by apply generate_linked|].
    destruct Hs as [Hnew Hpend Hmaker Hwait]. split; simpl.
    + done.
    + intros i reason' d' [Hi|[-> [=]]]%lookup_snoc_calls. by eapply Hpend.
    + intros i j r r' d' [Hi|[-> [=]]]%lookup_snoc_calls
                        [Hj|[-> [=]]]%lookup_snoc_calls.
      by eapply Hmaker.
    + intros i d' [Hi|[-> [= <-]]]%lookup_snoc_calls; [by eapply Hwait|].
      rewrite Hnew in Hd. destruct (deferreds s); simplify_eq. simpl. lia.
  - (* the cell was generated, or not *)
    destruct (calls s !! i) as [[reason d| | |]|] eqn:Hi; simplify_eq.
    destruct Hs as [Hnew Hpend Hmaker Hwait].
    assert (∀ r' (s0 : State),
              deferreds s0 = deferreds s → calls s0 = calls s →
              addSysInfoPromise s0 = addSysInfoPromise s →
              Linked (move i Returned (settle d r' s0))) as Hgen.
    { intros r' s0 Hds Hcs Hp. split; simpl; rewrite ?Hds, ?Hcs, ?Hp.
      - rewrite length_insert, Hnew.
        pose proof (Hpend _ _ _ Hi) as Hlt%lookup_lt_Some.
        destruct (deferreds s) eqn:Hdef; [simpl in Hlt; lia|].
        by destruct (<[d:=r']> (s1 :: l)) eqn:Hins;
          [apply (f_equal length) in Hins; rewrite length_insert in Hins|].
      - intros j reason' d' Hj.
        destruct (decide (i = j)) as [->|Hne].
        { rewrite list_lookup_insert_eq in Hj by (by eapply lookup_lt_Some).
          done. }
        rewrite list_lookup_insert_ne in Hj by done.
        destruct (decide (d = d')) as [->|Hd].
        { by destruct Hne; eapply Hmaker. }
        rewrite list_lookup_insert_ne by done. by eapply Hpend.
      - intros j k r1 r2 d' Hj Hk.
        destruct (decide (i = j)) as [->|Hnej].
        { rewrite list_lookup_insert_eq in Hj by (by eapply lookup_lt_Some).
          done. }
        destruct (decide (i = k)) as [->|Hnek].
        { rewrite list_lookup_insert_eq in Hk by (by eapply lookup_lt_Some).
          done. }
        rewrite list_lookup_insert_ne in Hj, Hk by done. by eapply Hmaker.
      - intros j d' Hj. rewrite length_insert.
        destruct (decide (i = j)) as [->|Hne].
        { rewrite list_lookup_insert_eq in Hj by (by eapply lookup_lt_Some).
          done. }
        rewrite list_lookup_insert_ne in Hj by done. by eapply Hwait. }
    unfold afterGenerate. destruct r as [e|sysInfo]; by apply Hgen.
  - (* a deferred was seen settled *)
    destruct (calls s !! i) as [[| d | |]|] eqn:Hi; simplify_eq.
    destruct (deferreds s !! d) as [r|] eqn:Hd; [|done].
    destruct Hs as [Hnew Hpend Hmaker Hwait].
    assert (∀ stage', (∀ reason d', stage' ≠ Generating reason d') →
              (∀ d', stage' ≠ Waiting d') →
              Linked (move i stage' s)) as Hmove.
    { intros stage' Hng Hnw. split; simpl; [done|..].
      - intros j reason' d' Hj. destruct (decide (i = j)) as [->|Hne].
        { rewrite list_lookup_insert_eq in Hj by (by eapply lookup_lt_Some).
          simplify_eq. by destruct (Hng reason' d'). }
        rewrite list_lookup_insert_ne in Hj by done. by eapply Hpend.
      - intros j k r1 r2 d' Hj Hk.
        destruct (decide (i = j)) as [->|Hnej].
        { rewrite list_lookup_insert_eq in Hj by (by eapply lookup_lt_Some).
          simplify_eq. by destruct (Hng r1 d'). }
        destruct (decide (i = k)) as [->|Hnek].
        { rewrite list_lookup_insert_eq in Hk by (by eapply lookup_lt_Some).
          simplify_eq. by destruct (Hng r2 d'). }
        rewrite list_lookup_insert_ne in Hj, Hk by done. by eapply Hmaker.
      - intros j d' Hj. destruct (decide (i = j)) as [->|Hne].
        { rewrite list_lookup_insert_eq in Hj by (by eapply lookup_lt_Some).
          simplify_eq. by destruct (Hnw d'). }
        rewrite list_lookup_insert_ne in Hj by done. by eapply Hwait. }
    destruct r; simpl in Hstep; simplify_eq; by apply Hmove.
Qed.

Lemma exec_linked acts s s' : Linked s → exec acts s = Some s' → Linked s'.
Proof.
  revert s. induction acts as [|a acts IH]; intros s Hs Hexec; simpl in Hexec.
  - by simplify_eq.
  - destruct (step a s) as [s1|] eqn:Hstep; [|done].
    eapply IH; [|done]. by eapply step_linked.
Qed.

Lemma init_startedOnce : StartedOnce init.
Proof. split; simpl; try done; lia. Qed.

Lemma sendCell_posts_one w cell :
  length (WebviewCells.posted (WebviewCells.sendCell w cell))
  ≤ S (length (WebviewCells.posted w)).
Proof.
  unfold WebviewCells.sendCell. destruct (state cell); simpl;
    rewrite ?length_app; simpl; lia.
Qed.

Lemma step_startedOnce a s s' :
  startOnly a = true → Linked s → StartedOnce s → step a s = Some s' →
  StartedOnce s'.
Proof.
  intros Ha HL [Hdef Hpost Hpend Hnone Hreason Hsh Hre] Hstep.
  destruct a as [reason|i r|i]; simpl in Hstep, Ha.
  - (* a call *)
    apply bool_decide_eq_true in Ha as ->. simplify_eq. unfold addSysInfo.
    pose proof (linked_newest _ HL) as Hnew.
    destruct (addSysInfoPromise s) as [d|] eqn:Hd.
    + rewrite decide_False by (by intros []).
      split; simpl; try done.
      intros i reason d' [Hi|[-> [=]]]%lookup_snoc_calls. by eapply Hreason.
    + destruct (deferreds s) eqn:Hds; [|done].
      split; simpl; rewrite ?Hds; simpl; try done.
      * intros _. by apply Hnone.
      * intros i reason d' [Hi|[-> [= <- _]]]%lookup_snoc_calls; [|done].
        by eapply Hreason.
  - (* the cell was generated, or not *)
    destruct (calls s !! i) as [[reason d| | |]|] eqn:Hi; simplify_eq.
    pose proof (Hreason _ _ _ Hi) as ->.
    pose proof (linked_pending _ HL _ _ _ Hi) as Hd.
    assert (d = 0) as -> by (apply lookup_lt_Some in Hd; lia).
    assert (∀ j reason d' stage',
              (∀ r0 d0, stage' ≠ Generating r0 d0) →
              <[i:=stage']> (calls s) !! j = Some (Generating reason d') →
              reason = Start) as Hkeep.
    { intros j reason d' stage' Hng Hj.
      destruct (decide (i = j)) as [->|Hne].
      - rewrite list_lookup_insert_eq in Hj by (by eapply lookup_lt_Some).
        simplify_eq. by destruct (Hng reason d').
      - rewrite list_lookup_insert_ne in Hj by done. by eapply Hreason. }
    assert (∀ r', r' ≠ Pending → <[0:=r']> (deferreds s) !! 0 ≠ Some Pending)
      as Hsettled.
    { intros r' Hr'. rewrite list_lookup_insert_eq
        by (by eapply lookup_lt_Some). congruence. }
    assert (∀ r', <[0:=r']> (deferreds s) ≠ []) as Hsome.
    { intros r' Heq%(f_equal length). rewrite length_insert in Heq.
      apply lookup_lt_Some in Hd. simpl in Heq. lia. }
    unfold afterGenerate. destruct r as [e|sysInfo]; split; simpl;
      rewrite ?length_insert; try done.
    + intros ?. by destruct (Hsettled (Rejected e)).
    + intros ?. by destruct (Hsome (Rejected e)).
    + intros j reason d'. by apply Hkeep.
    + destruct sysInfo as [cell|]; [|done].
      pose proof (sendCell_posts_one (window s) cell) as Hle.
      rewrite (Hpend Hd) in Hle. exact Hle.
    + intros ?. by destruct (Hsettled Resolved).
    + intros ?. by destruct (Hsome Resolved).
    + intros j reason d'. by apply Hkeep.
    + by destruct sysInfo.
  - (* a deferred was seen settled *)
    destruct (calls s !! i) as [[| d | |]|] eqn:Hi; simplify_eq.
    destruct (deferreds s !! d) as [r|] eqn:Hd; [|done].
    assert (∀ stage', (∀ r0 d0, stage' ≠ Generating r0 d0) →
              StartedOnce (move i stage' s)) as Hmove.
    { intros stage' Hng. split; simpl; try done.
      intros j reason d' Hj. destruct (decide (i = j)) as [->|Hne].
      - rewrite list_lookup_insert_eq in Hj by (by eapply lookup_lt_Some).
        simplify_eq. by destruct (Hng reason d').
      - rewrite list_lookup_insert_ne in Hj by done. by eapply Hreason. }
    destruct r; simpl in Hstep; simplify_eq; by apply Hmove.
Qed.

Lemma exec_startedOnce acts s s' :
  forallb startOnly acts = true → Linked s → StartedOnce s →
  exec acts s = Some s' → StartedOnce s'.
Proof.
  revert s. induction acts as [|a acts IH]; intros s Hacts HL Hs Hexec;
    simpl in *.
  - by simplify_eq.
  - apply andb_prop in Hacts as [Ha Hacts].
    destruct (step a s) as [s1|] eqn:Hstep; [|done].
    eapply IH; [done|by eapply step_linked|by eapply step_startedOnce|done].
Qed.

Lemma step_failed a s s' d e n :
  startOnly a = true → Linked s → Failed d e n s → step a s = Some s' →
  Failed d e n s'.
Proof.
  intros Ha HL [Hcur Hrej Hlen Hlater] Hstep.
  destruct a as [reason|i r|i]; simpl in Hstep, Ha.
  - (* a call *)
    apply bool_decide_eq_true in Ha as ->. simplify_eq. unfold addSysInfo.
    rewrite Hcur, decide_False by (by intros []).
    split; simpl; try done.
    + rewrite length_app. lia.
    + intros j stage Hj [Hs|[-> <-]]%lookup_snoc_calls; [by eapply Hlater|].
      by left.
  - (* another generation ends *)
    destruct (calls s !! i) as [[reason d'| | |]|] eqn:Hi; simplify_eq.
    pose proof (linked_pending _ HL _ _ _ Hi) as Hd'.
    assert (d' ≠ d) as Hne by (intros ->; congruence).
    assert (¬ n ≤ i) as Hold.
    { intros Hni. by destruct (Hlater _ _ Hni Hi). }
    assert (∀ r' s0, addSysInfoPromise s0 = addSysInfoPromise s →
              deferreds s0 = deferreds s → calls s0 = calls s →
              Failed d e n (move i Returned (settle d' r' s0))) as Hgen.
    { intros r' s0 Hp Hds Hcs. split; simpl; rewrite ?Hp, ?Hds, ?Hcs.
      - done.
      - by rewrite list_lookup_insert_ne.
      - by rewrite length_insert.
      - intros j stage Hj Hs. rewrite list_lookup_insert_ne in Hs by lia.
        by eapply Hlater. }
    unfold afterGenerate. destruct r as [e'|sysInfo]; by apply Hgen.
  - (* a deferred was seen settled *)
    destruct (calls s !! i) as [[| d' | |]|] eqn:Hi; simplify_eq.
    destruct (deferreds s !! d') as [r|] eqn:Hd'; [|done].
    assert (∀ stage', (n ≤ i → stage' = Threw e) →
              Failed d e n (move i stage' s)) as Hmove.
    { intros stage' Hst. split; simpl; try done.
      - by rewrite length_insert.
      - intros j stage Hj Hs. destruct (decide (i = j)) as [->|Hne].
        + rewrite list_lookup_insert_eq in Hs by (by eapply lookup_lt_Some).
          simplify_eq. right. by apply Hst.
        + rewrite list_lookup_insert_ne in Hs by done. by eapply Hlater. }
    assert (n ≤ i → r = Rejected e) as Hr.
    { intros Hni. destruct (Hlater _ _ Hni Hi) as [[= ->]|[=]]. congruence. }
    destruct r; simpl in Hstep; simplify_eq; apply Hmove; intros Hni;
      specialize (Hr Hni); congruence.
Qed.

Lemma exec_failed acts s s' d e n :
  forallb startOnly acts = true → Linked s → Failed d e n s →
  exec acts s = Some s' → Failed d e n s'.
Proof.
  revert s. induction acts as [|a acts IH]; intros s Hacts HL Hs Hexec;
    simpl in *.
  - by simplify_eq.
  - apply andb_prop in Hacts as [Ha Hacts].
    destruct (step a s) as [s1|] eqn:Hstep; [|done].
    eapply IH; [done|by eapply step_linked|by eapply step_failed|done].
Qed.

(** A call that has returned or thrown stays as it is. *)
Lemma step_settled_call a s s' i stage :
  calls s !! i = Some stage → stage = Returned ∨ (∃ e, stage = Threw e) →
  step a s = Some s' → calls s' !! i = Some stage.
Proof.
  intros Hi Hst Hstep. destruct a as [reason|k r|k]; simpl in Hstep.
  - simplify_eq. unfold addSysInfo, generate.
    repeat case_match; simpl; by apply lookup_app_l_Some.
  - destruct (calls s !! k) as [[reason d| | |]|] eqn:Hk; simplify_eq.
    assert (k ≠ i) by (intros ->; destruct Hst as [->|[? ->]]; congruence).
    unfold afterGenerate. destruct r as [e|sysInfo]; simpl;
      by rewrite list_lookup_insert_ne.
  - destruct (calls s !! k) as [[| d | |]|] eqn:Hk; simplify_eq.
    assert (k ≠ i) by (intros ->; destruct Hst as [->|[? ->]]; congruence).
    destruct (deferreds s !! d) as [r|]; [|done].
    destruct r; simpl in Hstep; simplify_eq; simpl;
      by rewrite list_lookup_insert_ne.
Qed.

Lemma exec_settled_call acts s s' i stage :
  calls s !! i = Some stage → stage = Returned ∨ (∃ e, stage = Threw e) →
  exec acts s = Some s' → calls s' !! i = Some stage.
Proof.
  revert s. induction acts as [|a acts IH]; intros s Hi Hst Hexec;
    simpl in *.
  - by simplify_eq.
  - destruct (step a s) as [s1|] eqn:Hstep; [|done].
    eapply IH; [by eapply step_settled_call|done..].
Qed.

(** As long as [addSysInfo] is only called with the reason [Start], the
    sys info cell is generated at most once, however many calls there are
    and whether or not the generation worked: one deferred at most is made,
    one message at most goes to the webview, and nothing is shared or
    posted as a restart. *)
Theorem sys_info_is_generated_once_at_start acts s :
  exec acts init = Some s →
  forallb startOnly acts = true →
  length (deferreds s) ≤ 1 ∧
  length (WebviewCells.posted (window s)) ≤ 1 ∧
  shared s = [] ∧ restartKernelPosted s = 0.
Proof.
  intros Hexec Hstart.
  by destruct (exec_startedOnce _ _ _ Hstart init_linked init_startedOnce
                 Hexec).
Qed.

(** A failure to generate the sys info cell is kept from the call that
    asked for it, which returns as if all were well, and goes to the calls
    that come after it with the reason [Start]: as long as no call brings
    another reason, each of them waits for the rejected deferred and throws
    that error, and none of them generates anew. *)
Theorem sys_info_failure_goes_to_later_calls acts more s s1 s' i reason d e :
  exec acts init = Some s →
  calls s !! i = Some (Generating reason d) →
  addSysInfoPromise s = Some d →
  step (Generated i (inl e)) s = Some s1 →
  exec more s1 = Some s' →
  forallb startOnly more = true →
  calls s' !! i = Some Returned ∧
  length (deferreds s') = length (deferreds s) ∧
  ∀ j stage,
    length (calls s) ≤ j → calls s' !! j = Some stage →
    (stage = Waiting d ∧
     ∃ s'', step (Observed j) s' = Some s'' ∧
            calls s'' !! j = Some (Threw e)) ∨
    stage = Threw e.
Proof.
  intros Hexec Hi Hcur Hstep Hmore Hstart.
  pose proof (exec_linked _ _ _ init_linked Hexec) as HL.
  pose proof (step_linked _ _ _ HL Hstep) as HL1.
  pose proof (linked_pending _ HL _ _ _ Hi) as Hd.
  simpl in Hstep. rewrite Hi in Hstep. simpl in Hstep. simplify_eq.
  set (s1 := move i Returned (settle d (Rejected e) s)) in *.
  assert (Failed d e (length (calls s)) s1) as HF1.
  { split; simpl.
    - done.
    - apply list_lookup_insert_eq. by eapply lookup_lt_Some.
    - by rewrite length_insert.
    - intros j stage Hj Hs. apply lookup_lt_Some in Hs.
      rewrite length_insert in Hs. lia. }
  pose proof (exec_failed _ _ _ _ _ _ Hstart HL1 HF1 Hmore)
    as [Hcur' Hrej' Hlen' Hlater'].
  split_and!.
  - eapply exec_settled_call; [|by left|done]. simpl.
    apply list_lookup_insert_eq. by eapply lookup_lt_Some.
  - assert (∀ a t t', startOnly a = true → Failed d e (length (calls s)) t →
              step a t = Some t' →
              length (deferreds t') = length (deferreds t)) as Hone.
    { intros a t t' Ha [Hc _ _ _] Ht. destruct a as [r|k r|k]; simpl in *.
      - apply bool_decide_eq_true in Ha as ->. simplify_eq.
        unfold addSysInfo. rewrite Hc. by rewrite decide_False by (by intros []).
      - destruct (calls t !! k) as [[r0 d0| | |]|]; simplify_eq.
        unfold afterGenerate. destruct r; simpl; by rewrite length_insert.
      - destruct (calls t !! k) as [[| d0 | |]|]; simplify_eq.
        destruct (deferreds t !! d0) as [r|]; [|done].
        by destruct r; simpl in Ht; simplify_eq. }
    transitivity (length (deferreds s1)); [|simpl; by rewrite length_insert].
    clear Hcur' Hrej' Hlen' Hlater'.
    revert HL1 HF1 Hmore Hstart. generalize s1. clear s1.
    induction more as [|a more IH]; intros t HLt HFt Hm Hst; simpl in *.
    + by simplify_eq.
    + apply andb_prop in Hst as [Ha Hst].
      destruct (step a t) as [t1|] eqn:Ht; [|done].
      rewrite (IH t1); [by eapply Hone|by eapply step_linked|
                        by eapply step_failed|done|done].
  - intros j stage Hj Hs. destruct (Hlater' _ _ Hj Hs) as [-> | ->]; [|by right].
    left. split; [done|]. simpl. rewrite Hs, Hrej'. simpl.
    eexists. split; [done|]. simpl.
    apply list_lookup_insert_eq. by eapply lookup_lt_Some.
Qed.

End SysInfoFacts.

Section SysInfoExamples.
Import SubmitCode SysInfo.

Lemma sys_info_is_generated_once_at_start_witness :
  let acts := [Call Start; Call Start;
               Generated 0 (inr (Some (exampleCell finished)));
               Observed 1; Call Start; Observed 2] in
  exec acts init = Some (after acts) ∧
  calls (after acts) = [Returned; Returned; Returned] ∧
  WebviewCells.posted (window (after acts)) =
    [FinishCell (exampleCell finished)] ∧
  length (deferreds (after acts)) ≤ 1.
Proof.
  intros acts. split; [by vm_compute|]. split; [by vm_compute|].
  split; [by vm_compute|].
  apply (sys_info_is_generated_once_at_start acts (after acts));
    by vm_compute.
Defined.

Lemma sys_info_failure_goes_to_later_calls_witness :
  let e := OtherError "no sys info" in
  let acts := [Call Start] in
  let fails := Generated 0 (inl e) in
  let more := [Call Start; Call Start; Observed 1] in
  exec acts init = Some (after acts) ∧
  step fails (after acts) = Some (after (acts ++ [fails])) ∧
  exec more (after (acts ++ [fails])) =
    Some (after (acts ++ [fails] ++ more)) ∧
  calls (after (acts ++ [fails] ++ more)) =
    [Returned; Threw e; Waiting 0] ∧
  calls (after (acts ++ [fails] ++ more)) !! 0 = Some Returned.
Proof.
  intros e acts fails more. split; [by vm_compute|]. split; [by vm_compute|].
  split; [by vm_compute|]. split; [by vm_compute|].
  apply (sys_info_failure_goes_to_later_calls acts more (after acts)
           (after (acts ++ [fails])) (after (acts ++ [fails] ++ more))
           0 Start 0 e); by vm_compute.
Defined.

End SysInfoExamples.

(** * Restarting and interrupting the kernel *)

Section KernelControlFacts.
Import KernelControl.

Lemma kernel_Runs_bind {A B} (m : Prog A) (f : A → Prog B) calls o :
  Runs (m ≫= f) calls o ↔
  (∃ c1 a c2, calls = c1 ++ c2 ∧ Runs m c1 (Returns a) ∧ Runs (f a) c2 o) ∨
  (∃ e, Runs m calls (ThrowsError e) ∧ o = ThrowsError e).
Proof.
  change (m ≫= f) with (bind m f).
  revert calls. induction m as [a|e|c k IH]; intros calls; simpl.
  - split.
    + intros Hrun. left. by exists [], a, calls.
    + intros [(c1 & a' & c2 & -> & [-> [= <-]] & Hrun)|(e & [_ [=]] & _)].
      done.
  - split.
    + intros [-> ->]. right. by exists e.
    + intros [(c1 & a' & c2 & -> & [_ [=]] & _)|(e' & [-> [= <-]] & ->)].
      done.
  - split.
    + intros (x & rest & -> & Hrun). apply IH in Hrun
        as [(c1 & a & c2 & -> & Hm & Hf)|(e & Hm & ->)].
      * left. exists (reply c x :: c1), a, c2. split; [done|].
        split; [|done]. by exists x, c1.
      * right. exists e. split; [|done]. by exists x, rest.
    + intros [(c1 & a & c2 & -> & (x & rest & -> & Hm) & Hf)
             |(e & (x & rest & -> & Hm) & ->)].
      * exists x, (rest ++ c2). split; [done|]. apply IH. left.
        by exists rest, a, c2.
      * exists x, rest. split; [done|]. apply IH. right. by exists e.
Qed.

Lemma kernel_Runs_tryFinally {A} (body : Prog A) (fin : Prog unit) calls o :
  Runs (tryFinally body fin) calls o ↔
  ∃ c1 c2 ob ofin, calls = c1 ++ c2 ∧ Runs body c1 ob ∧ Runs fin c2 ofin ∧
                   o = afterFinally ob ofin.
Proof.
  revert calls. induction body as [a|e|c k IH]; intros calls; simpl.
  - change (bind fin ?f) with (fin ≫= f). rewrite kernel_Runs_bind. split.
    + intros [(c1 & [] & c2 & -> & Hfin & [-> ->])|(e & Hfin & ->)].
      * exists [], c1, (Returns a), (Returns tt).
        by rewrite app_nil_r.
      * by exists [], calls, (Returns a), (ThrowsError e).
    + intros (c1 & c2 & ob & ofin & -> & [-> ->] & Hfin & ->). simpl.
      destruct ofin as [[]|e]; simpl.
      * left. exists c2, tt, []. by rewrite app_nil_r.
      * right. by exists e.
  - change (bind fin ?f) with (fin ≫= f). rewrite kernel_Runs_bind. split.
    + intros [(c1 & [] & c2 & -> & Hfin & [-> ->])|(e' & Hfin & ->)].
      * exists [], c1, (ThrowsError e), (Returns tt).
        by rewrite app_nil_r.
      * by exists [], calls, (ThrowsError e), (ThrowsError e').
    + intros (c1 & c2 & ob & ofin & -> & [-> ->] & Hfin & ->). simpl.
      destruct ofin as [[]|e']; simpl.
      * left. exists c2, tt, []. by rewrite app_nil_r.
      * right. by exists e'.
  - split.
    + intros (x & rest & -> & Hrun).
      apply IH in Hrun as (c1 & c2 & ob & ofin & -> & Hb & Hf & ->).
      exists (reply c x :: c1), c2, ob, ofin. split; [done|].
      split; [by exists x, c1|done].
    + intros (c1 & c2 & ob & ofin & -> & (x & rest & -> & Hb) & Hf & ->).
      exists x, (rest ++ c2). split; [done|]. apply IH.
      by exists rest, c2, ob, ofin.
Qed.

Lemma kernel_Runs_tryCatch {A} (body : Prog A) (handler : Failure → Prog A)
    calls o :
  Runs (tryCatch body handler) calls o ↔
  (∃ a, Runs body calls (Returns a) ∧ o = Returns a) ∨
  (∃ c1 c2 e, calls = c1 ++ c2 ∧ Runs body c1 (ThrowsError e) ∧
              Runs (handler e) c2 o).
Proof.
  revert calls. induction body as [a|e|c k IH]; intros calls; simpl.
  - split.
    + intros [-> ->]. left. by exists a.
    + intros [(a' & [-> [= <-]] & ->)|(c1 & c2 & e & _ & [_ [=]] & _)]. done.
  - split.
    + intros Hrun. right. by exists [], calls, e.
    + intros [(a' & [_ [=]] & _)|(c1 & c2 & e' & -> & [-> [= <-]] & Hrun)].
      done.
  - split.
    + intros (x & rest & -> & Hrun). apply IH in Hrun
        as [(a & Hb & ->)|(c1 & c2 & e & -> & Hb & Hh)].
      * left. exists a. split; [by exists x, rest|done].
      * right. exists (reply c x :: c1), c2, e. split; [done|].
        split; [by exists x, c1|done].
    + intros [(a & (x & rest & -> & Hb) & ->)
             |(c1 & c2 & e & -> & (x & rest & -> & Hb) & Hh)].
      * exists x, rest. split; [done|]. apply IH. left. by exists a.
      * exists x, (rest ++ c2). split; [done|]. apply IH. right.
        by exists rest, c2, e.
Qed.

(** *** What holds of all the calls of a computation *)

Section Always.

Variable Q : list Reply → Prop.
Hypothesis Q_nil : Q [].
Hypothesis Q_app : ∀ c1 c2, Q c1 → Q c2 → Q (c1 ++ c2).

Lemma Always_ret {R} (r : R) : Always Q (Ret r).
Proof. by intros calls o [-> _]. Qed.

Lemma Always_raise {R} e : Always Q (Raise (R:=R) e).
Proof. by intros calls o [-> _]. Qed.

Lemma Always_ask c : (∀ x, Q [reply c x]) → Always Q (ask c).
Proof. intros Hc calls o (x & rest & -> & [-> _]). apply Hc. Qed.

Lemma Always_perform e : Q [reply (effect e) tt] → Always Q (perform e).
Proof. intros He. apply (Always_ask (effect e)). by intros []. Qed.

Lemma Always_awaiting a :
  (∀ x, Q [reply (await a) x]) → Always Q (awaiting a).
Proof.
  intros Ha calls o (x & rest & -> & Hrun).
  destruct x; destruct Hrun as [-> _]; apply Ha.
Qed.

Lemma Always_settled {A} (r : Failure + A) : Always Q (settled r).
Proof. destruct r; [apply Always_raise|apply Always_ret]. Qed.

Lemma Always_bind {A B} (m : Prog A) (f : A → Prog B) :
  Always Q m → (∀ a, Always Q (f a)) → Always Q (m ≫= f).
Proof.
  intros Hm Hf calls o
    [(c1 & x & c2 & -> & Hrun1 & Hrun2)|(e & Hrun & ->)]%kernel_Runs_bind.
  - apply Q_app; [by eapply Hm|by eapply Hf].
  - by eapply Hm.
Qed.

Lemma Always_tryFinally {A} (body : Prog A) (fin : Prog unit) :
  Always Q body → Always Q fin → Always Q (tryFinally body fin).
Proof.
  intros Hbody Hfin calls o
    (c1 & c2 & ob & ofin & -> & Hrun1 & Hrun2 & _)%kernel_Runs_tryFinally.
  apply Q_app; [by eapply Hbody|by eapply Hfin].
Qed.

Lemma Always_tryCatch {A} (body : Prog A) (handler : Failure → Prog A) :
  Always Q body → (∀ e, Always Q (handler e)) →
  Always Q (tryCatch body handler).
Proof.
  intros Hbody Hh calls o
    [(a & Hrun & _)|(c1 & c2 & e & -> & Hrun1 & Hrun2)]%kernel_Runs_tryCatch.
  - by eapply Hbody.
  - apply Q_app; [by eapply Hbody|by eapply Hh].
Qed.

End Always.

Lemma flagAfter_app c1 c2 :
  flagAfter (c1 ++ c2) =
    match flagAfter c2 with
    | Some b => Some b
    | None => flagAfter c1
    end.
Proof. unfold flagAfter. by rewrite omap_app, last_app. Qed.

Lemma resets_nil : resets [].
Proof. done. Qed.

Lemma resets_app c1 c2 : resets c1 → resets c2 → resets (c1 ++ c2).
Proof.
  unfold resets. rewrite flagAfter_app. by destruct (flagAfter c2).
Qed.

Lemma avoids_nil P : avoids P [].
Proof. constructor. Qed.

Lemma avoids_app P c1 c2 : avoids P c1 → avoids P c2 → avoids P (c1 ++ c2).
Proof. intros. by apply Forall_app. Qed.

(** *** Computations without a [catch] *)

Lemma Strict_ret {R} (r : R) : Strict (Ret r).
Proof. intros calls o [-> ->]. constructor. Qed.

Lemma Strict_ask c : (∀ x, rejection (reply c x) = None) → Strict (ask c).
Proof.
  intros Hc calls o (x & rest & -> & [-> ->]). by repeat constructor.
Qed.

Lemma Strict_perform e : Strict (perform e).
Proof. by apply (Strict_ask (effect e)). Qed.

Lemma Strict_awaiting a : Strict (awaiting a).
Proof.
  intros calls o (x & rest & -> & Hrun). destruct x as [e|].
  - destruct Hrun as [-> ->]. by exists [], (reply (await a) (Some e)).
  - destruct Hrun as [-> ->]. by repeat constructor.
Qed.

Lemma Strict_value c {A} (conv : Answer c → Failure + A) :
  (∀ x, rejection (reply c x) =
        match conv x with inl e => Some e | inr _ => None end) →
  Strict (ask c ≫= λ x, settled (conv x)).
Proof.
  intros Hc calls o (x & rest & -> & Hrun). simpl in Hrun.
  specialize (Hc x). destruct (conv x) as [e|a]; simpl in Hrun.
  - destruct Hrun as [-> ->]. by exists [], (reply c x).
  - destruct Hrun as [-> ->]. by repeat constructor.
Qed.

Lemma Strict_bind {A B} (m : Prog A) (f : A → Prog B) :
  Strict m → (∀ a, Strict (f a)) → Strict (m ≫= f).
Proof.
  intros Hm Hf calls o
    [(c1 & x & c2 & -> & Hrun1 & Hrun2)|(e & Hrun & ->)]%kernel_Runs_bind.
  - specialize (Hm _ _ Hrun1). specialize (Hf _ _ _ Hrun2). simpl in Hm.
    destruct o as [b|e].
    + by apply Forall_app.
    + destruct Hf as (l & r & -> & Hl & Hr). exists (c1 ++ l), r.
      split; [by rewrite app_assoc|]. split; [by apply Forall_app|done].
  - by specialize (Hm _ _ Hrun).
Qed.

Ltac strict :=
  repeat first
    [ apply Strict_ret | apply Strict_perform | apply Strict_awaiting
    | match goal with
      | |- Strict (ask ?c ≫= settled) =>
          by apply (Strict_value c (λ x, x)); intros []
      | |- Strict (ask ?c) => by apply (Strict_ask c)
      end
    | apply Strict_bind; [|intros ?] | case_match ].

Lemma Strict_restartBody : Strict restartBody.
Proof. unfold restartBody. strict. Qed.

(** The [catch] block of [restartKernelInternal] throws what one of its
    three calls was rejected with. *)
Lemma recovery_throws calls e :
  Runs (awaiting notebookDispose;; awaiting ensureConnectionAndNotebook;;
        awaiting (addSysInfo SysInfo.Restart)) calls (ThrowsError e) →
  ∃ l r, calls = l ++ [r] ∧ recovers (called r) = true ∧
         rejection r = Some e.
Proof.
  intros (x1 & rest1 & -> & Hrun). destruct x1 as [e1|]; simpl in Hrun.
  { destruct Hrun as [-> [= <-]].
    by exists [], (reply (await notebookDispose) (Some e)). }
  destruct Hrun as (x2 & rest2 & -> & Hrun).
  destruct x2 as [e2|]; simpl in Hrun.
  { destruct Hrun as [-> [= <-]].
    by exists [reply (await notebookDispose) None],
              (reply (await ensureConnectionAndNotebook) (Some e)). }
  destruct Hrun as (x3 & rest3 & -> & Hrun).
  destruct x3 as [e3|]; simpl in Hrun.
  - destruct Hrun as [-> [= <-]].
    by exists [reply (await notebookDispose) None;
               reply (await ensureConnectionAndNotebook) None],
              (reply (await (addSysInfo SysInfo.Restart)) (Some e)).
  - by destruct Hrun as [_ [=]].
Qed.

(** *** The shape of the executions *)

Lemma restartKernelInternal_runs calls o :
  Runs restartKernelInternal calls o →
  ∃ mid,
    calls = [reply (effect (setRestartingKernel true)) tt;
             reply (effect finishOutstandingCells) tt;
             reply (effect statusSet) tt] ++ mid ++
            [reply (effect statusDispose) tt;
             reply (effect (setRestartingKernel false)) tt] ∧
    Runs (tryCatch restartBody restartCatch) mid o.
Proof.
  unfold restartKernelInternal.
  intros ([] & ? & -> & [] & ? & -> & [] & ? & -> & Hrun).
  apply kernel_Runs_tryFinally in Hrun
    as (mid & c2 & ob & ofin & -> & Hbody & Hfin & ->).
  destruct Hfin as ([] & ? & -> & [] & ? & -> & [-> ->]).
  by exists mid.
Qed.

Lemma restartCatch_runs exc calls o :
  Runs (restartCatch exc) calls o →
  (exc = JupyterKernelPromiseFailedError ∧
   ∃ rest, calls = reply readNotebook true :: rest ∧
           Runs (awaiting notebookDispose;;
                 awaiting ensureConnectionAndNotebook;;
                 awaiting (addSysInfo SysInfo.Restart)) rest o) ∨
  (o = Returns tt ∧
   ∃ pre, calls = pre ++ [reply (effect (showErrorMessage exc)) tt;
                          reply (effect (traceError exc)) tt] ∧
          Forall (λ r, rejection r = None) pre).
Proof.
  unfold restartCatch, isPromiseFailed. case_bool_decide as Hexc.
  - intros (nb & rest & -> & Hrun). simpl in nb, Hrun. destruct nb.
    + left. split; [done|]. by exists rest.
    + right. destruct Hrun as ([] & ? & -> & [] & ? & -> & [-> ->]).
      split; [done|]. exists [reply readNotebook false].
      split; [done|]. by repeat constructor.
  - simpl. intros ([] & ? & -> & [] & ? & -> & [-> ->]). right.
    split; [done|]. exists []. split; [done|]. constructor.
Qed.

(** [restartKernelInternal] always ends by disposing its status and
    resetting the flag. *)
Lemma restartKernelInternal_resets : Always resets restartKernelInternal.
Proof.
  intros calls o (mid & -> & _)%restartKernelInternal_runs. unfold resets.
  by rewrite !flagAfter_app.
Qed.

Ltac always Q Hnil Happ :=
  repeat first
    [ assumption
    | apply (Always_ret Q Hnil) | apply (Always_raise Q Hnil)
    | apply (Always_settled Q Hnil)
    | apply (Always_perform Q); by repeat constructor
    | apply (Always_awaiting Q); intros ?; by repeat constructor
    | match goal with
      | |- Always _ (ask ?c) =>
          apply (Always_ask Q c); intros ?; by repeat constructor
      end
    | apply (Always_bind Q Happ); [|intros ?]
    | apply (Always_tryFinally Q Happ)
    | apply (Always_tryCatch Q Happ); [|intros ?]
    | case_match ].

Lemma restartKernelInternal_asks_nothing :
  Always (avoids asksUser) restartKernelInternal.
Proof.
  unfold restartKernelInternal, restartBody, restartCatch.
  always (avoids asksUser) (avoids_nil asksUser) (avoids_app asksUser).
Qed.

(** The calls of [restartKernel] up to its [try], or all of them when it
    does not start. *)
Lemma restartKernel_runs internal calls o :
  Runs (restartKernel internal) calls o →
  ∃ pre rest,
    calls = pre ++ rest ∧
    avoids asksUser pre ∧ avoids restarts pre ∧ flagAfter pre = None ∧
    ((rest = [] ∧ o = Returns tt) ∨
     ∃ c1,
       rest = [reply (effect (setRestartingKernel true)) tt;
               reply (effect startProgress) tt] ++ c1 ++
              [reply (effect (setRestartingKernel false)) tt;
               reply (effect stopProgress) tt] ∧
       Runs askAndRestart c1 o).
Proof.
  unfold restartKernel.
  intros [(c0 & [] & c1 & -> & Hpre & Hrun)|(e & Hpre & ->)]%kernel_Runs_bind.
  - assert (avoids asksUser c0 ∧ avoids restarts c0 ∧ flagAfter c0 = None)
      as (Hask0 & Hre0 & Hfl0).
    { destruct internal.
      - destruct Hpre as [-> _]. by repeat constructor.
      - destruct Hpre as ([] & ? & -> & [] & ? & -> & [-> _]).
        by repeat constructor. }
    apply kernel_Runs_bind in Hrun
      as [(c2 & start & c3 & -> & Hstart & Hrun)|(e & Hstart & ->)].
    + assert (avoids asksUser c2 ∧ avoids restarts c2 ∧ flagAfter c2 = None)
        as (Hask2 & Hre2 & Hfl2).
      { destruct Hstart as (nb & ? & -> & Hstart). destruct nb.
        - destruct Hstart as (r & ? & -> & [-> _]). by repeat constructor.
        - destruct Hstart as [-> _]. by repeat constructor. }
      exists (c0 ++ c2), c3. rewrite app_assoc. split; [done|].
      split; [by apply Forall_app|]. split; [by apply Forall_app|].
      split; [by rewrite flagAfter_app, Hfl2|].
      destruct start.
      * right. destruct Hrun as ([] & ? & -> & [] & ? & -> & Hrun).
        apply kernel_Runs_tryFinally in Hrun
          as (cb & cf & ob & ofin & -> & Hbody & Hfin & ->).
        destruct Hfin as ([] & ? & -> & [] & ? & -> & [-> ->]).
        by exists cb.
      * left. by destruct Hrun as [-> ->].
    + exfalso. destruct Hstart as (nb & ? & -> & Hstart). destruct nb.
      * by destruct Hstart as (r & ? & -> & [_ [=]]).
      * by destruct Hstart as [_ [=]].
  - exfalso. destruct internal.
    + by destruct Hpre as [_ [=]].
    + by destruct Hpre as ([] & ? & -> & [] & ? & -> & [_ [=]]).
Qed.

(** Whatever happens while the kernel is restarted or interrupted, none
    of the three functions ends with [restartingKernel] left set by it:
    [restartKernelInternal] always ends with the flag written [false], and
    [restartKernel] and [interruptKernel] write it [false] last whenever
    they, or the restart inside them, wrote it at all. *)
Theorem restarting_flag_is_reset :
  (∀ calls o, Runs restartKernelInternal calls o →
              flagAfter calls = Some false) ∧
  (∀ internal calls o, Runs (restartKernel internal) calls o →
                       flagAfter calls ≠ Some true) ∧
  (∀ calls o, Runs interruptKernel calls o → flagAfter calls ≠ Some true).
Proof.
  split_and!.
  - intros calls o (mid & -> & _)%restartKernelInternal_runs.
    by rewrite !flagAfter_app.
  - intros internal calls o
      (pre & rest & -> & _ & _ & Hpre & [[-> _]|(c1 & -> & _)])
      %restartKernel_runs.
    + by rewrite app_nil_r, Hpre.
    + by rewrite !flagAfter_app.
  - change (Always resets interruptKernel).
    pose proof restartKernelInternal_resets.
    unfold interruptKernel, canStart, interruptBody, interruptCatch.
    always resets resets_nil resets_app.
Qed.


Lemma Runs_value c {A} (k : Answer c → Failure + A) calls o :
  Runs (ask c ≫= λ x, settled (k x)) calls o →
  ∃ x, calls = [reply c x] ∧
       o = match k x with inl e => ThrowsError e | inr a => Returns a end.
Proof.
  intros (x & rest & -> & Hrun). simpl in Hrun. exists x.
  by destruct (k x); destruct Hrun as [-> ->].
Qed.



(** *** One execution from one sequence of answers *)













(** When the user is asked and answers neither yes nor not to be asked
    again, [restartKernel] restarts nothing: it returns without a call of [finishOutstandingCells] or of
    the restart of the notebook's kernel, and with the flag reset. *)
Theorem declined_restart_restarts_nothing internal calls o :
  Runs (restartKernel internal) calls o →
  reply (showInformationMessage RestartQuestion) (inr NoChoice) ∈ calls →
  o = Returns tt ∧
  Forall (λ r, restarts (called r) = false) calls ∧
  flagAfter calls = Some false.
Proof.
  intros (pre & rest & -> & Hask & Hre & Hfl & Hrest)%restartKernel_runs Hin.
  assert (∀ l, avoids asksUser l →
            reply (showInformationMessage RestartQuestion) (inr NoChoice) ∈ l
            → False) as Hno.
  { intros l Hl Hl'. unfold avoids in Hl. rewrite Forall_forall in Hl.
    by apply Hl in Hl'. }
  apply elem_of_app in Hin as [Hin|Hin]; [by destruct (Hno pre)|].
  destruct Hrest as [[-> _]|(c1 & -> & Hrun)];
    [by apply elem_of_nil in Hin|].
  do 2 (apply elem_of_cons in Hin as [Hin|Hin];
        [by apply (f_equal called) in Hin|]).
  apply elem_of_app in Hin as [Hin|Hin]; cycle 1.
  { do 2 (apply elem_of_cons in Hin as [Hin|Hin];
          [by apply (f_equal called) in Hin|]).
    by apply elem_of_nil in Hin. }
  pose proof restartKernelInternal_asks_nothing as Hint.
  unfold askAndRestart in Hrun.
  apply kernel_Runs_bind in Hrun
    as [(c2 & asks & c3 & -> & Hasks & Hrun)|(e & Hasks & ->)].
  - apply (Runs_value shouldAskForRestart (λ x, x)) in Hasks as (x & -> & Hx).
    apply elem_of_cons in Hin as [Hin|Hin];
      [by apply (f_equal called) in Hin|].
    destruct asks; [|exfalso; eapply Hno; [|done]; by eapply Hint].
    apply kernel_Runs_bind in Hrun
      as [(c4 & v & c5 & -> & Hv & Hrun)|(e & Hv & ->)].
    + apply (Runs_value (showInformationMessage RestartQuestion) (λ x, x))
        in Hv as (y & -> & Hy).
      apply elem_of_cons in Hin as [Hin|Hin].
      * apply (f_equal answered) in Hin. simpl in Hin.
        destruct y as [e|v']; simplify_eq. destruct Hrun as [-> ->].
        split; [done|]. split; [|by rewrite !flagAfter_app].
        apply Forall_app. split; [done|]. by repeat constructor.
      * exfalso. destruct v.
        -- eapply Hno; [|done]. by eapply Hint.
        -- apply kernel_Runs_bind in Hrun
             as [(c6 & [] & c7 & -> & Hd & Hrun)|(e & Hd & ->)].
           ++ apply elem_of_app in Hin as [Hin|Hin].
              ** destruct Hd as (r & ? & -> & Hd).
                 apply elem_of_cons in Hin as [Hin|Hin];
                   [by apply (f_equal called) in Hin|].
                 destruct r; destruct Hd as [-> _];
                   by apply elem_of_nil in Hin.
              ** eapply Hno; [|done]. by eapply Hint.
           ++ destruct Hd as (r & ? & -> & Hd).
              apply elem_of_cons in Hin as [Hin|Hin];
                [by apply (f_equal called) in Hin|].
              destruct r; destruct Hd as [-> _]; by apply elem_of_nil in Hin.
        -- destruct Hrun as [-> _]. by apply elem_of_nil in Hin.
    + exfalso.
      apply (Runs_value (showInformationMessage RestartQuestion) (λ x, x))
        in Hv as (y & -> & Hy).
      apply list_elem_of_singleton in Hin. apply (f_equal answered) in Hin.
      simpl in Hin. by destruct y.
  - exfalso.
    apply (Runs_value shouldAskForRestart (λ x, x)) in Hasks as (x & -> & Hx).
    apply list_elem_of_singleton in Hin. by apply (f_equal called) in Hin.
Qed.

Ltac found :=
  repeat first [ progress cbn [app] | rewrite <-app_assoc
               | apply list_elem_of_here | apply list_elem_of_further
               | apply elem_of_app; right ].

(** [restartKernelInternal] throws only when making up for a kernel that
    did not come back fails: a promise was rejected with
    [JupyterKernelPromiseFailedError] and then one of the calls of the
    [catch] block was rejected, with the error thrown. *)
Theorem restart_throws_only_from_recovery calls e :
  Runs restartKernelInternal calls (ThrowsError e) →
  ∃ r0 r,
    r0 ∈ calls ∧ rejection r0 = Some JupyterKernelPromiseFailedError ∧
    r ∈ calls ∧ recovers (called r) = true ∧ rejection r = Some e.
Proof.
  intros (mid & -> & Hrun)%restartKernelInternal_runs.
  apply kernel_Runs_tryCatch in Hrun
    as [(a & _ & [=])|(c1 & c2 & exc & -> & Hbody & Hcatch)].
  apply Strict_restartBody in Hbody as (l & r0 & -> & _ & Hr0).
  apply restartCatch_runs in Hcatch
    as [(-> & rest & -> & Hrec)|([=] & _)].
  apply recovery_throws in Hrec as (l' & r & -> & Hrec & Hr).
  exists r0, r. split_and!; [found|done|found|done|done].
Qed.

(** A failure of the restart that is no
    [JupyterKernelPromiseFailedError] does not come out of
    [restartKernelInternal]: when no promise is rejected with that error,
    the function returns, and every error a promise was rejected with has
    been shown to the user and traced. *)
Theorem restart_failure_is_shown calls o :
  Runs restartKernelInternal calls o →
  (∀ r, r ∈ calls → rejection r ≠ Some JupyterKernelPromiseFailedError) →
  o = Returns tt ∧
  ∀ r e, r ∈ calls → rejection r = Some e →
         reply (effect (showErrorMessage e)) tt ∈ calls ∧
         reply (effect (traceError e)) tt ∈ calls.
Proof.
  intros (mid & -> & Hrun)%restartKernelInternal_runs Hnone.
  apply kernel_Runs_tryCatch in Hrun
    as [([] & Hbody & ->)|(c1 & c2 & exc & -> & Hbody & Hcatch)].
  - split; [done|]. intros r e Hin Hr. exfalso.
    apply Strict_restartBody in Hbody. simpl in Hbody.
    rewrite Forall_forall in Hbody.
    do 3 (apply elem_of_cons in Hin as [->|Hin]; [done|]).
    apply elem_of_app in Hin as [Hin|Hin].
    + apply Hbody in Hin. congruence.
    + do 2 (apply elem_of_cons in Hin as [->|Hin]; [done|]).
      by apply elem_of_nil in Hin.
  - apply Strict_restartBody in Hbody as (l & r0 & -> & Hl & Hr0).
    assert (exc ≠ JupyterKernelPromiseFailedError) as Hexc.
    { intros ->. apply (Hnone r0); [found|done]. }
    apply restartCatch_runs in Hcatch
      as [(-> & _)|(-> & pre & -> & Hpre)]; [done|].
    split; [done|]. intros r e Hin Hr.
    assert (e = exc) as ->.
    { assert (rejection r = None ∨ r = r0) as [? | ->]; [|congruence..].
      clear Hr. revert r Hin. apply Forall_forall.
      rewrite !Forall_app, !Forall_cons, Forall_nil.
      split_and!;
        first [ done | by left | by right
              | eapply Forall_impl; [eassumption|]; intros ? ?; by left ]. }
    split; found.
Qed.

End KernelControlFacts.

Section KernelControlExamples.
Import KernelControl.

(** Reads the answers of an execution off the calls given. *)
Ltac replay :=
  repeat (lazymatch goal with
          | |- ex _ => do 2 eexists; split; [reflexivity|]; simpl
          end);
  try done.


(** The user is asked and says no. *)
Lemma declined_restart_restarts_nothing_witness :
  let calls := [reply (effect trackKernelResourceInformation) tt;
                reply (effect logTelemetry) tt;
                reply readNotebook true;
                reply readRestartingKernel false;
                reply (effect (setRestartingKernel true)) tt;
                reply (effect startProgress) tt;
                reply shouldAskForRestart (inr true);
                reply (showInformationMessage RestartQuestion) (inr NoChoice);
                reply (effect (setRestartingKernel false)) tt;
                reply (effect stopProgress) tt] in
  Runs (restartKernel false) calls (Returns tt) ∧
  Forall (λ r, restarts (called r) = false) calls ∧
  flagAfter calls = Some false.
Proof.
  intros calls.
  assert (Runs (restartKernel false) calls (Returns tt)) as Hrun.
  { unfold restartKernel, canStart, askAndRestart, calls. simpl. replay. }
  split; [exact Hrun|].
  apply (declined_restart_restarts_nothing false calls (Returns tt) Hrun).
  unfold calls. do 7 apply list_elem_of_further. apply list_elem_of_here.
Defined.

(** The kernel does not come back, and the server cannot be reached
    either. *)
Lemma restart_throws_only_from_recovery_witness :
  let e := OtherFailure "no server" in
  let calls := [reply (effect (setRestartingKernel true)) tt;
                reply (effect finishOutstandingCells) tt;
                reply (effect statusSet) tt;
                reply readNotebook true;
                reply (await generateDataScienceExtraSettings) None;
                reply (await notebookRestartKernel)
                      (Some JupyterKernelPromiseFailedError);
                reply readNotebook true;
                reply (await notebookDispose) None;
                reply (await ensureConnectionAndNotebook) (Some e);
                reply (effect statusDispose) tt;
                reply (effect (setRestartingKernel false)) tt] in
  Runs restartKernelInternal calls (ThrowsError e) ∧
  ∃ r0 r,
    r0 ∈ calls ∧ rejection r0 = Some JupyterKernelPromiseFailedError ∧
    r ∈ calls ∧ recovers (called r) = true ∧ rejection r = Some e.
Proof.
  intros e calls.
  assert (Runs restartKernelInternal calls (ThrowsError e)) as Hrun.
  { unfold restartKernelInternal, restartBody, restartCatch, calls.
    simpl. replay. }
  split; [exact Hrun|].
  exact (restart_throws_only_from_recovery calls e Hrun).
Defined.

(** The restart times out: the error is shown and traced, the function
    returns. *)
Lemma restart_failure_is_shown_witness :
  let calls := [reply (effect (setRestartingKernel true)) tt;
                reply (effect finishOutstandingCells) tt;
                reply (effect statusSet) tt;
                reply readNotebook true;
                reply (await generateDataScienceExtraSettings) None;
                reply (await notebookRestartKernel) (Some timedOut);
                reply (effect (showErrorMessage timedOut)) tt;
                reply (effect (traceError timedOut)) tt;
                reply (effect statusDispose) tt;
                reply (effect (setRestartingKernel false)) tt] in
  Runs restartKernelInternal calls (Returns tt) ∧
  reply (effect (showErrorMessage timedOut)) tt ∈ calls.
Proof.
  intros calls.
  assert (Runs restartKernelInternal calls (Returns tt)) as Hrun.
  { unfold restartKernelInternal, restartBody, restartCatch, calls.
    simpl. replay. }
  split; [exact Hrun|].
  assert (∀ r, r ∈ calls →
               rejection r ≠ Some JupyterKernelPromiseFailedError) as Hnone.
  { apply Forall_forall. unfold calls. by repeat constructor. }
  apply (proj2 (restart_failure_is_shown calls (Returns tt) Hrun Hnone)
           (reply (await notebookRestartKernel) (Some timedOut)) timedOut).
  - unfold calls. do 5 apply list_elem_of_further. apply list_elem_of_here.
  - done.
Defined.

End KernelControlExamples.

(** * Copying code into an editor *)

Section CopyCodeFacts.
Import CopyCode.

Lemma splitFrom_length separator current s :
  length (splitFrom separator current s) = length (split separator s).
Proof.
  unfold split. revert current. induction s as [|c s IH]; intros current;
    simpl; [done|].
  case_decide; simpl; [done|]. by rewrite IH, (IH (_ +:+ _)).
Qed.

Lemma split_length separator s : 0 < length (split separator s).
Proof.
  unfold split. generalize "". induction s as [|c s IH]; intros current;
    simpl; [lia|].
  case_decide; simpl; [lia|apply IH].
Qed.

(** The line of the end of a text is given by the number of its pieces
    between line feeds. *)
Lemma endOf_line text line character :
  (endOf text line character).1 = selectionLine line text.
Proof.
  unfold selectionLine. revert line character.
  induction text as [|c text IH]; intros line character; simpl.
  - lia.
  - unfold split. simpl. case_decide; simpl.
    + rewrite IH. unfold split. lia.
    + by rewrite IH, splitFrom_length.
Qed.

Lemma endOf_app text more line character :
  endOf (text +:+ more) line character =
    endOf more (endOf text line character).1 (endOf text line character).2.
Proof.
  revert line character. induction text as [|c text IH];
    intros line character; [done|].
  change (String c text +:+ more) with (String c (text +:+ more)).
  cbn [endOf]. by case_decide.
Qed.

Lemma endOf_EOL EOL line character :
  isEOL EOL →
  endOf EOL line character = ((line + 1)%Z, 0%Z).
Proof. by intros [->| ->]. Qed.

(** The selection is put where the inserted text ends, which is the
    beginning of a line below the one it was on, so that what is pasted
    next comes right after: this holds in every case of the function, with
    cells in the document or without, inside a cell or not, for an empty or
    untitled document, and whatever line feeds the source holds. *)
Theorem selection_is_after_copied_code source setting marker EOL ranges
    line lineCount isUntitled :
  isEOL EOL →
  endOf (newCode source setting marker EOL ranges line lineCount isUntitled)
        line 0
  = (selectionLine line
       (newCode source setting marker EOL ranges line lineCount isUntitled),
     0%Z) ∧
  (line < selectionLine line
            (newCode source setting marker EOL ranges line lineCount
               isUntitled))%Z.
Proof.
  intros HEOL.
  assert (∀ text,
            endOf (text +:+ EOL) line 0
            = (selectionLine line (text +:+ EOL), 0%Z) ∧
            (line < selectionLine line (text +:+ EOL))%Z) as Hend.
  { intros text. rewrite <-(endOf_line (text +:+ EOL) line 0).
    rewrite endOf_app, (endOf_EOL _ _ _ HEOL). split; [done|]. simpl.
    rewrite endOf_line. unfold selectionLine.
    pose proof (split_length LF text). lia. }
  assert (∀ a b, a +:+ b +:+ EOL = (a +:+ b) +:+ EOL) as Hassoc.
  { intros a b. induction a as [|c a IH]; [done|].
    change (String c a +:+ ?x) with (String c (a +:+ x)).
    change (String c ?x +:+ EOL) with (String c (x +:+ EOL)).
    by rewrite IH. }
  unfold newCode. cbv zeta. repeat case_match; rewrite ?Hassoc; apply Hend.
Qed.

End CopyCodeFacts.

Section CopyCodeExamples.
Import CopyCode.

Lemma selection_is_after_copied_code_witness :
  let EOL := String LF "" in
  let code := newCode "x = 1" None "# %%" EOL
                [{| startLine := 0; endLine := 4 |}] 2 10 false in
  code = "# %%" +:+ EOL +:+ "x = 1" +:+ EOL +:+ "# %%" +:+ EOL ∧
  selectionLine 2 code = 5%Z ∧
  endOf code 2 0 = (selectionLine 2 code, 0%Z).
Proof.
  intros EOL code. split; [by vm_compute|]. split; [by vm_compute|].
  apply (selection_is_after_copied_code "x = 1" None "# %%" EOL
           [{| startLine := 0; endLine := 4 |}] 2 10 false).
  by left.
Defined.

End CopyCodeExamples.
